(** * amcharts5: MapLineSeries and ExportingMenu

    A shallow embedding of the classes [MapLineSeries] and [ExportingMenu]
    and of the chart script of src/.internal/charts/map/MapLineSeries.ts,
    with the properties of the specification stated and proved over it,
    followed by properties of the life of a map line, of the menu under
    events and of the script's data generator.

    JavaScript objects have identity and are shared by reference.  They are
    modelled by references ([ref]) into finite stores ([gmap]); mutable
    fields live in the store, so that two holders of the same reference see
    the same updates.  Calls to collaborators whose code is not part of the
    modelled files (the superclass [MapSeries], [MapLine], [Exporting], the
    DOM) are recorded in a log, in the order in which the code makes them. *)

From stdpp Require Import gmap strings list fin_maps.
From Stdlib Require Import ZArith Lia Ascii.

(* stdpp's solvers clear hypotheses that may be gone already *)
#[local] Set Warnings "-clear-no-such-hyp".

(** Object identity. *)
Definition ref := nat.

(* ===================================================================== *)
(** * MapLineSeries *)
(* ===================================================================== *)

Module MapLineSeries.

Section Series.

(** Coordinates are JavaScript numbers.  The series never computes with
    them: it copies them and substitutes the literal [0] for a missing
    one, so the number type is left abstract. *)
Context {number : Type} (zero : number).

(** GeoJSON.LineString | GeoJSON.MultiLineString *)
Inductive Geometry :=
| LineString (coordinates : list (list number))
| MultiLineString (coordinates : list (list (list number))).

(** DataItem<IMapPointSeriesDataItem>: the fields read by the series. *)
Record PointDataItem := mkPoint {
  longitude : option number;
  latitude : option number
}.

(** DataItem<IMapLineSeriesDataItem> *)
Record DataItem := mkDataItem {
  mapLine : option ref;
  geometry : option Geometry;
  pointsToConnect : option (list ref);
  dirtyValue : bool                      (* isDirty("value") *)
}.

(** MapLine: its geometry setting, its data item, the private setting
    "series", and the two flags of the operations the series relies on. *)
Record MapLine := mkMapLine {
  ml_geometry : option Geometry;
  ml_dataItem : option ref;
  ml_series : bool;
  ml_projectionDirty : bool;
  ml_disposed : bool
}.

(** Calls that leave the modelled file. *)
Inductive Call :=
| SuperProcessDataItem (d : ref)
| SuperMarkDirtyValues
| SuperDisposeDataItem (d : ref)
| LineMarkDirtyProjection (l : ref)
| LineDispose (l : ref).

Record Series := mkSeries {
  dataItems : list ref;                  (* this.dataItems *)
  dataItemStore : gmap ref DataItem;
  pointStore : gmap ref PointDataItem;
  lineStore : gmap ref MapLine;
  children : list ref;                   (* this.children *)
  mapLines : list ref;                   (* this.mapLines *)
  listeners : list (ref * string * ref); (* point.on(field, ...) *)
  calls : list Call
}.

Definition set_dataItemStore (f : gmap ref DataItem -> gmap ref DataItem) (s : Series) : Series :=
  mkSeries (dataItems s) (f (dataItemStore s)) (pointStore s) (lineStore s)
           (children s) (mapLines s) (listeners s) (calls s).

Definition set_lineStore (f : gmap ref MapLine -> gmap ref MapLine) (s : Series) : Series :=
  mkSeries (dataItems s) (dataItemStore s) (pointStore s) (f (lineStore s))
           (children s) (mapLines s) (listeners s) (calls s).

Definition set_children (f : list ref -> list ref) (s : Series) : Series :=
  mkSeries (dataItems s) (dataItemStore s) (pointStore s) (lineStore s)
           (f (children s)) (mapLines s) (listeners s) (calls s).

Definition set_mapLines (f : list ref -> list ref) (s : Series) : Series :=
  mkSeries (dataItems s) (dataItemStore s) (pointStore s) (lineStore s)
           (children s) (f (mapLines s)) (listeners s) (calls s).

Definition set_listeners (f : list (ref * string * ref) -> list (ref * string * ref))
    (s : Series) : Series :=
  mkSeries (dataItems s) (dataItemStore s) (pointStore s) (lineStore s)
           (children s) (mapLines s) (f (listeners s)) (calls s).

Definition call (c : Call) (s : Series) : Series :=
  mkSeries (dataItems s) (dataItemStore s) (pointStore s) (lineStore s)
           (children s) (mapLines s) (listeners s) (calls s ++ [c]).

(** A freshly constructed series: [mapLines] is a new, empty ListTemplate. *)
Definition new_ (items : list ref) (ds : gmap ref DataItem)
    (ps : gmap ref PointDataItem) : Series :=
  mkSeries items ds ps ∅ [] [] [] [].

(** ** Collaborators *)

(** Modelled from the spec: [DataItem.get(key)] reads a field of a data
    item ("a mutable record keyed by field name"). *)
Definition di_get {A} (field : DataItem -> option A) (d : ref) (s : Series) : option A :=
  dataItemStore s !! d ≫= field.

(** Modelled from the spec: [DataItem.get(key, fallback)] on a point
    ("default 0 if a point lacks a coordinate yet"). *)
Definition point_get (field : PointDataItem -> option number) (fallback : number)
    (p : ref) (s : Series) : number :=
  default fallback (pointStore s !! p ≫= field).

(** Modelled from the spec: [MapLine.set("geometry", g)] assigns the
    line's geometry field. *)
Definition line_set_geometry (g : option Geometry) (m : MapLine) : MapLine :=
  mkMapLine g (ml_dataItem m) (ml_series m) (ml_projectionDirty m) (ml_disposed m).

(** [MapLine.setPrivate("series", this)] *)
Definition line_setPrivate_series (m : MapLine) : MapLine :=
  mkMapLine (ml_geometry m) (ml_dataItem m) true (ml_projectionDirty m) (ml_disposed m).

(** [MapLine._setDataItem(dataItem)] *)
Definition line_setDataItem (d : ref) (m : MapLine) : MapLine :=
  mkMapLine (ml_geometry m) (Some d) (ml_series m) (ml_projectionDirty m) (ml_disposed m).

(** Modelled from the spec: [MapLine.markDirtyProjection()] "does not alter
    geometry data, only cached screen-projection". *)
Definition line_markDirtyProjection (m : MapLine) : MapLine :=
  mkMapLine (ml_geometry m) (ml_dataItem m) (ml_series m) true (ml_disposed m).

(** Modelled from the spec: [MapLine.dispose()] "freeing its rendering
    resources - delegated to the shape". *)
Definition line_dispose (m : MapLine) : MapLine :=
  mkMapLine (ml_geometry m) (ml_dataItem m) (ml_series m) (ml_projectionDirty m) true.

(** Modelled from the spec: [List.removeValue(v)] "remove the line shape
    from the series' managed collection". *)
Definition removeValue (l : ref) (xs : list ref) : list ref :=
  filter (λ x, x ≠ l) xs.

Definition di_set_mapLine (l : ref) (d : DataItem) : DataItem :=
  mkDataItem (Some l) (geometry d) (pointsToConnect d) (dirtyValue d).

(** ** The methods of MapLineSeries *)

(** makeMapLine: [this.mapLines.make()] creates a new MapLine object, at a
    reference that no object of the line store has. *)
Definition makeMapLine (d : ref) (s : Series) : ref * Series :=
  let l := fresh (dom (lineStore s)) in
  let s := set_lineStore (insert l (mkMapLine None None false false false)) s in
  let s := set_children (λ c, c ++ [l]) s in
  let s := set_lineStore (alter (line_setDataItem d) l) s in
  let s := set_mapLines (λ c, c ++ [l]) s in
  (l, s).

(** markDirtyProjection *)
Definition markDirtyProjection (s : Series) : Series :=
  foldl (λ s d,
           match di_get mapLine d s with
           | Some l => call (LineMarkDirtyProjection l)
                            (set_lineStore (alter line_markDirtyProjection l) s)
           | None => s
           end) s (dataItems s).

(** processDataItem *)
Definition processDataItem (d : ref) (s : Series) : Series :=
  let s := call (SuperProcessDataItem d) s in
  let '(l, s) := makeMapLine d s in
  let s := set_dataItemStore (alter (di_set_mapLine l) d) s in
  let s :=
    match di_get pointsToConnect d s with
    | Some pts =>
        foldl (λ s p,
                 set_listeners (λ ls, ls ++ [(p, "longitude", d);
                                             (p, "latitude", d);
                                             (p, "geometry", d)]) s) s pts
    | None => s
    end in
  set_lineStore (alter line_setPrivate_series l) s.

(** The coordinate pair pushed for one connected point. *)
Definition coordinate (s : Series) (p : ref) : list number :=
  [point_get longitude zero p s; point_get latitude zero p s].

(** _markDirtyValues; the argument is absent when the method is called
    without a data item. *)
Definition _markDirtyValues (dataItem : option ref) (s : Series) : Series :=
  match dataItem with
  | Some d =>
      let s := if default false (dirtyValue <$> dataItemStore s !! d)
               then call SuperMarkDirtyValues s else s in
      match di_get mapLine d s with
      | Some l =>
          match di_get pointsToConnect d s with
          | Some pts =>
              let coordinates := foldl (λ cs p, cs ++ [coordinate s p]) [] pts in
              set_lineStore (alter (line_set_geometry (Some (LineString coordinates))) l) s
          | None =>
              set_lineStore (alter (line_set_geometry (di_get geometry d s)) l) s
          end
      | None => s
      end
  | None => call SuperMarkDirtyValues s
  end.

(** disposeDataItem *)
Definition disposeDataItem (d : ref) (s : Series) : Series :=
  let s := call (SuperDisposeDataItem d) s in
  match di_get mapLine d s with
  | Some l =>
      let s := set_mapLines (removeValue l) s in
      call (LineDispose l) (set_lineStore (alter line_dispose l) s)
  | None => s
  end.

(** ** Histories

    The component framework adds a data item to the series and calls
    [processDataItem] on it once; it calls [disposeDataItem] when the item
    is removed.  A history lists these calls, the most recent first. *)

Inductive Op :=
| Process (d : ref)
| Dispose (d : ref).

#[export] Instance Op_eq_dec : EqDecision Op.
Proof. solve_decision. Defined.

Definition step (op : Op) (s : Series) : Series :=
  match op with
  | Process d => processDataItem d s
  | Dispose d => disposeDataItem d s
  end.

Fixpoint run (h : list Op) (s : Series) : Series :=
  match h with
  | [] => s
  | op :: h => step op (run h s)
  end.

(** The calling discipline of the framework: a data item of the store is
    processed at most once, and it is disposed at most once and only after
    it was processed. *)
Fixpoint protocol (ds : gmap ref DataItem) (h : list Op) : Prop :=
  match h with
  | [] => True
  | Process d :: h => is_Some (ds !! d) ∧ (Process d ∉ h) ∧ protocol ds h
  | Dispose d :: h => (Process d ∈ h) ∧ (Dispose d ∉ h) ∧ protocol ds h
  end.

(** The reading of "the ownership relation recorded on the data item is
    released": the data item no longer records a map line. *)
Definition released (d : ref) (s : Series) : Prop :=
  di_get mapLine d s = None.

(** The ownership invariant after a history [h]: every processed data item
    records one map line, which belongs to that item alone; the line is in
    [mapLines] exactly while the item is not disposed, and it is disposed
    exactly when the item is; [mapLines] holds these lines and no others,
    each once. *)
Record ownership (h : list Op) (s : Series) : Prop := mkOwnership {
  own_line : ∀ d, Process d ∈ h ->
    ∃ l m, di_get mapLine d s = Some l ∧ lineStore s !! l = Some m ∧
           ml_dataItem m = Some d ∧
           (ml_disposed m = true ↔ Dispose d ∈ h) ∧
           (l ∈ mapLines s ↔ Dispose d ∉ h);
  own_inj : ∀ d1 d2 l, Process d1 ∈ h -> Process d2 ∈ h ->
    di_get mapLine d1 s = Some l -> di_get mapLine d2 s = Some l -> d1 = d2;
  own_managed : ∀ l, l ∈ mapLines s ->
    ∃ d, Process d ∈ h ∧ (Dispose d ∉ h) ∧ di_get mapLine d s = Some l;
  own_nodup : NoDup (mapLines s)
}.

(** ** Notifications of the connected points *)

(** The points belong to another series, which moves them. *)
Definition set_pointStore (f : gmap ref PointDataItem -> gmap ref PointDataItem)
    (s : Series) : Series :=
  mkSeries (dataItems s) (dataItemStore s) (f (pointStore s)) (lineStore s)
           (children s) (mapLines s) (listeners s) (calls s).

(** The three fields [processDataItem] subscribes to. *)
Definition pointFields : list string := ["longitude"; "latitude"; "geometry"].

(** The subscriptions [processDataItem] makes for a data item [d] that
    connects the points [pts]. *)
Definition subscriptions (d : ref) (pts : list ref) : list (ref * string * ref) :=
  pts ≫= λ p, [(p, "longitude", d); (p, "latitude", d); (p, "geometry", d)].

(** The geometry a recomputation gives the line of a data item: the pairs
    of its connected points as they are now, or else its own geometry. *)
Definition connectedGeometry (d : ref) (s : Series) : option Geometry :=
  match di_get pointsToConnect d s with
  | Some pts => Some (LineString (map (coordinate s) pts))
  | None => di_get geometry d s
  end.

(** Modelled from the spec: a data item "emits field-change notifications".
    A notification of the field [field] of the point [p] runs the callbacks
    registered for it with [point.on(field, ...)], in the order of their
    registration; the callbacks of the series run [_markDirtyValues] on the
    data item they were registered for. *)
Definition notify (p : ref) (field : string) (s : Series) : Series :=
  foldl (λ s x, if bool_decide (x.1.1 = p ∧ x.1.2 = field)
                then _markDirtyValues (Some x.2) s else s)
        s (listeners s).

(** The data items that were processed and not disposed since, in the order
    in which they were processed. *)
Fixpoint live (h : list Op) : list ref :=
  match h with
  | [] => []
  | Process d :: h => live h ++ [d]
  | Dispose d :: h => filter (λ x, x ≠ d) (live h)
  end.

End Series.

(** ** Example data

    Two points, one without a latitude and one without a longitude; a data
    item that connects them, and one with a geometry of its own. *)

Definition examplePoints : gmap ref (@PointDataItem Z) :=
  {[ 5 := mkPoint (Some 1%Z) None; 6 := mkPoint None (Some 3%Z) ]}.

Definition exampleDataItems : gmap ref (@DataItem Z) :=
  {[ 0 := mkDataItem None None (Some [5; 6]) false;
     1 := mkDataItem None (Some (LineString [[7%Z; 8%Z]])) None false ]}.

Definition exampleSeries : @Series Z :=
  new_ [0; 1] exampleDataItems examplePoints.

End MapLineSeries.


(* ===================================================================== *)
(** * ExportingMenu *)
(* ===================================================================== *)

Module ExportingMenu.

Open Scope Z_scope.

(** The double-quote character, for the markup of sub-labels. *)
Definition dquote : string := String "034"%char EmptyString.

(** ** Data *)

(** IMenuItem.type: "format" | "separator" | "custom" *)
Inductive ItemType := TFormat | TSeparator | TCustom.

Definition type_name (t : ItemType) : string :=
  match t with
  | TFormat => "format"
  | TSeparator => "separator"
  | TCustom => "custom"
  end.

Definition is_separator (t : ItemType) : bool :=
  match t with TSeparator => true | _ => false end.

(** IMenuItem.  [oid] is the identity of the item object: two entries of
    an item list are the same object exactly when their [oid]s agree.  The
    mutable field [element] of an item is kept in the menu state, keyed by
    [oid].  [callback] and [callbackTarget] are references to a function
    and to an object. *)
Record IMenuItem := mkItem {
  oid : ref;
  type : ItemType;
  format : option string;
  exportType : option string;
  label : option string;
  sublabel : option string;
  callback : option ref;
  callbackTarget : option ref
}.

(** What a click on a rendered anchor runs. *)
Inductive ClickListener :=
| NoListener
| ClickCallback (callback : ref) (target : option ref)
| ClickHandle (item : IMenuItem).

(** HTMLAnchorElement, as far as the menu writes it. *)
Record Anchor := mkAnchor {
  a_innerHTML : string;
  a_className : string;
  a_tabindex : option string;
  a_ariaLabel : option string;
  a_click : ClickListener;
  a_focusBlur : bool                 (* focus and blur listeners attached *)
}.

(** HTMLLIElement of [_itemElements]; [li_item] is the item the entry was
    rendered for (the item its listeners close over). *)
Record Li := mkLi {
  li_className : string;
  li_role : string;
  li_item : IMenuItem
}.

(** Exporting: the two capability lists the menu reads. *)
Record Exporting := mkExporting {
  supportedFormats : list string;
  supportedExportTypes : list string
}.

(** Root: [language.translate] and [tabindex.toString()]. *)
Record Root := mkRoot {
  translate : string -> string;
  tabindex : string
}.

(** IExportingMenuSettings; a field is [None] while the setting is unset. *)
Record Settings := mkSettings {
  align : option string;
  valign : option string;
  items : option (list IMenuItem);
  exporting : option Exporting;
  useDefaultCSS : option bool;
  autoClose : option bool;
  inactivateRoot : option bool
}.

(** Calls that leave the menu, in the order they are made. *)
Inductive Effect :=
| Dispatch (type : string)                 (* this.events.dispatch *)
| UtilsBlur                                (* $utils.blur() *)
| ExportingPrint                           (* exporting.print() *)
| ExportingDownload (format : option string)
| CallbackCall (callback : ref) (target : option ref)
| ElementFocus (item : ref)                (* item.element.focus() *)
| SetTimeout (item : ref) (delay : Z)
| LoadDefaultCSS
| CssDispose
| InteractionsEnabled (enabled : bool)
| AddDisposer.

Record Menu := mkMenu {
  _root : Root;
  _settings : Settings;
  keydownListener : bool;              (* the document keydown listener is registered *)
  _menuClassName : string;
  _iconClassName : string;
  _listClassName : string;
  _itemElements : list Li;
  element : gmap ref Anchor;           (* item.element, by item identity *)
  _activeItem : option IMenuItem;
  isOpen : bool;
  _isOver : bool;
  log : list Effect
}.

Definition set_settings (f : Settings -> Settings) (m : Menu) : Menu :=
  mkMenu (_root m) (f (_settings m)) (keydownListener m) (_menuClassName m)
         (_iconClassName m) (_listClassName m) (_itemElements m) (element m)
         (_activeItem m) (isOpen m) (_isOver m) (log m).

Definition set_classNames (menu icon list_ : string) (m : Menu) : Menu :=
  mkMenu (_root m) (_settings m) (keydownListener m) menu icon list_
         (_itemElements m) (element m) (_activeItem m) (isOpen m) (_isOver m) (log m).

Definition set_itemElements (f : list Li -> list Li) (m : Menu) : Menu :=
  mkMenu (_root m) (_settings m) (keydownListener m) (_menuClassName m)
         (_iconClassName m) (_listClassName m) (f (_itemElements m)) (element m)
         (_activeItem m) (isOpen m) (_isOver m) (log m).

Definition set_element (f : gmap ref Anchor -> gmap ref Anchor) (m : Menu) : Menu :=
  mkMenu (_root m) (_settings m) (keydownListener m) (_menuClassName m)
         (_iconClassName m) (_listClassName m) (_itemElements m) (f (element m))
         (_activeItem m) (isOpen m) (_isOver m) (log m).

Definition set_activeItem (a : option IMenuItem) (m : Menu) : Menu :=
  mkMenu (_root m) (_settings m) (keydownListener m) (_menuClassName m)
         (_iconClassName m) (_listClassName m) (_itemElements m) (element m)
         a (isOpen m) (_isOver m) (log m).

Definition set_isOpen (b : bool) (m : Menu) : Menu :=
  mkMenu (_root m) (_settings m) (keydownListener m) (_menuClassName m)
         (_iconClassName m) (_listClassName m) (_itemElements m) (element m)
         (_activeItem m) b (_isOver m) (log m).

Definition set_isOver (b : bool) (m : Menu) : Menu :=
  mkMenu (_root m) (_settings m) (keydownListener m) (_menuClassName m)
         (_iconClassName m) (_listClassName m) (_itemElements m) (element m)
         (_activeItem m) (isOpen m) b (log m).

Definition effect (e : Effect) (m : Menu) : Menu :=
  mkMenu (_root m) (_settings m) (keydownListener m) (_menuClassName m)
         (_iconClassName m) (_listClassName m) (_itemElements m) (element m)
         (_activeItem m) (isOpen m) (_isOver m) (log m ++ [e]).

(** ** JavaScript primitives *)

(** Truthiness of an optional string: unset and the empty string are falsy. *)
Definition truthy (o : option string) : bool :=
  match o with
  | Some s => negb (String.eqb s EmptyString)
  | None => false
  end.

(** Array.prototype.indexOf, with the equality of the element type. *)
Fixpoint indexOf {A} (eqb : A -> A -> bool) (xs : list A) (x : A) : Z :=
  match xs with
  | [] => -1
  | y :: ys =>
      if eqb y x then 0
      else let i := indexOf eqb ys x in if i =? -1 then -1 else i + 1
  end.

(** Strict equality of two item objects. *)
Definition same_item (a b : IMenuItem) : bool := Nat.eqb (oid a) (oid b).

(** [items.indexOf(this._activeItem)]; no entry of an item list is
    [undefined]. *)
Definition indexOf_item (xs : list IMenuItem) (a : option IMenuItem) : Z :=
  match a with
  | Some a => indexOf same_item xs a
  | None => -1
  end.

(** [xs[i]]: [undefined] outside the array. *)
Definition at_index {A} (xs : list A) (i : Z) : option A :=
  if i <? 0 then None else xs !! Z.to_nat i.

(** [supported.indexOf(x) == -1] for an optional string that is truthy. *)
Definition unsupported (supported : list string) (x : option string) : bool :=
  match x with
  | Some s => indexOf String.eqb supported s =? -1
  | None => true
  end.

(** ** Outcomes

    A handler ends normally, throws a TypeError (a property of [undefined]
    is read or written), or does not end.  State changes made before a
    throw stay. *)
Inductive Outcome := Done | TypeError | Diverges.

Definition M := Menu -> Menu * Outcome.

Definition ret : M := λ m, (m, Done).
Definition throw : M := λ m, (m, TypeError).
Definition lift (f : Menu -> Menu) : M := λ m, (f m, Done).
Definition seq (a b : M) : M :=
  λ m, match a m with
       | (m', Done) => b m'
       | r => r
       end.

Notation "a >> b" := (seq a b) (at level 60, right associativity).

(** ** Settings *)

Definition get_items (m : Menu) : list IMenuItem := default [] (items (_settings m)).

(** The default item list of [_afterNew]; the twelve literals are new
    objects. *)
Definition defaultItems (r : Root) : list IMenuItem :=
  [ mkItem 0 TSeparator None None (Some (translate r "Export")) None None None;
    mkItem 1 TFormat (Some "png") (Some "image") (Some (translate r "PNG")) (Some (translate r "Image")) None None;
    mkItem 2 TFormat (Some "jpg") (Some "image") (Some (translate r "JPG")) (Some (translate r "Image")) None None;
    mkItem 3 TFormat (Some "pdf") (Some "image") (Some (translate r "PDF")) (Some (translate r "Image")) None None;
    mkItem 4 TSeparator None (Some "data") None None None None;
    mkItem 5 TFormat (Some "json") (Some "data") (Some (translate r "JSON")) (Some (translate r "Data")) None None;
    mkItem 6 TFormat (Some "csv") (Some "data") (Some (translate r "CSV")) (Some (translate r "Data")) None None;
    mkItem 7 TFormat (Some "xlsx") (Some "data") (Some (translate r "XLSX")) (Some (translate r "Data")) None None;
    mkItem 8 TFormat (Some "pdfdata") (Some "data") (Some (translate r "PDF")) (Some (translate r "Data")) None None;
    mkItem 9 TFormat (Some "html") (Some "data") (Some (translate r "HTML")) (Some (translate r "Data")) None None;
    mkItem 10 TSeparator None None None None None None;
    mkItem 11 TFormat (Some "print") (Some "print") (Some (translate r "Print")) None None None ]%nat.

(** Modelled from the spec: [_setRawDefault(key, value)] gives a setting its
    default when it is not configured ("default on", "used when none is
    configured"). *)
Definition setRawDefault {A} (cur : option A) (dflt : A) : option A :=
  match cur with
  | Some v => Some v
  | None => Some dflt
  end.

Definition setRawDefaults (r : Root) (s : Settings) : Settings :=
  mkSettings (setRawDefault (align s) "right")
             (setRawDefault (valign s) "top")
             (setRawDefault (items s) (defaultItems r))
             (exporting s)
             (setRawDefault (useDefaultCSS s) true)
             (setRawDefault (autoClose s) true)
             (setRawDefault (inactivateRoot s) true).

(** ** Methods *)

(** _applyClassNames *)
Definition _applyClassNames (m : Menu) : Menu :=
  let align := default "right" (align (_settings m)) in
  let valign := default "top" (valign (_settings m)) in
  let status := if isOpen m then "am5exporting-menu-open" else "am5exporting-menu-closed" in
  set_classNames
    ("am5exporting am5exporting-menu am5exporting-align-" +:+ align +:+
       " am5exporting-valign-" +:+ valign +:+ " " +:+ status)
    ("am5exporting am5exporting-icon am5exporting-align-" +:+ align +:+
       " am5exporting-valign-" +:+ valign)
    ("am5exporting am5exporting-list am5exporting-align-" +:+ align +:+
       " am5exporting-valign-" +:+ valign)
    m.

(** open *)
Definition open (m : Menu) : Menu :=
  effect (Dispatch "menuopened") (_applyClassNames (set_isOpen true m)).

(** close *)
Definition close (m : Menu) : Menu :=
  effect (Dispatch "menuclosed")
         (_applyClassNames (effect UtilsBlur (set_isOpen false m))).

(** toggle *)
Definition toggle (m : Menu) : Menu :=
  if isOpen m then close m else open m.

(** loadDefaultCSS *)
Definition loadDefaultCSS (m : Menu) : Menu := effect LoadDefaultCSS m.

(** The list entry that [createItems] builds for one item. *)
Definition renderLi (item : IMenuItem) : Li :=
  let className :=
    "am5exporting am5exporting-item am5exporting-type-" +:+ type_name (type item) in
  let className :=
    if truthy (format item)
    then className +:+ " am5exporting-format-" +:+ default EmptyString (format item)
    else className in
  mkLi className "menuitem" item.

(** The anchor that [createItems] builds for one item. *)
Definition renderAnchor (r : Root) (item : IMenuItem) : Anchor :=
  let ariaLabel := translate r "Export" in
  let innerHTML := EmptyString in
  let innerHTML1 :=
    if truthy (label item) then default EmptyString (label item) else innerHTML in
  let ariaLabel1 :=
    if truthy (label item)
    then ariaLabel +:+ " " +:+ default EmptyString (label item) else ariaLabel in
  let innerHTML2 :=
    if truthy (sublabel item)
    then innerHTML1 +:+ " <span class=" +:+ dquote +:+ "am5exporting-label-alt" +:+ dquote
           +:+ ">" +:+ default EmptyString (sublabel item) +:+ "</span>"
    else innerHTML1 in
  let ariaLabel2 :=
    if truthy (sublabel item)
    then ariaLabel1 +:+ " (" +:+ default EmptyString (sublabel item) +:+ ")"
    else ariaLabel1 in
  match callback item with
  | Some cb =>
      mkAnchor innerHTML2 EmptyString (Some (tabindex r)) None
               (ClickCallback cb (callbackTarget item)) false
  | None =>
      if truthy (format item)
      then mkAnchor innerHTML2 EmptyString (Some (tabindex r)) (Some ariaLabel2)
                    (ClickHandle item) true
      else mkAnchor innerHTML2 EmptyString None None NoListener false
  end.

Definition renderItem (r : Root) (item : IMenuItem) : Li * Anchor :=
  (renderLi item, renderAnchor r item).

(** The capability filter of [createItems]: the two early returns of the
    loop body. *)
Definition skipped (e : Exporting) (item : IMenuItem) : bool :=
  (truthy (format item) && unsupported (supportedFormats e) (format item))
  || (truthy (exportType item) && unsupported (supportedExportTypes e) (exportType item)).

(** The loop of [createItems] over the items: [$array.each(items, ...)]. *)
Definition createItems_loop (e : Exporting) (m : Menu) (xs : list IMenuItem) : Menu :=
  foldl (λ m item,
           if skipped e item then m
           else
             let '(li, a) := renderItem (_root m) item in
             let m := set_element (insert (oid item) a) m in
             set_itemElements (λ ls, ls ++ [li]) m)
        m xs.

(** createItems.  The children of the list element are the entries of
    [_itemElements]: both are emptied and filled together. *)
Definition createItems (m : Menu) : Menu :=
  match exporting (_settings m) with
  | None => m
  | Some e =>
      let m := set_itemElements (λ _, []) m in
      createItems_loop e m (get_items m)
  end.

(** A call of a method of [this.get("exporting")!]. *)
Definition exporting_call (e : Effect) : M :=
  λ m, match exporting (_settings m) with
       | Some _ => (effect e m, Done)
       | None => (m, TypeError)
       end.

Definition is_print (f : option string) : bool :=
  match f with
  | Some f => String.eqb f "print"
  | None => false
  end.

(** _handleClick *)
Definition _handleClick (item : IMenuItem) : M :=
  (λ m, if default false (autoClose (_settings m)) then lift close m else ret m) >>
  (if is_print (format item)
   then exporting_call ExportingPrint
   else exporting_call (ExportingDownload (format item))).

Definition with_className (c : string) (a : Anchor) : Anchor :=
  mkAnchor (a_innerHTML a) c (a_tabindex a) (a_ariaLabel a) (a_click a) (a_focusBlur a).

(** [item.element!.className = c] *)
Definition set_className (item : IMenuItem) (c : string) : M :=
  λ m, match element m !! oid item with
       | Some a => (set_element (insert (oid item) (with_className c a)) m, Done)
       | None => (m, TypeError)
       end.

(** [item.element!.focus()] *)
Definition element_focus (item : IMenuItem) : M :=
  λ m, match element m !! oid item with
       | Some _ => (effect (ElementFocus (oid item)) m, Done)
       | None => (m, TypeError)
       end.

Definition is_active (item : IMenuItem) (m : Menu) : bool :=
  match _activeItem m with
  | Some a => same_item item a
  | None => false
  end.

(** _handleItemFocus *)
Definition _handleItemFocus (item : IMenuItem) : M :=
  λ m, if negb (is_active item m)
       then ((match _activeItem m with
              | Some a => set_className a EmptyString
              | None => ret
              end) >>
             lift (set_activeItem (Some item)) >>
             set_className item "am5exporting-item-active" >>
             element_focus item) m
       else ret m.

(** _handleItemBlur; the deferred callback is [blurTimeout]. *)
Definition _handleItemBlur (item : IMenuItem) : M :=
  set_className item EmptyString >>
  (λ m, if is_active item m then lift (set_activeItem None) m else ret m) >>
  lift (effect (SetTimeout (oid item) 10)).

(** The callback of [_handleItemBlur]; [focusInside] tells whether
    [document.activeElement] exists and lies inside the container. *)
Definition blurTimeout (focusInside : bool) (m : Menu) : Menu :=
  if negb focusInside then close m else m.

(** ** The keydown listener *)

Inductive Search :=
| Found (newIndex : Z) (newItem : IMenuItem)
| SearchTypeError
| SearchDiverges.

(** The two wrap-around assignments at the head of the loop body. *)
Definition clamp (items : list IMenuItem) (newIndex : Z) : Z :=
  if newIndex <? 0 then Z.of_nat (length items) - 1
  else if newIndex >? Z.of_nat (length items) - 1 then 0
  else newIndex.

(** The do-while loop of the arrow keys.  One unit of fuel pays for one
    run of the loop body; [SearchDiverges] reports that the fuel ran out. *)
Fixpoint search (fuel : nat) (items : list IMenuItem) (dir newIndex : Z) : Search :=
  match fuel with
  | O => SearchDiverges
  | S fuel =>
      let newIndex := clamp items newIndex in
      match at_index items newIndex with
      | None => SearchTypeError
      | Some item =>
          if is_separator (type item)
          then search fuel items dir (newIndex + dir)
          else Found newIndex item
      end
  end.

(** The index the search starts from. *)
Definition startIndex (m : Menu) (keyCode : Z) : Z :=
  let items := get_items m in
  let currentIndex := indexOf_item items (_activeItem m) in
  let currentIndex :=
    if bool_decide (valign (_settings m) = Some "top") && (currentIndex =? -1)
    then Z.of_nat (length items)
    else currentIndex in
  let dir := if keyCode =? 38 then -1 else 1 in
  currentIndex + dir.

(** The listener; [iconFocused] is [document.activeElement == this._iconElement]. *)
Definition keydown (fuel : nat) (iconFocused : bool) (keyCode : Z) : M :=
  λ m,
    if keydownListener m && (iconFocused || isOpen m) then
      if keyCode =? 27 then lift close m
      else if keyCode =? 13 then
        match _activeItem m with
        | Some a => _handleClick a m
        | None => lift toggle m
        end
      else if (keyCode =? 38) || (keyCode =? 40) then
        let dir := if keyCode =? 38 then -1 else 1 in
        match search fuel (get_items m) dir (startIndex m keyCode) with
        | Found _ newItem => _handleItemFocus newItem m
        | SearchTypeError => throw m
        | SearchDiverges => (m, Diverges)
        end
      else ret m
    else ret m.

(** ** The other listeners *)

(** A click on the anchor currently recorded for an item. *)
Definition anchorClick (item : IMenuItem) : M :=
  λ m, match element m !! oid item with
       | Some a =>
           match a_click a with
           | ClickCallback cb target => lift (effect (CallbackCall cb target)) m
           | ClickHandle it => _handleClick it m
           | NoListener => ret m
           end
       | None => ret m
       end.

(** The focus and blur events of that anchor. *)
Definition anchorFocus (item : IMenuItem) : M :=
  λ m, match element m !! oid item with
       | Some a => if a_focusBlur a then _handleItemFocus item m else ret m
       | None => ret m
       end.

Definition anchorBlur (item : IMenuItem) : M :=
  λ m, match element m !! oid item with
       | Some a => if a_focusBlur a then _handleItemBlur item m else ret m
       | None => ret m
       end.

Definition iconClick (m : Menu) : Menu := toggle m.

Definition pointerover (m : Menu) : Menu :=
  let m := set_isOver true m in
  if default false (inactivateRoot (_settings m))
  then effect (InteractionsEnabled false) m else m.

Definition pointerout (m : Menu) : Menu :=
  let m := set_isOver false m in
  if default false (inactivateRoot (_settings m))
  then effect (InteractionsEnabled true) m else m.

Definition documentClick (m : Menu) : Menu :=
  if negb (_isOver m) then close m else m.

(** ** Construction and change handling *)

(** _afterNew; [keyboardevents] is [$utils.supports("keyboardevents")].
    The call [super._afterNew()] runs code of Entity, outside this file, and
    is left out, as are the DOM nodes the method creates, which the menu
    keeps for its whole life. *)
Definition _afterNew (keyboardevents : bool) (m : Menu) : Menu :=
  let m := set_settings (setRawDefaults (_root m)) m in
  let m := _applyClassNames m in
  let m := mkMenu (_root m) (_settings m) keyboardevents (_menuClassName m)
                  (_iconClassName m) (_listClassName m) (_itemElements m) (element m)
                  (_activeItem m) (isOpen m) (_isOver m) (log m) in
  let m := loadDefaultCSS m in
  let m := effect AddDisposer m in
  effect (Dispatch "menucreated") m.

(** ExportingMenu.new: the field initialisers, then [_afterNew]. *)
Definition new_ (r : Root) (s : Settings) (keyboardevents : bool) : Menu :=
  _afterNew keyboardevents
    (mkMenu r s false EmptyString EmptyString EmptyString [] ∅ None false false []).

(** [this._cssDisposer] is assigned by [loadDefaultCSS] and by nothing
    else: it is set once the log holds a call of [loadDefaultCSS]. *)
Definition _cssDisposer (m : Menu) : bool :=
  existsb (λ e, match e with LoadDefaultCSS => true | _ => false end) (log m).

(** _beforeChanged; [dirty] lists the settings that are dirty.  The call
    [super._beforeChanged()] and the re-parenting into a new container are
    left out. *)
Definition _beforeChanged (dirty : list string) (m : Menu) : Menu :=
  let isDirty k := bool_decide (k ∈ dirty) in
  let m := if (length (_itemElements m) =? 0)%nat then createItems m else m in
  let m :=
    if isDirty "useDefaultCSS"
    then if default false (useDefaultCSS (_settings m))
         then loadDefaultCSS m
         else if _cssDisposer m then effect CssDispose m else m
    else m in
  let m :=
    if isDirty "exporting"
    then match exporting (_settings m) with
         | Some _ => createItems m
         | None => m
         end
    else m in
  if isDirty "align" || isDirty "valign" then _applyClassNames m else m.

(** ** Events

    What can happen to a menu after its construction: the listeners that
    [_afterNew] and [createItems] register, the deferred callback of
    [_handleItemBlur], the public methods, a change of the settings, and
    the change handling of the framework.  A listener that throws ends
    that event only; the next event finds the state it left. *)
Inductive Event :=
| KeyDown (iconFocused : bool) (keyCode : Z)
| IconClick
| PointerOver
| PointerOut
| DocumentClick
| AnchorClick (item : IMenuItem)
| AnchorFocus (item : IMenuItem)
| AnchorBlur (item : IMenuItem)
| BlurTimeout (focusInside : bool)
| CallOpen
| CallClose
| CallToggle
| CallCreateItems
| SetAll (s : Settings)
| BeforeChanged (dirty : list string).

Definition handle (fuel : nat) (ev : Event) (m : Menu) : Menu :=
  match ev with
  | KeyDown iconFocused keyCode => fst (keydown fuel iconFocused keyCode m)
  | IconClick => iconClick m
  | PointerOver => pointerover m
  | PointerOut => pointerout m
  | DocumentClick => documentClick m
  | AnchorClick item => fst (anchorClick item m)
  | AnchorFocus item => fst (anchorFocus item m)
  | AnchorBlur item => fst (anchorBlur item m)
  | BlurTimeout focusInside => blurTimeout focusInside m
  | CallOpen => open m
  | CallClose => close m
  | CallToggle => toggle m
  | CallCreateItems => createItems m
  | SetAll s => set_settings (λ _, s) m
  | BeforeChanged dirty => _beforeChanged dirty m
  end.

Definition handleAll (fuel : nat) (evs : list Event) (m : Menu) : Menu :=
  foldl (λ m ev, handle fuel ev m) m evs.

(** ** The wording of the specification *)

(** "skip it if it specifies a format not in the exporter's supported-format
    set, or an export type not in the exporter's supported-type set" *)
Definition spec_rendered (e : Exporting) (item : IMenuItem) : bool :=
  match format item with
  | Some f => bool_decide (f ∈ supportedFormats e)
  | None => true
  end &&
  match exportType item with
  | Some t => bool_decide (t ∈ supportedExportTypes e)
  | None => true
  end.

(** The items of a configuration are well typed: a format or export type
    that is present is one of the non-empty identifiers of
    ExportingFormats and ExportingTypes. *)
Definition well_typed (item : IMenuItem) : Prop :=
  format item ≠ Some EmptyString ∧ exportType item ≠ Some EmptyString.

(** An interactive item is one that is not a separator. *)
Definition interactive (item : IMenuItem) : bool := negb (is_separator (type item)).

(** How often an event of the given type was dispatched. *)
Definition dispatched (type : string) (l : list Effect) : nat :=
  length (List.filter (λ e, match e with
                            | Dispatch t => String.eqb t type
                            | _ => false
                            end) l).

(** The labels of the rendered entries of type "format". *)
Definition formatLabels (m : Menu) : list string :=
  omap (λ li, match type (li_item li) with
              | TFormat => label (li_item li)
              | _ => None
              end) (_itemElements m).

(** A run of key presses.  A listener that throws ends that event only;
    the next event finds the state the listener left. *)
Definition press (fuel : nat) (iconFocused : bool) (keys : list Z) (m : Menu) : Menu :=
  foldl (λ m k, fst (keydown fuel iconFocused k m)) m keys.

(** The position of the active item in the item list, if it is there. *)
Definition currentPos (m : Menu) : option nat :=
  let i := indexOf_item (get_items m) (_activeItem m) in
  if i =? -1 then None else Some (Z.to_nat i).

(** "the previous/next interactive item, treating the list as circular and
    skipping separators": the first interactive item after the position,
    or else the first of the list; the last one before the position, or
    else the last of the list.  Without a position, the first and the last
    of the list. *)
Definition first_interactive (xs : list IMenuItem) : option (nat * IMenuItem) :=
  list_find (λ x, interactive x) xs.

Definition last_interactive (xs : list IMenuItem) : option (nat * IMenuItem) :=
  prod_map (λ k, length xs - 1 - k)%nat id <$> list_find (λ x, interactive x) (reverse xs).

Definition next_interactive (xs : list IMenuItem) (cur : option nat)
    : option (nat * IMenuItem) :=
  match cur with
  | Some p =>
      match list_find (λ x, interactive x) (drop (S p) xs) with
      | Some (k, y) => Some (S p + k, y)%nat
      | None => first_interactive xs
      end
  | None => first_interactive xs
  end.

Definition prev_interactive (xs : list IMenuItem) (cur : option nat)
    : option (nat * IMenuItem) :=
  match cur with
  | Some p =>
      match list_find (λ x, interactive x) (reverse (take p xs)) with
      | Some (k, y) => Some (p - 1 - k, y)%nat
      | None => last_interactive xs
      end
  | None => last_interactive xs
  end.

(** The interactive items of a list, in the order of the list. *)
Definition interactiveItems (xs : list IMenuItem) : list IMenuItem :=
  List.filter interactive xs.

(** Entries with the same identity are the same object. *)
Definition objects_ok (xs : list IMenuItem) : Prop :=
  ∀ x y, x ∈ xs -> y ∈ xs -> oid x = oid y -> x = y.

(** The item has a rendered element. *)
Definition has_element (m : Menu) (item : IMenuItem) : Prop :=
  is_Some (element m !! oid item).

(** What key presses leave alone: the settings, the listener, the open
    state, and which items have an element. *)
Definition same_frame (m m' : Menu) : Prop :=
  _settings m' = _settings m ∧ keydownListener m' = keydownListener m ∧
  isOpen m' = isOpen m ∧ _itemElements m' = _itemElements m ∧
  ∀ o, is_Some (element m' !! o) ↔ is_Some (element m !! o).

(** ** Menu states and logs *)

(** At most one anchor is highlighted, and it is the active item's. *)
Definition highlight_ok (m : Menu) : Prop :=
  ∀ o a, element m !! o = Some a -> a_className a = "am5exporting-item-active" ->
         oid <$> _activeItem m = Some o.

(** The open state that the dispatched events tell: that of the last
    "menuopened" or "menuclosed", and closed before the first. *)
Definition announcedOpen (l : list Effect) : bool :=
  foldl (λ b e, match e with
                | Dispatch t =>
                    if String.eqb t "menuopened" then true
                    else if String.eqb t "menuclosed" then false else b
                | _ => b
                end) false l.

(** [this._root._renderer.interactionsEnabled], as the pointer listeners of
    the menu leave it: the value last assigned, and [true] before the first
    assignment. *)
Definition interactionsEnabled (l : list Effect) : bool :=
  foldl (λ b e, match e with InteractionsEnabled v => v | _ => b end) true l.

(** The class name of the menu element for an alignment and an open
    state. *)
Definition menuClassName (align valign : string) (isOpen : bool) : string :=
  "am5exporting am5exporting-menu am5exporting-align-" +:+ align +:+
    " am5exporting-valign-" +:+ valign +:+ " " +:+
    (if isOpen then "am5exporting-menu-open" else "am5exporting-menu-closed").

(** The exporter call that [_handleClick] makes for an item. *)
Definition exportCall (item : IMenuItem) : Effect :=
  if is_print (format item) then ExportingPrint else ExportingDownload (format item).

(** The events that can act: Enter and a click on an anchor. *)
Definition acts (ev : Event) : bool :=
  match ev with
  | KeyDown _ keyCode => keyCode =? 13
  | AnchorClick _ => true
  | _ => false
  end.

(** The actions among the logged calls: the calls of the exporter and of
    the callbacks of custom items. *)
Definition actions (l : list Effect) : list Effect :=
  List.filter (λ e, match e with
                    | ExportingPrint | ExportingDownload _ | CallbackCall _ _ => true
                    | _ => false
                    end) l.

(** ** Example menus *)

Definition exampleRoot : Root := mkRoot (λ s, s) "0".

Definition noSettings : Settings := mkSettings None None None None None None None.

Definition exampleExporting : Exporting :=
  mkExporting ["png"; "csv"] ["image"; "data"].

(** A new menu with the default items and an exporter of PNG and CSV. *)
Definition exampleNewMenu : Menu :=
  new_ exampleRoot (mkSettings None None None (Some exampleExporting) None None None) true.

(** The same menu, built and opened. *)
Definition exampleMenu : Menu := open (createItems exampleNewMenu).

(** An exporter of every format of the default items. *)
Definition fullExporting : Exporting :=
  mkExporting ["png"; "jpg"; "pdf"; "json"; "csv"; "xlsx"; "pdfdata"; "html"; "print"]
              ["image"; "data"; "print"].

(** The default items, all rendered, in an open menu. *)
Definition fullMenu : Menu :=
  open (createItems
          (new_ exampleRoot
                (mkSettings None None None (Some fullExporting) None None None) true)).

(** A menu whose item list holds one item object twice. *)
Definition duplicateMenu : Menu :=
  let png := mkItem 1%nat TFormat (Some "png") (Some "image") (Some "PNG") None None None in
  let jpg := mkItem 2%nat TFormat (Some "jpg") (Some "image") (Some "JPG") None None None in
  let pdf := mkItem 3%nat TFormat (Some "pdf") (Some "image") (Some "PDF") None None None in
  open (createItems
          (new_ exampleRoot
                (mkSettings None None (Some [png; jpg; png; pdf]) (Some fullExporting)
                            None None None) true)).

(** A menu whose only item is a separator. *)
Definition separatorMenu : Menu :=
  open (new_ exampleRoot
             (mkSettings None None
                         (Some [mkItem 0%nat TSeparator None None None None None None])
                         None None None None) true).

(** A custom item with a callback, and a new menu that lists it before a
    PNG item. *)
Definition customItem : IMenuItem :=
  mkItem 20%nat TCustom None None (Some "Share") None (Some 7%nat) None.

Definition customNewMenu : Menu :=
  new_ exampleRoot
       (mkSettings None None
          (Some [customItem;
                 mkItem 1%nat TFormat (Some "png") (Some "image") (Some "PNG") None None None])
          (Some exampleExporting) None None None) true.

(** A menu configured with an empty item list. *)
Definition emptyMenu : Menu :=
  open (new_ exampleRoot (mkSettings None None (Some []) (Some exampleExporting)
                                     None None None) true).

End ExportingMenu.


(* ===================================================================== *)
(** * The chart script *)
(* ===================================================================== *)

Module ChartScript.

Section Script.

(** The script computes with JavaScript numbers.  Their operations, and
    [am5.time.add(date, "day", 1)] on the time value of the date, are left
    abstract; [Math.random()] draws from a sequence of numbers. *)
Context {number : Type}.
Context (round : number -> number) (add sub mul : number -> number -> number).
Context (ten five : number).
Context (add_day : number -> number).

(** The variables of the script that [generateData] reads and writes: the
    time value of [date], [value], and the random numbers to come with the
    count of those drawn. *)
Record Globals := mkGlobals {
  date : number;
  value : number;
  random : nat -> number;
  drawn : nat
}.

(** { date: ..., value: ... } *)
Record DataPoint := mkDataPoint {
  dp_date : number;
  dp_value : number
}.

(** generateData *)
Definition generateData (g : Globals) : DataPoint * Globals :=
  let r := random g (drawn g) in
  let value := round (add (sub (mul r ten) five) (value g)) in
  let date := add_day (date g) in
  (mkDataPoint date value, mkGlobals date value (random g) (S (drawn g))).

(** The loop of [generateDatas], for the runs of its body that are left. *)
Fixpoint generateDatas_loop (n : nat) (data : list DataPoint) (g : Globals)
    : list DataPoint * Globals :=
  match n with
  | O => (data, g)
  | S n => generateDatas_loop n (data ++ [fst (generateData g)]) (snd (generateData g))
  end.

(** generateDatas; for an integer [count] the body runs [count] times, and
    not at all when [count] is not positive. *)
Definition generateDatas (count : Z) (g : Globals) : list DataPoint * Globals :=
  generateDatas_loop (Z.to_nat count) [] g.

End Script.

(** The script at its start, with integers for numbers: the date at
    midnight, the value 100, a day of 86400000 milliseconds, and random
    numbers that are all 0. *)
Definition exampleGlobals : @Globals Z := mkGlobals 1623456000000%Z 100%Z (λ _, 0%Z) 0.

Definition exampleDay (t : Z) : Z := (t + 86400000)%Z.

End ChartScript.

(* ===================================================================== *)
(** * Properties of MapLineSeries *)
(* ===================================================================== *)

Module MapLineSeriesFacts.

Import MapLineSeries.

Section Facts.

Context {number : Type} (zero : number).

Local Abbreviation Series := (@Series number).
Local Abbreviation DataItem := (@DataItem number).
Local Abbreviation MapLine := (@MapLine number).

(** ** Recomputing the geometry *)

Lemma foldl_snoc_map {A B} (f : A -> B) (xs : list A) (acc : list B) :
  foldl (λ cs p, cs ++ [f p]) acc xs = acc ++ map f xs.
Proof.
  revert acc. induction xs as [|x xs IH]; intros acc; simpl.
  - by rewrite app_nil_r.
  - rewrite IH. by rewrite <- app_assoc.
Qed.

Lemma di_get_call {A} (field : DataItem -> option A) d c (s : Series) :
  di_get field d (call c s) = di_get field d s.
Proof. reflexivity. Qed.

(** C1. Recomputing the values of a data item that has a map line assigns
    the line's geometry: with [pointsToConnect] set, the LineString of the
    pairs [longitude, latitude] of the connected points, in the order of the
    point list, with 0 for a coordinate a point does not have; without it,
    the geometry field of the data item itself.  No other line changes. *)
Theorem markDirtyValues_geometry (s : Series) (d l : ref) (di : DataItem) (m : MapLine) :
  dataItemStore s !! d = Some di ->
  mapLine di = Some l ->
  lineStore s !! l = Some m ->
  let s' := _markDirtyValues zero (Some d) s in
  ml_geometry <$> lineStore s' !! l =
    Some (match pointsToConnect di with
          | Some pts =>
              Some (LineString
                      (map (λ p, [default zero (pointStore s !! p ≫= longitude);
                                  default zero (pointStore s !! p ≫= latitude)]) pts))
          | None => geometry di
          end) ∧
  ∀ l', l' ≠ l -> lineStore s' !! l' = lineStore s !! l'.
Proof.
  intros Hd Hl Hm. unfold _markDirtyValues. cbn zeta.
  set (s1 := if default false (dirtyValue <$> dataItemStore s !! d)
             then call SuperMarkDirtyValues s else s).
  assert (Hds : dataItemStore s1 = dataItemStore s) by (subst s1; by destruct (default _ _)).
  assert (Hps : pointStore s1 = pointStore s) by (subst s1; by destruct (default _ _)).
  assert (Hls : lineStore s1 = lineStore s) by (subst s1; by destruct (default _ _)).
  unfold di_get. rewrite Hds, Hd. simpl. rewrite Hl.
  destruct (pointsToConnect di) as [pts|]; simpl; rewrite Hls.
  - split.
    + rewrite lookup_alter_eq, Hm. simpl. do 3 f_equal.
      rewrite foldl_snoc_map. simpl. unfold coordinate, point_get. by rewrite Hps.
    + intros l' Hne. by rewrite lookup_alter_ne.
  - split.
    + by rewrite lookup_alter_eq, Hm.
    + intros l' Hne. by rewrite lookup_alter_ne.
Qed.

(** ** Projection changes *)

Lemma markDirtyProjection_fold (ds : list ref) (s : Series) :
  let lines := omap (λ d, di_get mapLine d s) ds in
  let s' := foldl (λ s d,
                     match di_get mapLine d s with
                     | Some l => call (LineMarkDirtyProjection l)
                                      (set_lineStore (alter line_markDirtyProjection l) s)
                     | None => s
                     end) s ds in
  calls s' = calls s ++ map LineMarkDirtyProjection lines ∧
  (∀ l, lineStore s' !! l =
        if bool_decide (l ∈ lines)
        then line_markDirtyProjection <$> lineStore s !! l
        else lineStore s !! l) ∧
  dataItemStore s' = dataItemStore s ∧
  pointStore s' = pointStore s ∧
  dataItems s' = dataItems s ∧
  children s' = children s ∧
  mapLines s' = mapLines s ∧
  listeners s' = listeners s.
Proof.
  revert s. induction ds as [|d ds IH]; intros s; cbn zeta.
  - simpl. rewrite app_nil_r. split_and!; try done.
  - cbn [foldl omap list_omap].
    destruct (di_get mapLine d s) as [l0|] eqn:Hd; cbn zeta in IH.
    + set (s1 := call (LineMarkDirtyProjection l0)
                      (set_lineStore (alter line_markDirtyProjection l0) s)).
      specialize (IH s1).
      assert (Heq : ∀ d', di_get mapLine d' s1 = di_get mapLine d' s) by done.
      rewrite (list_omap_ext _ (λ d, di_get mapLine d s) ds ds) in IH
        by (apply Forall2_same_length_lookup_2; [done|]; intros ???? ; naive_solver).
      destruct IH as (Hc & Hl & Hrest).
      split_and!; try (destruct Hrest as (?&?&?&?&?&?); done).
      * rewrite Hc. simpl. by rewrite <- app_assoc.
      * intros l. rewrite Hl. simpl.
        destruct (decide (l = l0)) as [->|Hne].
        -- rewrite lookup_alter_eq.
           rewrite (bool_decide_eq_true_2 (l0 ∈ l0 :: _)) by set_solver.
           case_bool_decide; [|done].
           destruct (lineStore s !! l0); done.
        -- rewrite lookup_alter_ne by done.
           case_bool_decide; case_bool_decide; set_solver.
    + apply (IH s).
Qed.

(** C9. [markDirtyProjection] calls the operation of the same name on the
    map line of every data item that has one, in the order of the data
    items; no line's geometry changes, and nothing else of the series does:
    a line that is reached only has its projection flag raised. *)
Theorem markDirtyProjection_frame (s : Series) :
  let lines := omap (λ d, di_get mapLine d s) (dataItems s) in
  let s' := markDirtyProjection s in
  calls s' = calls s ++ map LineMarkDirtyProjection lines ∧
  (∀ l, ml_geometry <$> lineStore s' !! l = ml_geometry <$> lineStore s !! l) ∧
  (∀ l, lineStore s' !! l =
        if bool_decide (l ∈ lines)
        then line_markDirtyProjection <$> lineStore s !! l
        else lineStore s !! l) ∧
  dataItemStore s' = dataItemStore s ∧
  pointStore s' = pointStore s ∧
  dataItems s' = dataItems s ∧
  children s' = children s ∧
  mapLines s' = mapLines s ∧
  listeners s' = listeners s.
Proof.
  cbn zeta. unfold markDirtyProjection.
  destruct (markDirtyProjection_fold (dataItems s) s) as (Hc & Hl & ? & ? & ? & ? & ? & ?).
  split_and!; try done.
  intros l. rewrite Hl. case_bool_decide; [|done].
  by destruct (lineStore s !! l).
Qed.

(** ** Processing and disposing data items *)

Lemma listeners_fold_stores (d : ref) (pts : list ref) (s : Series) :
  let s' := foldl (λ s p,
                     set_listeners (λ ls, ls ++ [(p, "longitude", d);
                                                 (p, "latitude", d);
                                                 (p, "geometry", d)]) s) s pts in
  dataItemStore s' = dataItemStore s ∧ lineStore s' = lineStore s ∧
  mapLines s' = mapLines s ∧ children s' = children s ∧ calls s' = calls s ∧
  pointStore s' = pointStore s ∧ dataItems s' = dataItems s.
Proof.
  revert s. induction pts as [|p pts IH]; intros s; cbn zeta; [done|].
  cbn [foldl]. apply (IH (set_listeners _ s)).
Qed.

Lemma processDataItem_fields (d : ref) (s : Series) :
  let l := fresh (dom (lineStore s)) in
  let s' := processDataItem d s in
  dataItemStore s' = alter (di_set_mapLine l) d (dataItemStore s) ∧
  lineStore s' = <[l := mkMapLine None (Some d) true false false]> (lineStore s) ∧
  mapLines s' = mapLines s ++ [l] ∧
  children s' = children s ++ [l] ∧
  calls s' = calls s ++ [SuperProcessDataItem d].
Proof.
  cbn zeta. unfold processDataItem, makeMapLine. cbn zeta.
  set (l := fresh (dom (lineStore (call (SuperProcessDataItem d) s)))).
  match goal with
  | |- context [set_lineStore _ (match ?c with Some pts => foldl ?f ?a pts | None => ?a' end)] =>
      assert (Hst : let s' := match c with Some pts => foldl f a pts | None => a' end in
                    dataItemStore s' = dataItemStore a ∧ lineStore s' = lineStore a ∧
                    mapLines s' = mapLines a ∧ children s' = children a ∧
                    calls s' = calls a);
      [ destruct c as [pts|]; cbn zeta; [|done];
        destruct (listeners_fold_stores d pts a) as (?&?&?&?&?&?&?); done
      | cbn zeta in Hst; destruct Hst as (H1 & H2 & H3 & H4 & H5) ]
  end.
  simpl. rewrite H1, H2, H3, H4, H5. simpl.
  split_and!; try done.
  apply map_eq. intros i. destruct (decide (i = l)) as [->|Hne].
  - by rewrite !lookup_alter_eq, !lookup_insert_eq.
  - by rewrite !lookup_alter_ne, !lookup_insert_ne.
Qed.

Lemma disposeDataItem_fields (d l : ref) (s : Series) :
  di_get mapLine d s = Some l ->
  let s' := disposeDataItem d s in
  dataItemStore s' = dataItemStore s ∧
  lineStore s' = alter line_dispose l (lineStore s) ∧
  mapLines s' = removeValue l (mapLines s) ∧
  calls s' = calls s ++ [SuperDisposeDataItem d; LineDispose l].
Proof.
  intros Hl. cbn zeta. unfold disposeDataItem. cbn zeta.
  rewrite di_get_call, Hl. simpl. rewrite <- app_assoc. done.
Qed.

Lemma elem_of_removeValue (l x : ref) (xs : list ref) :
  x ∈ removeValue l xs ↔ x ∈ xs ∧ x ≠ l.
Proof. unfold removeValue. rewrite list_elem_of_filter. tauto. Qed.

Lemma run_store_dom (ds : gmap ref DataItem) ps items (h : list Op) :
  dom (dataItemStore (run h (new_ items ds ps))) = dom ds.
Proof.
  induction h as [|[d|d] h IH]; cbn [run step]; [done| |].
  - destruct (processDataItem_fields d (run h (new_ items ds ps))) as (-> & _).
    by rewrite dom_alter_L.
  - unfold disposeDataItem. cbn zeta. rewrite di_get_call.
    destruct (di_get mapLine d _); simpl; done.
Qed.

Lemma protocol_disposed_processed (ds : gmap ref DataItem) (h : list Op) (d : ref) :
  protocol ds h -> Dispose d ∈ h -> Process d ∈ h.
Proof.
  induction h as [|[d'|d'] h IH]; simpl.
  - intros _ Hin. by apply elem_of_nil in Hin.
  - intros (_ & _ & Hp) Hin. apply elem_of_cons in Hin as [?|Hin]; [done|].
    apply elem_of_cons. right. by apply IH.
  - intros (Hd' & _ & Hp) Hin. apply elem_of_cons. right.
    apply elem_of_cons in Hin as [Heq|Hin]; [by simplify_eq | by apply IH].
Qed.

Lemma di_get_mapLine_alter (d d' l : ref) (s : Series) :
  di_get mapLine d' (set_dataItemStore (alter (di_set_mapLine l) d) s) =
    if decide (d' = d) then (λ _, l) <$> dataItemStore s !! d
    else di_get mapLine d' s.
Proof.
  unfold di_get. simpl. case_decide as Heq.
  - subst. rewrite lookup_alter_eq. by destruct (dataItemStore s !! d).
  - by rewrite lookup_alter_ne.
Qed.

Lemma ownership_new items (ds : gmap ref DataItem) ps : ownership [] (new_ items ds ps).
Proof.
  split.
  - intros d Hin. by apply elem_of_nil in Hin.
  - intros d1 d2 l Hin. by apply elem_of_nil in Hin.
  - intros l Hin. by apply elem_of_nil in Hin.
  - constructor.
Qed.

Lemma ownership_process (ds : gmap ref DataItem) (h : list Op) (d : ref) (s : Series) :
  dom (dataItemStore s) = dom ds ->
  protocol ds (Process d :: h) ->
  ownership h s ->
  ownership (Process d :: h) (processDataItem d s).
Proof.
  intros Hdom (Hd & Hfresh & Hp) [Hline Hinj Hman Hnd].
  destruct (processDataItem_fields d s) as (Hds & Hls & Hml & _).
  cbn zeta in *. set (l := fresh (dom (lineStore s))) in *.
  assert (Hl : lineStore s !! l = None).
  { apply not_elem_of_dom. apply is_fresh. }
  assert (Hget : ∀ d', di_get mapLine d' (processDataItem d s) =
                       if decide (d' = d) then Some l else di_get mapLine d' s).
  { intros d'. unfold di_get. rewrite Hds. case_decide as Heq.
    - subst. rewrite lookup_alter_eq.
      assert (is_Some (dataItemStore s !! d)) as [di ->]; [|done].
      apply elem_of_dom. rewrite Hdom. by apply elem_of_dom.
    - by rewrite lookup_alter_ne. }
  assert (Hnd_d : Dispose d ∉ h).
  { intros Hin. apply Hfresh. by eapply protocol_disposed_processed. }
  assert (Hother : ∀ d', Process d' ∈ h -> d' ≠ d) by (intros d' Hin ->; done).
  assert (Hlines : ∀ d' l', Process d' ∈ h -> di_get mapLine d' s = Some l' -> l' ≠ l).
  { intros d' l' Hin Hg ->. destruct (Hline d' Hin) as (l' & m & Hg' & Hm & _).
    congruence. }
  split.
  - intros d' Hin. apply elem_of_cons in Hin as [Heq|Hin].
    + simplify_eq. exists l, (mkMapLine None (Some d) true false false).
      rewrite Hget, decide_True, Hls, lookup_insert_eq, Hml by done. simpl.
      split_and!; try done.
      * split; [done|]. intros Hin. apply elem_of_cons in Hin as [?|?]; done.
      * split; [|set_solver]. intros _ Hin. apply elem_of_cons in Hin as [?|?]; done.
    + destruct (Hline d' Hin) as (l' & m & Hg & Hm & Hdi & Hdisp & Hmem).
      exists l', m. rewrite Hget, decide_False, Hls, lookup_insert_ne, Hml
        by eauto using not_eq_sym.
      split_and!; try done.
      * rewrite Hdisp. split; [set_solver|].
        intros Hc. apply elem_of_cons in Hc as [?|?]; done.
      * rewrite elem_of_app, list_elem_of_singleton, not_elem_of_cons.
        specialize (Hlines d' l' Hin Hg). naive_solver.
  - intros d1 d2 l0 H1 H2. rewrite !Hget.
    apply elem_of_cons in H1 as [E1|H1], H2 as [E2|H2]; simplify_eq.
    + done.
    + rewrite decide_True by done. rewrite decide_False by eauto.
      intros [= <-] Hg. by destruct (Hlines d2 l H2 Hg).
    + rewrite decide_False by eauto. rewrite decide_True by done.
      intros Hg [= <-]. by destruct (Hlines d1 l H1 Hg).
    + rewrite !decide_False by eauto. by apply Hinj.
  - intros l0. rewrite Hml, elem_of_app, list_elem_of_singleton.
    intros [Hin| ->].
    + destruct (Hman l0 Hin) as (d0 & Hp0 & Hnd0 & Hg0).
      exists d0. rewrite Hget, decide_False by eauto.
      split_and!; [set_solver | | done].
      intros Hc. apply elem_of_cons in Hc as [?|?]; done.
    + exists d. rewrite Hget, decide_True by done.
      split_and!; [set_solver | | done].
      intros Hc. apply elem_of_cons in Hc as [?|?]; done.
  - rewrite Hml. apply NoDup_app. split_and!; [done | | apply NoDup_singleton].
    intros x Hin Hx. apply list_elem_of_singleton in Hx as ->.
    destruct (Hman l Hin) as (d0 & Hp0 & _ & Hg0).
    by destruct (Hlines d0 l Hp0 Hg0).
Qed.

Lemma ownership_dispose (ds : gmap ref DataItem) (h : list Op) (d : ref) (s : Series) :
  protocol ds (Dispose d :: h) ->
  ownership h s ->
  ownership (Dispose d :: h) (disposeDataItem d s).
Proof.
  intros (Hd & Hfresh & Hp) [Hline Hinj Hman Hnd].
  destruct (Hline d Hd) as (l & m & Hg & Hm & Hdi & Hdisp & Hmem).
  destruct (disposeDataItem_fields d l s Hg) as (Hds & Hls & Hml & _).
  cbn zeta in *.
  assert (Hget : ∀ {A} (f : DataItem -> option A) d',
             di_get f d' (disposeDataItem d s) = di_get f d' s).
  { intros A f d'. unfold di_get. by rewrite Hds. }
  split.
  - intros d' Hin. apply elem_of_cons in Hin as [?|Hin]; [done|].
    destruct (decide (d' = d)) as [->|Hne].
    + exists l, (line_dispose m). rewrite Hget, Hls, lookup_alter_eq, Hm, Hml.
      split_and!; try done.
      * split; [set_solver|done].
      * rewrite elem_of_removeValue. split; [naive_solver|]. set_solver.
    + destruct (Hline d' Hin) as (l' & m' & Hg' & Hm' & Hdi' & Hdisp' & Hmem').
      assert (l' ≠ l) by (intros ->; apply Hne; by eapply Hinj).
      exists l', m'. rewrite Hget, Hls, lookup_alter_ne, Hml by done.
      split_and!; try done.
      * rewrite Hdisp'. split; [set_solver|].
        intros Hc. apply elem_of_cons in Hc as [?|?]; [congruence|done].
      * rewrite elem_of_removeValue, not_elem_of_cons. naive_solver.
  - intros d1 d2 l0 H1 H2. rewrite !Hget.
    apply elem_of_cons in H1 as [?|H1]; [done|].
    apply elem_of_cons in H2 as [?|H2]; [done|]. by apply Hinj.
  - intros l0. rewrite Hml, elem_of_removeValue. intros [Hin Hne].
    destruct (Hman l0 Hin) as (d0 & Hp0 & Hnd0 & Hg0).
    exists d0. rewrite Hget. split_and!; [set_solver | | done].
    rewrite not_elem_of_cons. split; [|done]. intros [= ->]. congruence.
  - rewrite Hml. unfold removeValue. by apply NoDup_filter.
Qed.

Lemma run_ownership items (ds : gmap ref DataItem) ps (h : list Op) :
  protocol ds h -> ownership h (run h (new_ items ds ps)).
Proof.
  induction h as [|[d|d] h IH]; intros Hp; cbn [run step].
  - apply ownership_new.
  - eapply ownership_process; [apply run_store_dom | done | apply IH, Hp].
  - eapply ownership_dispose; [done | apply IH, Hp].
Qed.

(** C8, as the code has it.  Disposing a data item that records a map line
    removes the line from [mapLines] and disposes it (after the call to the
    superclass); the data item goes on recording the line.  Under the
    calling discipline of the framework the series keeps the ownership
    invariant: every processed data item records exactly one map line, its
    own, which is managed and alive until the item is disposed and disposed
    from then on. *)
Theorem disposeDataItem_ownership items (ds : gmap ref DataItem) ps (h : list Op) :
  protocol ds h ->
  (∀ (s : Series) d l,
     di_get mapLine d s = Some l ->
     let s' := disposeDataItem d s in
     (l ∉ mapLines s') ∧
     lineStore s' !! l = line_dispose <$> lineStore s !! l ∧
     calls s' = calls s ++ [SuperDisposeDataItem d; LineDispose l] ∧
     di_get mapLine d s' = Some l) ∧
  ownership h (run h (new_ items ds ps)).
Proof.
  intros Hp. split; [|by apply run_ownership].
  intros s d l Hg. cbn zeta.
  destruct (disposeDataItem_fields d l s Hg) as (Hds & Hls & Hml & Hc).
  cbn zeta in *. split_and!.
  - rewrite Hml, elem_of_removeValue. naive_solver.
  - by rewrite Hls, lookup_alter_eq.
  - done.
  - unfold di_get in *. by rewrite Hds.
Qed.

End Facts.

Lemma markDirtyValues_geometry_witness :
  let s := run [Process 1; Process 0] exampleSeries in
  ml_geometry <$> lineStore (_markDirtyValues 0%Z (Some 0) s) !! 0 =
    Some (Some (LineString [[1%Z; 0%Z]; [0%Z; 3%Z]])) ∧
  ml_geometry <$> lineStore (_markDirtyValues 0%Z (Some 1) s) !! 1 =
    Some (Some (LineString [[7%Z; 8%Z]])).
Proof.
  cbn zeta. split.
  - edestruct (markDirtyValues_geometry 0%Z (run [Process 1; Process 0] exampleSeries) 0 0)
      as [H _]; [vm_compute; reflexivity ..|].
    vm_compute in H. vm_compute. exact H.
  - edestruct (markDirtyValues_geometry 0%Z (run [Process 1; Process 0] exampleSeries) 1 1)
      as [H _]; [vm_compute; reflexivity ..|].
    vm_compute in H. vm_compute. exact H.
Defined.

Lemma example_protocol :
  protocol exampleDataItems [Dispose 0; Process 1; Process 0].
Proof.
  cbn [protocol].
  repeat split; first [ set_solver | eexists; vm_compute; reflexivity ].
Qed.

Lemma disposeDataItem_ownership_witness :
  protocol exampleDataItems [Dispose 0; Process 1; Process 0] ∧
  ownership [Dispose 0; Process 1; Process 0]
            (run [Dispose 0; Process 1; Process 0] exampleSeries).
Proof.
  split; [exact example_protocol|].
  exact (proj2 (disposeDataItem_ownership [0; 1] exampleDataItems examplePoints
                  [Dispose 0; Process 1; Process 0] example_protocol)).
Defined.

(** C8, as stated, fails: after [disposeDataItem] the data item still
    records its map line, which is now disposed and no longer managed. *)
Lemma disposeDataItem_keeps_mapLine :
  let s := run [Process 0] exampleSeries in
  let s' := disposeDataItem 0 s in
  di_get mapLine 0 s = Some 0 ∧
  di_get mapLine 0 s' = Some 0 ∧
  (0 ∉ mapLines s') ∧
  ml_disposed <$> lineStore s' !! 0 = Some true ∧
  ¬ released 0 s'.
Proof.
  cbn zeta. split_and!.
  - vm_compute. reflexivity.
  - vm_compute. reflexivity.
  - vm_compute. intros H. by apply elem_of_nil in H.
  - vm_compute. reflexivity.
  - unfold released. vm_compute. discriminate.
Qed.

End MapLineSeriesFacts.

(* ===================================================================== *)
(** * The life of a map line *)
(* ===================================================================== *)

Module MapLineSeriesLifecycle.

Import MapLineSeries.

Section Lifecycle.

Context {number : Type} (zero : number).

Local Abbreviation Series := (@Series number).
Local Abbreviation DataItem := (@DataItem number).
Local Abbreviation MapLine := (@MapLine number).

(** ** Processing a data item *)

Lemma listeners_fold (d : ref) (pts : list ref) (s : Series) :
  listeners (foldl (λ s p,
                     set_listeners (λ ls, ls ++ [(p, "longitude", d);
                                                 (p, "latitude", d);
                                                 (p, "geometry", d)]) s) s pts)
  = listeners s ++ subscriptions d pts.
Proof.
  revert s. induction pts as [|p pts IH]; intros s; cbn [foldl].
  - by rewrite app_nil_r.
  - rewrite IH. cbn. by rewrite <- app_assoc.
Qed.

Lemma elem_of_subscriptions (d : ref) (pts : list ref) (p : ref) (field : string) (d' : ref) :
  (p, field, d') ∈ subscriptions d pts ↔ d' = d ∧ p ∈ pts ∧ field ∈ pointFields.
Proof.
  unfold subscriptions, pointFields. rewrite list_elem_of_bind. split.
  - intros (q & Hin & Hq). set_solver.
  - intros (-> & Hp & Hf). exists p. set_solver.
Qed.

Lemma processDataItem_listeners (d : ref) (s : Series) :
  let s' := processDataItem d s in
  listeners s' = listeners s ++ subscriptions d (default [] (di_get pointsToConnect d s)) ∧
  pointStore s' = pointStore s ∧ dataItems s' = dataItems s.
Proof.
  cbn zeta. unfold processDataItem, makeMapLine. cbn zeta.
  set (l := fresh (dom (lineStore (call (SuperProcessDataItem d) s)))).
  match goal with
  | |- context [di_get pointsToConnect d ?s1] =>
      replace (di_get pointsToConnect d s1) with (di_get pointsToConnect d s)
  end.
  2:{ unfold di_get. cbn. rewrite lookup_alter_eq.
      by destruct (dataItemStore s !! d). }
  destruct (di_get pointsToConnect d s) as [pts|]; cbn [default].
  - match goal with
    | |- context [foldl ?f ?a pts] =>
        pose proof (listeners_fold d pts a) as Hl;
        destruct (MapLineSeriesFacts.listeners_fold_stores d pts a) as (_&_&_&_&_&Hp&Hd)
    end.
    cbn zeta in Hp, Hd. cbn. rewrite Hl, Hp, Hd. done.
  - cbn. by rewrite app_nil_r.
Qed.

Lemma disposeDataItem_frame (d : ref) (s : Series) :
  listeners (disposeDataItem d s) = listeners s ∧
  pointStore (disposeDataItem d s) = pointStore s ∧
  dataItems (disposeDataItem d s) = dataItems s ∧
  dataItemStore (disposeDataItem d s) = dataItemStore s.
Proof.
  unfold disposeDataItem. cbn zeta.
  destruct (di_get mapLine d (call (SuperDisposeDataItem d) s)); done.
Qed.

Lemma length_subscriptions (d : ref) (pts : list ref) :
  length (subscriptions d pts) = 3 * length pts.
Proof.
  unfold subscriptions. induction pts as [|p pts IH]; [done|].
  cbn [mbind list_bind app length] in *. rewrite IH. lia.
Qed.


(** [processDataItem] subscribes the data item to its connected points:
    three subscriptions for every entry of [pointsToConnect], to the fields
    longitude, latitude and geometry, in the order of the point list, after
    the subscriptions that were there; none when [pointsToConnect] is
    absent or empty.  A point that is listed twice is subscribed to
    twice. *)
Theorem processDataItem_subscribes (d : ref) (s : Series) :
  let pts := default [] (di_get pointsToConnect d s) in
  let s' := processDataItem d s in
  listeners s' = listeners s ++ subscriptions d pts ∧
  length (listeners s') = length (listeners s) + 3 * length pts ∧
  (∀ p field d', (p, field, d') ∈ listeners s' ↔
                 (p, field, d') ∈ listeners s ∨
                 (d' = d ∧ p ∈ pts ∧ field ∈ pointFields)).
Proof.
  cbn zeta. destruct (processDataItem_listeners d s) as (Hl & _). cbn zeta in Hl.
  rewrite Hl. split_and!; [done| |].
  - by rewrite length_app, length_subscriptions.
  - intros p field d'. by rewrite elem_of_app, elem_of_subscriptions.
Qed.

(** ** Recomputation *)

(** What [_markDirtyValues] does, field by field. *)
Lemma markDirtyValues_fields (dataItem : option ref) (s : Series) :
  let s' := _markDirtyValues zero dataItem s in
  dataItemStore s' = dataItemStore s ∧ pointStore s' = pointStore s ∧
  dataItems s' = dataItems s ∧ children s' = children s ∧
  mapLines s' = mapLines s ∧ listeners s' = listeners s ∧
  calls s' = calls s ++
    (if match dataItem with
        | Some d => default false (dirtyValue <$> dataItemStore s !! d)
        | None => true
        end then [SuperMarkDirtyValues] else []) ∧
  lineStore s' =
    match dataItem ≫= λ d, (λ l, (d, l)) <$> di_get mapLine d s with
    | Some (d, l) =>
        alter (line_set_geometry
                 match di_get pointsToConnect d s with
                 | Some pts => Some (LineString (map (coordinate zero s) pts))
                 | None => di_get geometry d s
                 end) l (lineStore s)
    | None => lineStore s
    end.
Proof.
  cbn zeta. destruct dataItem as [d|]; cbn [_markDirtyValues mbind option_bind].
  2:{ split_and!; done. }
  set (s1 := if default false (dirtyValue <$> dataItemStore s !! d)
             then call SuperMarkDirtyValues s else s).
  assert (Hs1 : dataItemStore s1 = dataItemStore s ∧ pointStore s1 = pointStore s ∧
                lineStore s1 = lineStore s ∧ dataItems s1 = dataItems s ∧
                children s1 = children s ∧ mapLines s1 = mapLines s ∧
                listeners s1 = listeners s ∧
                calls s1 = calls s ++
                  (if default false (dirtyValue <$> dataItemStore s !! d)
                   then [SuperMarkDirtyValues] else [])).
  { subst s1. destruct (default _ _); split_and!; try done. cbn. by rewrite app_nil_r. }
  destruct Hs1 as (Hds & Hps & Hls & Hdi & Hch & Hml & Hli & Hca).
  assert (Hget : ∀ A (f : DataItem -> option A), di_get f d s1 = di_get f d s).
  { intros A f. unfold di_get. by rewrite Hds. }
  rewrite !Hget.
  destruct (di_get mapLine d s) as [l|]; cbn [fmap option_fmap option_map].
  2:{ split_and!; done. }
  destruct (di_get pointsToConnect d s) as [pts|]; cbn; rewrite Hls;
    split_and!; try done.
  do 4 f_equal.
  rewrite MapLineSeriesFacts.foldl_snoc_map. cbn [app].
  apply map_ext. intros p. unfold coordinate, point_get. by rewrite Hps.
Qed.

(** [_markDirtyValues] is a recomputation: it touches the geometry of one
    line at most, creates and removes no line, leaves the data items, the
    points, the collections and the subscriptions alone, and doing it twice
    gives the lines that doing it once gives.  The superclass is called
    exactly when no data item is passed or the value of the data item is
    dirty. *)
Theorem markDirtyValues_idempotent (dataItem : option ref) (s : Series) :
  let s1 := _markDirtyValues zero dataItem s in
  let s2 := _markDirtyValues zero dataItem s1 in
  lineStore s2 = lineStore s1 ∧
  dom (lineStore s1) = dom (lineStore s) ∧
  (∀ l, (dataItem ≫= λ d, di_get mapLine d s) ≠ Some l ->
        lineStore s1 !! l = lineStore s !! l) ∧
  (∀ l, line_set_geometry None <$> lineStore s1 !! l =
        line_set_geometry None <$> lineStore s !! l) ∧
  dataItemStore s1 = dataItemStore s ∧ pointStore s1 = pointStore s ∧
  dataItems s1 = dataItems s ∧ children s1 = children s ∧
  mapLines s1 = mapLines s ∧ listeners s1 = listeners s ∧
  calls s1 = calls s ++
    (if match dataItem with
        | Some d => default false (dirtyValue <$> dataItemStore s !! d)
        | None => true
        end then [SuperMarkDirtyValues] else []).
Proof.
  cbn zeta.
  destruct (markDirtyValues_fields dataItem s) as (Hds & Hps & Hdi & Hch & Hml & Hli & Hca & Hls).
  destruct (markDirtyValues_fields dataItem (_markDirtyValues zero dataItem s))
    as (_ & _ & _ & _ & _ & _ & _ & Hls2).
  cbn zeta in *.
  assert (Hget : ∀ A (f : DataItem -> option A) d,
             di_get f d (_markDirtyValues zero dataItem s) = di_get f d s).
  { intros A f d. unfold di_get. by rewrite Hds. }
  assert (Hco : ∀ pts, map (coordinate zero (_markDirtyValues zero dataItem s)) pts =
                       map (coordinate zero s) pts).
  { intros pts. apply map_ext. intros p. unfold coordinate, point_get. by rewrite Hps. }
  split_and!; try done.
  - rewrite Hls2, Hls. destruct dataItem as [d|]; cbn [mbind option_bind]; [|done].
    rewrite !Hget. destruct (di_get mapLine d s) as [l|];
      cbn [fmap option_fmap option_map]; [|done].
    rewrite !Hget. destruct (di_get pointsToConnect d s) as [pts|]; rewrite ?Hco.
    all: apply map_eq; intros i; destruct (decide (i = l)) as [->|Hne];
      [ rewrite !lookup_alter_eq; by destruct (lineStore s !! l)
      | by rewrite !lookup_alter_ne ].
  - rewrite Hls. destruct (_ ≫= _) as [[d l]|]; [|done]. by rewrite dom_alter_L.
  - intros l Hl. rewrite Hls. destruct dataItem as [d|]; cbn [mbind option_bind] in *; [|done].
    destruct (di_get mapLine d s) as [l'|]; cbn [fmap option_fmap option_map]; [|done].
    rewrite lookup_alter_ne; [done|]. congruence.
  - intros l. rewrite Hls. destruct (_ ≫= _) as [[d l']|]; [|done].
    destruct (decide (l = l')) as [->|Hne].
    + rewrite lookup_alter_eq. by destruct (lineStore s !! l').
    + by rewrite lookup_alter_ne.
Qed.

(** ** Histories *)

Lemma run_fields items (ds : gmap ref DataItem) ps (h : list Op) :
  let s := run h (new_ items ds ps) in
  pointStore s = ps ∧ dataItems s = items ∧
  (∀ d, di_get pointsToConnect d s = ds !! d ≫= pointsToConnect) ∧
  (∀ d, di_get geometry d s = ds !! d ≫= geometry).
Proof.
  cbn zeta. induction h as [|[d0|d0] h IH]; cbn [run step].
  - done.
  - destruct IH as (Hp & Hd & Hpts & Hg).
    destruct (processDataItem_listeners d0 (run h (new_ items ds ps))) as (_ & -> & ->).
    destruct (MapLineSeriesFacts.processDataItem_fields d0 (run h (new_ items ds ps)))
      as (Hds & _).
    cbn zeta in Hds.
    split_and!; try done.
    + intros d. rewrite <- Hpts. unfold di_get. rewrite Hds.
      destruct (decide (d = d0)) as [->|Hne].
      * rewrite lookup_alter_eq. by destruct (dataItemStore _ !! d0).
      * by rewrite lookup_alter_ne.
    + intros d. rewrite <- Hg. unfold di_get. rewrite Hds.
      destruct (decide (d = d0)) as [->|Hne].
      * rewrite lookup_alter_eq. by destruct (dataItemStore _ !! d0).
      * by rewrite lookup_alter_ne.
  - destruct IH as (Hp & Hd & Hpts & Hg).
    destruct (disposeDataItem_frame d0 (run h (new_ items ds ps)))
      as (_ & -> & -> & Hds).
    split_and!; try done.
    + intros d. rewrite <- Hpts. unfold di_get. by rewrite Hds.
    + intros d. rewrite <- Hg. unfold di_get. by rewrite Hds.
Qed.

Lemma run_listeners items (ds : gmap ref DataItem) ps (h : list Op) p field d :
  (p, field, d) ∈ listeners (run h (new_ items ds ps)) ↔
  Process d ∈ h ∧
  ∃ pts, ds !! d ≫= pointsToConnect = Some pts ∧ p ∈ pts ∧ field ∈ pointFields.
Proof.
  induction h as [|[d0|d0] h IH]; cbn [run step].
  - cbn. set_solver.
  - destruct (processDataItem_listeners d0 (run h (new_ items ds ps))) as (-> & _).
    destruct (run_fields items ds ps h) as (_ & _ & Hpts & _). cbn zeta in Hpts.
    rewrite Hpts, elem_of_app, IH, elem_of_subscriptions, elem_of_cons.
    split.
    + intros [(Hin & pts & Hds & Hp & Hf) | (-> & Hp & Hf)].
      * split; [by right|]. eauto.
      * split; [by left|]. destruct (ds !! d0 ≫= pointsToConnect) as [pts|]; [eauto|].
        by apply elem_of_nil in Hp.
    + intros ([Heq | Hin] & pts & Hds & Hp & Hf).
      * right. simplify_eq. rewrite Hds. done.
      * left. eauto.
  - destruct (disposeDataItem_frame d0 (run h (new_ items ds ps))) as (-> & _).
    rewrite IH, elem_of_cons. split.
    + intros (? & ?). split; [by right | done].
    + intros ([?|?] & ?); [done|]. done.
Qed.

Lemma elem_of_live (h : list Op) (d : ref) : d ∈ live h -> Process d ∈ h.
Proof.
  induction h as [|[d0|d0] h IH]; cbn [live].
  - intros H. by apply elem_of_nil in H.
  - rewrite elem_of_app, list_elem_of_singleton. intros [H| ->]; [|by left].
    right. by apply IH.
  - rewrite list_elem_of_filter. intros [_ H]. right. by apply IH.
Qed.

(** The managed collection lists the lines of the live data items.  When
    every data item is processed once and disposed at most once, after it
    was processed, [mapLines] holds, in the order in which the data items
    were processed, exactly the map lines of the data items that were
    processed and not disposed since: one line each. *)
Theorem mapLines_live items (ds : gmap ref DataItem) ps (h : list Op) :
  protocol ds h ->
  let s := run h (new_ items ds ps) in
  Forall2 (λ d l, di_get mapLine d s = Some l) (live h) (mapLines s) ∧
  length (mapLines s) = length (live h).
Proof.
  intros Hp. cbn zeta.
  assert (HF : Forall2 (λ d l, Process d ∈ h ∧
                               di_get mapLine d (run h (new_ items ds ps)) = Some l)
                 (live h) (mapLines (run h (new_ items ds ps)))).
  { induction h as [|[d0|d0] h IH]; cbn [run step live].
    - constructor.
    - destruct Hp as (Hd0 & Hfresh & Hp). specialize (IH Hp).
      pose proof (MapLineSeriesFacts.run_ownership items ds ps h Hp) as Hown.
      pose proof (MapLineSeriesFacts.run_store_dom ds ps items h) as Hdom.
      destruct (MapLineSeriesFacts.processDataItem_fields d0 (run h (new_ items ds ps)))
        as (Hds & _ & Hml & _). cbn zeta in Hds, Hml.
      rewrite Hml. apply Forall2_app.
      + eapply Forall2_impl; [exact IH|]. intros d l (Hin & Hg). split; [by right|].
        unfold di_get in *. rewrite Hds, lookup_alter_ne; [done|]. by intros ->.
      + constructor; [|constructor]. split; [by left|].
        unfold di_get. rewrite Hds, lookup_alter_eq.
        assert (is_Some (dataItemStore (run h (new_ items ds ps)) !! d0)) as [di ->]; [|done].
        apply elem_of_dom. rewrite Hdom. by apply elem_of_dom.
    - destruct Hp as (Hd0 & Hfresh & Hp). specialize (IH Hp).
      pose proof (MapLineSeriesFacts.run_ownership items ds ps h Hp) as Hown.
      destruct (own_line _ _ Hown d0 Hd0) as (l0 & m0 & Hg0 & _).
      destruct (MapLineSeriesFacts.disposeDataItem_fields d0 l0 _ Hg0) as (Hds & _ & Hml & _).
      cbn zeta in Hds, Hml. rewrite Hml. unfold removeValue.
      eapply Forall2_impl.
      + apply Forall2_filter; [|exact IH].
        intros d l (Hin & Hg). cbn. split.
        * intros Hne ->. apply Hne.
          by apply (own_inj _ _ Hown d d0 l0).
        * intros Hne ->. congruence.
      + intros d l (Hin & Hg). split; [by right|]. unfold di_get in *. by rewrite Hds.
  }
  split.
  - eapply Forall2_impl; [exact HF|]. by intros d l (_ & ?).
  - symmetry. by eapply Forall2_length.
Qed.

(** ** Notifications *)

Lemma connectedGeometry_ext (d : ref) (s s' : Series) :
  dataItemStore s' = dataItemStore s -> pointStore s' = pointStore s ->
  connectedGeometry zero d s' = connectedGeometry zero d s.
Proof.
  intros Hds Hps. unfold connectedGeometry, di_get. rewrite Hds.
  destruct (dataItemStore s !! d ≫= pointsToConnect) as [pts|]; [|done].
  do 2 f_equal. apply map_ext. intros p. unfold coordinate, point_get. by rewrite Hps.
Qed.

Lemma markDirtyValues_line (d l : ref) (s : Series) :
  di_get mapLine d s = Some l ->
  lineStore (_markDirtyValues zero (Some d) s) =
    alter (line_set_geometry (connectedGeometry zero d s)) l (lineStore s).
Proof.
  intros Hl. destruct (markDirtyValues_fields (Some d) s) as (_&_&_&_&_&_&_&Hls).
  cbn zeta in Hls. rewrite Hls. cbn [mbind option_bind]. rewrite Hl. done.
Qed.

Lemma notify_fold (p : ref) (field : string) (ls : list (ref * string * ref)) (s : Series) :
  (∀ x, x ∈ ls -> ∃ l, di_get mapLine x.2 s = Some l ∧ is_Some (lineStore s !! l)) ->
  (∀ x y l, x ∈ ls -> y ∈ ls ->
            di_get mapLine x.2 s = Some l -> di_get mapLine y.2 s = Some l -> x.2 = y.2) ->
  let s' := foldl (λ s x, if bool_decide (x.1.1 = p ∧ x.1.2 = field)
                          then _markDirtyValues zero (Some x.2) s else s) s ls in
  (dataItemStore s' = dataItemStore s ∧ pointStore s' = pointStore s ∧
   dataItems s' = dataItems s ∧ children s' = children s ∧
   mapLines s' = mapLines s ∧ listeners s' = listeners s ∧
   dom (lineStore s') = dom (lineStore s)) ∧
  (∀ d l, (p, field, d) ∈ ls -> di_get mapLine d s = Some l ->
          ml_geometry <$> lineStore s' !! l = Some (connectedGeometry zero d s)) ∧
  (∀ l, (∀ d, (p, field, d) ∈ ls -> di_get mapLine d s ≠ Some l) ->
        lineStore s' !! l = lineStore s !! l).
Proof.
  induction ls as [|x ls IH] using rev_ind; intros Hline Hinj; cbn zeta.
  - split_and!; try done. intros d l Hin. by apply elem_of_nil in Hin.
  - rewrite foldl_app. cbn [foldl].
    destruct IH as ((Hds & Hps & Hdi & Hch & Hml & Hli & Hdom) & Hgeo & Hframe).
    { intros y Hy. apply Hline. apply elem_of_app. by left. }
    { intros y z l Hy Hz. apply Hinj; apply elem_of_app; by left. }
    set (s1 := foldl _ s ls) in *.
    assert (Hget : ∀ A (f : DataItem -> option A) d, di_get f d s1 = di_get f d s).
    { intros A f d. unfold di_get. by rewrite Hds. }
    destruct x as [[p' field'] d']. cbn [fst snd].
    case_bool_decide as Hm.
    + destruct Hm as [-> ->].
      destruct (Hline (p, field, d')) as (l' & Hl' & Hsome);
        [apply elem_of_app; right; apply list_elem_of_here|]. cbn [snd] in Hl'.
      destruct (markDirtyValues_fields (Some d') s1) as (Hds1&Hps1&Hdi1&Hch1&Hml1&Hli1&_&_).
      cbn zeta in *.
      pose proof (markDirtyValues_line d' l' s1) as Hls1. rewrite Hget in Hls1.
      specialize (Hls1 Hl').
      rewrite (connectedGeometry_ext d' s s1 Hds Hps) in Hls1.
      split_and!; try congruence.
      * rewrite Hls1, dom_alter_L. done.
      * intros d l Hin Hl. rewrite Hls1.
        destruct (decide (d = d')) as [->|Hne].
        -- assert (l = l') as -> by congruence.
           rewrite lookup_alter_eq.
           assert (is_Some (lineStore s1 !! l')) as [m ->]; [|done].
           apply elem_of_dom. rewrite Hdom. by apply elem_of_dom.
        -- assert (l ≠ l').
           { intros ->. apply Hne.
             apply (Hinj (p, field, d) (p, field, d') l');
               [done|apply elem_of_app; right; apply list_elem_of_here|done|done]. }
           rewrite lookup_alter_ne by done. apply Hgeo; [|done].
           apply elem_of_app in Hin as [Hin|Hin]; [done|].
           apply list_elem_of_singleton in Hin. congruence.
      * intros l Hno. rewrite Hls1.
        assert (l ≠ l')
          by (intros ->; apply (Hno d');
              [apply elem_of_app; right; apply list_elem_of_here|done]).
        rewrite lookup_alter_ne by done. apply Hframe.
        intros d Hin. apply Hno. apply elem_of_app. by left.
    + split_and!; try done.
      * intros d l Hin Hl. apply Hgeo; [|done].
        apply elem_of_app in Hin as [Hin|Hin]; [done|].
        apply list_elem_of_singleton in Hin. simplify_eq. by destruct Hm.
      * intros l Hno. apply Hframe. intros d Hin. apply Hno. apply elem_of_app. by left.
Qed.

(** A line follows its points.  After any history of the framework's
    calls, however the points were moved since, a notification of a field
    that [processDataItem] subscribed to recomputes the line of every data
    item that connects the notifying point: the line's geometry becomes the
    LineString of the pairs of the item's connected points as they are at
    that moment.  The lines of the other data items stay as they were, and
    no data item, point, collection or subscription changes.  This holds
    for a disposed data item as well: its subscriptions are still there. *)
Theorem notify_recomputes items (ds : gmap ref DataItem) ps ps' (h : list Op)
    (p : ref) (field : string) :
  protocol ds h ->
  let s := set_pointStore (λ _, ps') (run h (new_ items ds ps)) in
  let s' := notify zero p field s in
  (∀ d pts, Process d ∈ h -> ds !! d ≫= pointsToConnect = Some pts ->
            p ∈ pts -> field ∈ pointFields ->
            ∃ l, di_get mapLine d s' = Some l ∧
                 ml_geometry <$> lineStore s' !! l =
                   Some (Some (LineString
                     (map (λ q, [default zero (ps' !! q ≫= longitude);
                                 default zero (ps' !! q ≫= latitude)]) pts)))) ∧
  (∀ d l, di_get mapLine d s = Some l ->
          (∀ pts, ds !! d ≫= pointsToConnect = Some pts -> p ∉ pts) ->
          Process d ∈ h ->
          lineStore s' !! l = lineStore s !! l) ∧
  dataItemStore s' = dataItemStore s ∧ pointStore s' = ps' ∧
  mapLines s' = mapLines s ∧ listeners s' = listeners s.
Proof.
  intros Hp. cbn zeta.
  set (s1 := run h (new_ items ds ps)).
  set (s := set_pointStore (λ _, ps') s1).
  pose proof (MapLineSeriesFacts.run_ownership items ds ps h Hp) as Hown. fold s1 in Hown.
  destruct (run_fields items ds ps h) as (_ & _ & Hpts & _). cbn zeta in Hpts. fold s1 in Hpts.
  assert (Hlis : ∀ q f d, (q, f, d) ∈ listeners s ↔
            Process d ∈ h ∧
            ∃ pts, ds !! d ≫= pointsToConnect = Some pts ∧ q ∈ pts ∧ f ∈ pointFields).
  { intros q f d. apply run_listeners. }
  destruct (notify_fold p field (listeners s) s) as (Hfr & Hgeo & Hframe).
  { intros [[q f] d] Hin. apply Hlis in Hin as (Hin & _).
    destruct (own_line _ _ Hown d Hin) as (l & m & Hl & Hm & _).
    exists l. split; [done|]. cbn. rewrite Hm. eauto. }
  { intros [[q1 f1] d1] [[q2 f2] d2] l H1 H2. cbn [snd].
    apply Hlis in H1 as (H1 & _). apply Hlis in H2 as (H2 & _).
    by apply (own_inj _ _ Hown). }
  cbn zeta in Hfr, Hgeo, Hframe. fold (notify zero p field s) in Hfr, Hgeo, Hframe.
  destruct Hfr as (Hds & Hps & _ & _ & Hml & Hli & _).
  split_and!; try done.
  - intros d pts Hin Hd Hpin Hf.
    destruct (own_line _ _ Hown d Hin) as (l & m & Hl & _).
    exists l. split.
    + unfold di_get in *. by rewrite Hds.
    + rewrite (Hgeo d l); [|apply Hlis; eauto|done].
      unfold connectedGeometry.
      change (di_get pointsToConnect d s) with (di_get pointsToConnect d s1).
      rewrite Hpts, Hd. done.
  - intros d l Hl Hno Hin. apply Hframe.
    intros d' Hin' Hl'. apply Hlis in Hin' as (Hin' & pts & Hd' & Hpin & _).
    assert (d' = d) as -> by (by apply (own_inj _ _ Hown d' d l)).
    by apply (Hno pts).
Qed.

(** ** After disposal *)

(** Disposal ends neither the subscriptions nor the recomputation.
    [disposeDataItem] leaves every subscription registered; as the data
    item still records its line, a later recomputation writes the geometry
    into the disposed line, and a second [disposeDataItem] disposes the
    same line again. *)
Theorem disposeDataItem_keeps_subscriptions (d l : ref) (s : Series) (m : MapLine) :
  di_get mapLine d s = Some l ->
  lineStore s !! l = Some m ->
  let s1 := disposeDataItem d s in
  let s2 := _markDirtyValues zero (Some d) s1 in
  let s3 := disposeDataItem d s1 in
  listeners s1 = listeners s ∧
  lineStore s1 !! l = Some (line_dispose m) ∧
  lineStore s2 !! l =
    Some (line_set_geometry (connectedGeometry zero d s) (line_dispose m)) ∧
  calls s3 = calls s1 ++ [SuperDisposeDataItem d; LineDispose l] ∧
  mapLines s3 = mapLines s1.
Proof.
  intros Hl Hm. cbn zeta.
  destruct (MapLineSeriesFacts.disposeDataItem_fields d l s Hl) as (Hds & Hls & Hml & Hca).
  destruct (disposeDataItem_frame d s) as (Hli & Hps & _).
  cbn zeta in *.
  assert (Hl1 : di_get mapLine d (disposeDataItem d s) = Some l).
  { unfold di_get in *. by rewrite Hds. }
  destruct (MapLineSeriesFacts.disposeDataItem_fields d l _ Hl1) as (_ & _ & Hml3 & Hca3).
  cbn zeta in *.
  split_and!; try done.
  - by rewrite Hls, lookup_alter_eq, Hm.
  - rewrite (markDirtyValues_line d l _ Hl1), lookup_alter_eq, Hls, lookup_alter_eq, Hm.
    cbn. by rewrite (connectedGeometry_ext d s (disposeDataItem d s) Hds Hps).
  - rewrite Hml3, Hml. unfold removeValue. apply list_filter_filter_l. done.
Qed.

End Lifecycle.

Lemma example_processed :
  protocol exampleDataItems [Process 1; Process 0].
Proof.
  cbn [protocol].
  repeat split; first [ set_solver | eexists; vm_compute; reflexivity ].
Qed.

Lemma mapLines_live_witness :
  let h := [Dispose 0; Process 1; Process 0] in
  Forall2 (λ d l, di_get mapLine d (run h exampleSeries) = Some l)
          (live h) (mapLines (run h exampleSeries)) ∧
  length (mapLines (run h exampleSeries)) = length (live h).
Proof.
  exact (mapLines_live [0; 1] exampleDataItems examplePoints
           [Dispose 0; Process 1; Process 0] MapLineSeriesFacts.example_protocol).
Defined.

Lemma notify_recomputes_witness :
  let moved : gmap ref (@PointDataItem Z) :=
    {[ 5 := mkPoint (Some 10%Z) (Some 20%Z); 6 := mkPoint (Some 30%Z) None ]} in
  let s := set_pointStore (λ _, moved) (run [Process 1; Process 0] exampleSeries) in
  ∃ l, di_get mapLine 0 (notify 0%Z 5 "longitude" s) = Some l ∧
       ml_geometry <$> lineStore (notify 0%Z 5 "longitude" s) !! l =
         Some (Some (LineString [[10%Z; 20%Z]; [30%Z; 0%Z]])).
Proof.
  cbn zeta.
  destruct (proj1 (notify_recomputes 0%Z [0; 1] exampleDataItems examplePoints
                  {[ 5 := mkPoint (Some 10%Z) (Some 20%Z); 6 := mkPoint (Some 30%Z) None ]}
                  [Process 1; Process 0] 5 "longitude" example_processed) 0 [5; 6])
    as (l & H1 & H2).
  - apply list_elem_of_further, list_elem_of_here.
  - vm_compute. reflexivity.
  - apply list_elem_of_here.
  - apply list_elem_of_here.
  - exists l. split; [exact H1|].
    etransitivity; [exact H2|]. vm_compute. reflexivity.
Defined.

Lemma disposeDataItem_keeps_subscriptions_witness :
  let s := run [Process 0] exampleSeries in
  listeners (disposeDataItem 0 s) = listeners s ∧
  lineStore (_markDirtyValues 0%Z (Some 0) (disposeDataItem 0 s)) !! 0 =
    Some (mkMapLine (Some (LineString [[1%Z; 0%Z]; [0%Z; 3%Z]])) (Some 0) true false true).
Proof.
  cbn zeta.
  destruct (disposeDataItem_keeps_subscriptions 0%Z 0 0 (run [Process 0] exampleSeries)
              (mkMapLine None (Some 0) true false false))
    as (H1 & _ & H3 & _); [vm_compute; reflexivity ..|].
  split; [exact H1|]. etransitivity; [exact H3|]. vm_compute. reflexivity.
Defined.

End MapLineSeriesLifecycle.

(* ===================================================================== *)
(** * Properties of ExportingMenu *)
(* ===================================================================== *)

Module ExportingMenuFacts.

Import ExportingMenu.

Open Scope Z_scope.

(** ** The open/closed state machine *)

(** C3. A new menu is closed and its construction dispatches "menucreated"
    once.  [open] opens and dispatches "menuopened"; [close] closes and
    dispatches "menuclosed", from any state, and closing twice leaves the
    menu closed; [toggle] closes an open menu and opens a closed one. *)
Theorem open_close_toggle (r : Root) (s : Settings) (keyboardevents : bool) (m : Menu) :
  isOpen (new_ r s keyboardevents) = false ∧
  dispatched "menucreated" (log (new_ r s keyboardevents)) = 1%nat ∧
  isOpen (open m) = true ∧
  log (open m) = log m ++ [Dispatch "menuopened"] ∧
  isOpen (close m) = false ∧
  log (close m) = log m ++ [UtilsBlur; Dispatch "menuclosed"] ∧
  isOpen (close (close m)) = isOpen (close m) ∧
  log (close (open m)) = log m ++ [Dispatch "menuopened"; UtilsBlur; Dispatch "menuclosed"] ∧
  toggle m = (if isOpen m then close m else open m) ∧
  isOpen (toggle m) = negb (isOpen m).
Proof.
  split_and!; try reflexivity.
  - unfold close, open. simpl. by rewrite <- !app_assoc.
  - unfold close, open. simpl. by rewrite <- !app_assoc.
  - unfold toggle. by destruct (isOpen m).
Qed.

(** ** Clicks *)

Lemma is_print_spec (f : option string) :
  is_print f = bool_decide (f = Some "print").
Proof.
  destruct f as [f|]; simpl; [|done].
  destruct (String.eqb_spec f "print") as [->|Hne].
  - by rewrite bool_decide_eq_true_2.
  - rewrite bool_decide_eq_false_2; [done|]. congruence.
Qed.

(** C5. With an exporter attached, a click on an item first closes the menu
    when [autoClose] is on, and then makes one call to the exporter: [print]
    when the item's format is "print", and otherwise [download] with the
    item's format.  [autoClose] is on unless it is configured otherwise. *)
Theorem handleClick_exports (m : Menu) (e : Exporting) (item : IMenuItem) :
  exporting (_settings m) = Some e ->
  let auto := default false (autoClose (_settings m)) in
  let export := if bool_decide (format item = Some "print")
                then ExportingPrint else ExportingDownload (format item) in
  _handleClick item m = (effect export (if auto then close m else m), Done) ∧
  log (fst (_handleClick item m)) =
    log m ++ (if auto then [UtilsBlur; Dispatch "menuclosed"] else []) ++ [export] ∧
  (auto = true -> isOpen (fst (_handleClick item m)) = false) ∧
  (∀ r s kb, autoClose s = None -> autoClose (_settings (new_ r s kb)) = Some true).
Proof.
  intros He. cbn zeta.
  assert (Heq : _handleClick item m =
    (effect (if bool_decide (format item = Some "print")
             then ExportingPrint else ExportingDownload (format item))
            (if default false (autoClose (_settings m)) then close m else m), Done)).
  { unfold _handleClick, seq, lift, ret, exporting_call. rewrite is_print_spec.
    destruct (default false (autoClose (_settings m))); case_bool_decide;
      cbn; rewrite He; reflexivity. }
  rewrite Heq. simpl. split_and!.
  - done.
  - destruct (default false (autoClose (_settings m))); simpl; [|done].
    by rewrite <- !app_assoc.
  - by intros ->.
  - intros r s kb Hs. simpl. by rewrite Hs.
Qed.

(** ** Building the item list *)

Lemma indexOf_ge {A} (eqb : A -> A -> bool) (xs : list A) (x : A) :
  -1 ≤ indexOf eqb xs x < Z.of_nat (length xs).
Proof.
  induction xs as [|y ys IH]; simpl; [lia|].
  destruct (eqb y x); [lia|].
  destruct (Z.eqb_spec (indexOf eqb ys x) (-1)); lia.
Qed.

Lemma indexOf_string_absent_iff (xs : list string) (x : string) :
  indexOf String.eqb xs x = -1 ↔ x ∉ xs.
Proof.
  induction xs as [|y ys IH]; cbn [indexOf].
  - split; [intros _; apply not_elem_of_nil | done].
  - rewrite not_elem_of_cons.
    destruct (String.eqb_spec y x) as [->|Hne].
    + split; [lia | tauto].
    + pose proof (indexOf_ge String.eqb ys x).
      destruct (Z.eqb_spec (indexOf String.eqb ys x) (-1)) as [Heq|Hneq].
      * split; [|done]. intros _. split; [congruence | by apply IH].
      * split; [lia|]. intros [_ Hn]. apply IH in Hn. lia.
Qed.

Lemma indexOf_string_absent (xs : list string) (x : string) :
  (indexOf String.eqb xs x =? -1) = bool_decide (x ∉ xs).
Proof.
  destruct (Z.eqb_spec (indexOf String.eqb xs x) (-1)) as [Heq|Hne].
  - symmetry. apply bool_decide_eq_true_2. by apply indexOf_string_absent_iff.
  - symmetry. apply bool_decide_eq_false_2. by rewrite <- indexOf_string_absent_iff.
Qed.

Lemma skipped_spec (e : Exporting) (item : IMenuItem) :
  well_typed item -> skipped e item = negb (spec_rendered e item).
Proof.
  intros [Hf Ht]. unfold skipped, spec_rendered, unsupported, truthy.
  assert (Hdec : ∀ (x : string) (xs : list string),
             bool_decide (x ∉ xs) = negb (bool_decide (x ∈ xs))).
  { intros x xs. by rewrite bool_decide_not. }
  destruct (format item) as [f|], (exportType item) as [t|];
    rewrite ?indexOf_string_absent, ?Hdec.
  - destruct (String.eqb_spec f EmptyString); [congruence|].
    destruct (String.eqb_spec t EmptyString); [congruence|].
    simpl. by destruct (bool_decide (f ∈ _)), (bool_decide (t ∈ _)).
  - destruct (String.eqb_spec f EmptyString); [congruence|].
    simpl. by destruct (bool_decide (f ∈ _)).
  - destruct (String.eqb_spec t EmptyString); [congruence|].
    simpl. by destruct (bool_decide (t ∈ _)).
  - done.
Qed.

Lemma li_item_renderItem (r : Root) (item : IMenuItem) :
  li_item (fst (renderItem r item)) = item.
Proof. reflexivity. Qed.

Lemma createItems_loop_spec (e : Exporting) (xs : list IMenuItem) (m : Menu) :
  let m' := createItems_loop e m xs in
  let kept := List.filter (λ x, negb (skipped e x)) xs in
  _itemElements m' = _itemElements m ++ map (λ x, fst (renderItem (_root m) x)) kept ∧
  (∀ o, element m' !! o =
        match last (List.filter (λ x, Nat.eqb (oid x) o) kept) with
        | Some x => Some (snd (renderItem (_root m) x))
        | None => element m !! o
        end) ∧
  _root m' = _root m ∧ _settings m' = _settings m ∧ _activeItem m' = _activeItem m ∧
  isOpen m' = isOpen m ∧ keydownListener m' = keydownListener m ∧ log m' = log m ∧
  _isOver m' = _isOver m.
Proof.
  revert m. induction xs as [|x xs IH]; intros m; cbn zeta.
  - simpl. rewrite app_nil_r. done.
  - unfold createItems_loop. cbn [foldl List.filter].
    destruct (skipped e x) eqn:Hs; simpl negb; cbv iota; [apply IH|].
    change (renderItem (_root m) x) with (renderLi x, renderAnchor (_root m) x).
    cbv iota beta.
    set (li := renderLi x). set (a := renderAnchor (_root m) x).
    specialize (IH (set_itemElements (λ ls, ls ++ [li])
                      (set_element (insert (oid x) a) m))).
    cbn zeta in IH. unfold createItems_loop in IH.
    destruct IH as (H1 & H2 & H3 & H4 & H5 & H6 & H7 & H8 & H9).
    split_and!; try done.
    + rewrite H1. simpl. by rewrite <- app_assoc.
    + intros o. rewrite H2. simpl.
      destruct (Nat.eqb_spec (oid x) o) as [Heq|Hne].
      * destruct (List.filter _ (List.filter _ xs)) as [|z zs] eqn:Hf.
        -- simpl. subst o. by rewrite lookup_insert_eq.
        -- change (last (x :: z :: zs)) with (last (z :: zs)).
           destruct (last (z :: zs)) eqn:Hl; [done|].
           by apply last_None in Hl.
      * destruct (last _); [done|]. by rewrite lookup_insert_ne.
Qed.

Lemma createItems_unfold (m : Menu) (e : Exporting) :
  exporting (_settings m) = Some e ->
  createItems m = createItems_loop e (set_itemElements (λ _, []) m) (get_items m).
Proof. intros He. unfold createItems. by rewrite He. Qed.

Lemma filter_ext_Forall {A} (f g : A -> bool) (xs : list A) :
  Forall (λ x, f x = g x) xs -> List.filter f xs = List.filter g xs.
Proof.
  induction 1 as [|x xs Hx _ IH]; simpl; [done|]. by rewrite Hx, IH.
Qed.

(** C2. With an exporter attached, [createItems] renders exactly the
    configured items whose format, when present, is among the supported
    formats and whose export type, when present, is among the supported
    export types, in the order of the configuration.  For the default item
    list and an exporter that supports the formats png and csv and the
    types image and data, the rendered format entries are labelled PNG and
    CSV. *)
Theorem createItems_renders (m : Menu) (e : Exporting) :
  exporting (_settings m) = Some e ->
  Forall well_typed (get_items m) ->
  map li_item (_itemElements (createItems m)) = List.filter (spec_rendered e) (get_items m) ∧
  (∀ r kb,
     formatLabels
       (createItems
          (new_ r (mkSettings None None None
                     (Some (mkExporting ["png"; "csv"] ["image"; "data"]))
                     None None None) kb))
     = [translate r "PNG"; translate r "CSV"]).
Proof.
  intros He Hwt. split; [|intros r kb; vm_compute; reflexivity].
  rewrite (createItems_unfold m e He).
  destruct (createItems_loop_spec e (get_items m) (set_itemElements (λ _, []) m))
    as (-> & _).
  simpl. rewrite map_map.
  rewrite (map_ext _ id) by done.
  rewrite map_id. apply filter_ext_Forall.
  eapply Forall_impl; [exact Hwt|]. intros x Hx. simpl.
  rewrite skipped_spec by done. by rewrite negb_involutive.
Qed.

(** ** Without an exporter *)

Lemma createItems_no_exporting (m : Menu) :
  exporting (_settings m) = None -> createItems m = m.
Proof. intros He. unfold createItems. by rewrite He. Qed.

Lemma handleClick_no_exporting (m : Menu) (item : IMenuItem) :
  exporting (_settings m) = None ->
  _handleClick item m =
    (if default false (autoClose (_settings m)) then close m else m, TypeError).
Proof.
  intros He. unfold _handleClick, seq, lift, ret, exporting_call.
  destruct (default false (autoClose (_settings m))), (is_print (format item));
    cbn; rewrite He; reflexivity.
Qed.

(** C4, at the inputs where the code departs from it.  Without an exporter
    [createItems] changes nothing, but a click does not come to nothing.
    In a menu built with no settings, Down with the icon focused makes the
    PNG item active, and Enter then runs [_handleClick]: it closes the menu
    and throws a TypeError at the call to the absent exporter.  The same
    happens for a click on a rendered anchor after the exporter was taken
    away. *)
Theorem handleClick_without_exporter (r : Root) :
  let none := mkSettings None None None None None None None in
  let png := mkItem 1%nat TFormat (Some "png") (Some "image")
                    (Some (translate r "PNG")) (Some (translate r "Image")) None None in
  let m := new_ r none true in
  let m1 := fst (keydown 12 true 40 m) in
  let e := mkExporting ["png"] ["image"] in
  let built := createItems (new_ r (mkSettings None None None (Some e) None None None) true) in
  let m2 := set_settings (λ _, _settings m) built in
  createItems m = m ∧
  _activeItem m1 = Some png ∧
  keydown 12 true 13 m1 = (close m1, TypeError) ∧
  log (close m1) = log m ++ [UtilsBlur; Dispatch "menuclosed"] ∧
  anchorClick png m2 = (close m2, TypeError).
Proof.
  cbn zeta. split_and!.
  - by apply createItems_no_exporting.
  - vm_compute. reflexivity.
  - vm_compute. reflexivity.
  - vm_compute. reflexivity.
  - unfold anchorClick.
    replace (element _ !! oid _) with (Some (renderAnchor r
      (mkItem 1%nat TFormat (Some "png") (Some "image")
              (Some (translate r "PNG")) (Some (translate r "Image")) None None)))
      by (vm_compute; reflexivity).
    cbn [renderAnchor callback format truthy a_click negb String.eqb].
    by rewrite handleClick_no_exporting.
Qed.

(** ** The search loop of the arrow keys *)

Lemma at_index_nat {A} (xs : list A) (p : nat) :
  at_index xs (Z.of_nat p) = xs !! p.
Proof.
  unfold at_index. destruct (Z.ltb_spec (Z.of_nat p) 0); [lia|].
  by rewrite Nat2Z.id.
Qed.

Lemma clamp_range (items : list IMenuItem) (i : Z) :
  items ≠ [] -> 0 ≤ clamp items i < Z.of_nat (length items).
Proof.
  intros Hne. assert (0 < length items)%nat by (destruct items; [done | simpl; lia]).
  unfold clamp. destruct (Z.ltb_spec i 0); [lia|].
  destruct (Z.gtb_spec i (Z.of_nat (length items) - 1)); lia.
Qed.

Lemma clamp_in_range (items : list IMenuItem) (i : Z) :
  0 ≤ i < Z.of_nat (length items) -> clamp items i = i.
Proof.
  intros Hi. unfold clamp. destruct (Z.ltb_spec i 0); [lia|].
  destruct (Z.gtb_spec i (Z.of_nat (length items) - 1)); lia.
Qed.

Lemma interactive_separator (x : IMenuItem) :
  is_separator (type x) = negb (interactive x).
Proof. unfold interactive. by rewrite negb_involutive. Qed.

Lemma search_step (fuel : nat) (items : list IMenuItem) (dir i : Z) (p : nat) (z : IMenuItem) :
  clamp items i = Z.of_nat p ->
  items !! p = Some z ->
  search (S fuel) items dir i =
    if interactive z then Found (Z.of_nat p) z
    else search fuel items dir (Z.of_nat p + dir).
Proof.
  intros Hc Hz. cbn [search]. cbv zeta. rewrite Hc, at_index_nat, Hz.
  rewrite interactive_separator. by destruct (interactive z).
Qed.

Lemma list_find_cons_interactive (z : IMenuItem) (xs : list IMenuItem) :
  list_find (λ x, interactive x) (z :: xs) =
    if interactive z then Some (0%nat, z)
    else prod_map S id <$> list_find (λ x, interactive x) xs.
Proof.
  cbn [list_find]. destruct (interactive z); by case_decide.
Qed.

(** Downwards: the first interactive item at or after the position. *)
Lemma search_down_find (items : list IMenuItem) (fuel : nat) :
  ∀ (p : nat) (i : Z) (k : nat) (y : IMenuItem),
    clamp items i = Z.of_nat p ->
    list_find (λ x, interactive x) (drop p items) = Some (k, y) ->
    (k < fuel)%nat ->
    search fuel items 1 i = Found (Z.of_nat (p + k)) y.
Proof.
  induction fuel as [|fuel IH]; intros p i k y Hc Hf Hk; [lia|].
  destruct (items !! p) as [z|] eqn:Hz.
  - rewrite (search_step _ _ _ _ p z Hc Hz).
    rewrite (drop_S _ _ _ Hz), list_find_cons_interactive in Hf.
    destruct (interactive z).
    + simplify_eq. by rewrite Nat.add_0_r.
    + destruct (list_find _ (drop (S p) items)) as [[k' y']|] eqn:Hf'; simplify_eq/=.
      assert (S p < length items)%nat.
      { apply list_find_Some in Hf' as (Hl & _). apply lookup_lt_Some in Hl.
        rewrite length_drop in Hl. lia. }
      replace (Z.of_nat (p + S k')) with (Z.of_nat (S p + k')) by lia.
      apply IH; [|done|lia].
      rewrite clamp_in_range; lia.
  - apply lookup_ge_None in Hz. rewrite drop_ge in Hf by done. done.
Qed.

(** Downwards past the end: back to the first interactive item of the list. *)
Lemma search_down_wrap (items : list IMenuItem) (fuel : nat) :
  ∀ (p : nat) (i : Z) (k : nat) (y : IMenuItem),
    clamp items i = Z.of_nat p ->
    list_find (λ x, interactive x) (drop p items) = None ->
    list_find (λ x, interactive x) items = Some (k, y) ->
    (length items - p + k < fuel)%nat ->
    search fuel items 1 i = Found (Z.of_nat k) y.
Proof.
  induction fuel as [|fuel IH]; intros p i k y Hc Hn Hf Hk; [lia|].
  assert (Hne : items ≠ []) by (intros ->; done).
  pose proof (clamp_range items i Hne) as Hr. rewrite Hc in Hr.
  destruct (items !! p) as [z|] eqn:Hz; [|apply lookup_ge_None in Hz; lia].
  rewrite (search_step _ _ _ _ p z Hc Hz).
  rewrite (drop_S _ _ _ Hz), list_find_cons_interactive in Hn.
  destruct (interactive z); [done|].
  destruct (list_find _ (drop (S p) items)) as [[k' y']|] eqn:Hn'; [done|].
  destruct (decide (S p < length items)%nat) as [Hlt|Hge].
  - apply (IH (S p)); [|done|done|lia]. rewrite clamp_in_range; lia.
  - replace (Z.of_nat k) with (Z.of_nat (0 + k)) by lia.
    apply (search_down_find items fuel 0%nat); [|by rewrite drop_0|lia].
    unfold clamp. destruct (Z.ltb_spec (Z.of_nat p + 1) 0); [lia|].
    destruct (Z.gtb_spec (Z.of_nat p + 1) (Z.of_nat (length items) - 1)); lia.
Qed.

(** Upwards: the last interactive item at or before the position. *)
Lemma search_up_find (items : list IMenuItem) (fuel : nat) :
  ∀ (p : nat) (i : Z) (k : nat) (y : IMenuItem),
    clamp items i = Z.of_nat p ->
    list_find (λ x, interactive x) (reverse (take (S p) items)) = Some (k, y) ->
    (k < fuel)%nat ->
    search fuel items (-1) i = Found (Z.of_nat (p - k)) y.
Proof.
  induction fuel as [|fuel IH]; intros p i k y Hc Hf Hk; [lia|].
  assert (Hne : items ≠ []) by (intros ->; done).
  pose proof (clamp_range items i Hne) as Hr. rewrite Hc in Hr.
  destruct (items !! p) as [z|] eqn:Hz; [|apply lookup_ge_None in Hz; lia].
  rewrite (search_step _ _ _ _ p z Hc Hz).
  rewrite (take_S_r _ _ _ Hz), reverse_app, reverse_singleton in Hf.
  cbn [app] in Hf. rewrite list_find_cons_interactive in Hf.
  destruct (interactive z).
  - simplify_eq. by rewrite Nat.sub_0_r.
  - destruct (list_find _ (reverse (take p items))) as [[k' y']|] eqn:Hf'; simplify_eq/=.
    destruct p as [|p]; [done|].
    replace (Z.of_nat (S p - S k')) with (Z.of_nat (p - k')) by lia.
    apply IH; [|done|lia].
    rewrite clamp_in_range; lia.
Qed.

(** Upwards past the start: back to the last interactive item of the list. *)
Lemma search_up_wrap (items : list IMenuItem) (fuel : nat) :
  ∀ (p : nat) (i : Z) (k : nat) (y : IMenuItem),
    clamp items i = Z.of_nat p ->
    list_find (λ x, interactive x) (reverse (take (S p) items)) = None ->
    list_find (λ x, interactive x) (reverse items) = Some (k, y) ->
    (p + 1 + k < fuel)%nat ->
    search fuel items (-1) i = Found (Z.of_nat (length items - 1 - k)) y.
Proof.
  induction fuel as [|fuel IH]; intros p i k y Hc Hn Hf Hk; [lia|].
  assert (Hne : items ≠ []) by (intros ->; done).
  pose proof (clamp_range items i Hne) as Hr. rewrite Hc in Hr.
  destruct (items !! p) as [z|] eqn:Hz; [|apply lookup_ge_None in Hz; lia].
  rewrite (search_step _ _ _ _ p z Hc Hz).
  rewrite (take_S_r _ _ _ Hz), reverse_app, reverse_singleton in Hn.
  cbn [app] in Hn. rewrite list_find_cons_interactive in Hn.
  destruct (interactive z); [done|].
  destruct (list_find _ (reverse (take p items))) as [[k' y']|] eqn:Hn'; [done|].
  destruct p as [|p].
  - apply (search_up_find items fuel (length items - 1)%nat); [| |lia].
    + unfold clamp. simpl. lia.
    + replace (S (length items - 1)) with (length items) by lia.
      by rewrite firstn_all.
  - apply (IH p); [|done|done|lia]. rewrite clamp_in_range; lia.
Qed.

Lemma list_find_lt {A} (P : A -> Prop) `{∀ x, Decision (P x)} (xs : list A) k y :
  list_find P xs = Some (k, y) -> (k < length xs)%nat.
Proof. intros Hf. apply list_find_Some in Hf as (Hl & _). by eapply lookup_lt_Some. Qed.

Lemma search_down_from (items : list IMenuItem) (p : nat) (i : Z) (fuel j : nat) (y : IMenuItem) :
  clamp items i = Z.of_nat p ->
  match list_find (λ x, interactive x) (drop p items) with
  | Some (k, y) => Some ((p + k)%nat, y)
  | None => first_interactive items
  end = Some (j, y) ->
  (2 * length items ≤ fuel)%nat ->
  search fuel items 1 i = Found (Z.of_nat j) y.
Proof.
  intros Hc Hm Hfuel.
  destruct (list_find _ (drop p items)) as [[k y']|] eqn:Hf.
  - simplify_eq. apply search_down_find; [done|done|].
    apply list_find_lt in Hf. rewrite length_drop in Hf. lia.
  - eapply search_down_wrap; [done|done|done|].
    apply list_find_lt in Hm. lia.
Qed.

Lemma search_up_from (items : list IMenuItem) (p : nat) (i : Z) (fuel j : nat) (y : IMenuItem) :
  clamp items i = Z.of_nat p ->
  match list_find (λ x, interactive x) (reverse (take (S p) items)) with
  | Some (k, y) => Some ((p - k)%nat, y)
  | None => last_interactive items
  end = Some (j, y) ->
  (2 * length items ≤ fuel)%nat ->
  search fuel items (-1) i = Found (Z.of_nat j) y.
Proof.
  intros Hc Hm Hfuel.
  destruct (list_find _ (reverse (take (S p) items))) as [[k y']|] eqn:Hf.
  - simplify_eq. apply search_up_find; [done|done|].
    apply list_find_lt in Hf. rewrite length_reverse, length_take in Hf. lia.
  - unfold last_interactive in Hm.
    destruct (list_find _ (reverse items)) as [[k y']|] eqn:Hl; simplify_eq/=.
    assert (Hne : items ≠ []) by (intros ->; done).
    pose proof (clamp_range items i Hne) as Hr. rewrite Hc in Hr.
    eapply search_up_wrap; [done|done|done|].
    apply list_find_lt in Hl. rewrite length_reverse in Hl. lia.
Qed.

Lemma first_interactive_is_Some (items : list IMenuItem) :
  (∃ x, x ∈ items ∧ interactive x = true) -> is_Some (first_interactive items).
Proof.
  intros (x & Hin & Hx). unfold first_interactive.
  eapply list_find_elem_of; [done|]. by rewrite Hx.
Qed.

Lemma last_interactive_is_Some (items : list IMenuItem) :
  (∃ x, x ∈ items ∧ interactive x = true) -> is_Some (last_interactive items).
Proof.
  intros (x & Hin & Hx). unfold last_interactive.
  apply fmap_is_Some. eapply list_find_elem_of; [by apply elem_of_reverse|].
  by rewrite Hx.
Qed.

Lemma list_find_interactive_sound (xs : list IMenuItem) k y :
  list_find (λ x, interactive x) xs = Some (k, y) ->
  xs !! k = Some y ∧ interactive y = true.
Proof.
  intros Hf. apply list_find_Some in Hf as (Hl & Hy & _). split; [done|].
  by destruct (interactive y).
Qed.

Lemma first_interactive_sound (items : list IMenuItem) j y :
  first_interactive items = Some (j, y) -> items !! j = Some y ∧ interactive y = true.
Proof. apply list_find_interactive_sound. Qed.

Lemma last_interactive_sound (items : list IMenuItem) j y :
  last_interactive items = Some (j, y) -> items !! j = Some y ∧ interactive y = true.
Proof.
  unfold last_interactive. intros Hf.
  destruct (list_find _ (reverse items)) as [[k y']|] eqn:Hl; simplify_eq/=.
  pose proof (list_find_lt _ _ _ _ Hl) as Hk. rewrite length_reverse in Hk.
  apply list_find_interactive_sound in Hl as (Hl & Hy). split; [|done].
  rewrite reverse_lookup in Hl by done. rewrite <- Hl. f_equal. lia.
Qed.

(** The loop ends for either direction and every start index when the
    list has an interactive item. *)
Lemma search_terminates (items : list IMenuItem) (dir i : Z) :
  dir = 1 ∨ dir = -1 ->
  (∃ x, x ∈ items ∧ interactive x = true) ->
  ∃ (j : nat) (y : IMenuItem),
    items !! j = Some y ∧ interactive y = true ∧
    ∀ fuel, (2 * length items ≤ fuel)%nat ->
            search fuel items dir i = Found (Z.of_nat j) y.
Proof.
  intros Hdir Hex.
  assert (Hne : items ≠ []).
  { destruct Hex as (x & Hin & _). intros ->. by apply elem_of_nil in Hin. }
  pose proof (clamp_range items i Hne) as Hr.
  set (p := Z.to_nat (clamp items i)).
  assert (Hc : clamp items i = Z.of_nat p) by (subst p; lia).
  destruct Hdir as [-> | ->].
  - destruct (first_interactive_is_Some items Hex) as [[k0 y0] Hfirst].
    destruct (match list_find (λ x, interactive x) (drop p items) with
              | Some (k, y) => Some ((p + k)%nat, y)
              | None => first_interactive items
              end) as [[j y]|] eqn:Hm.
    + exists j, y.
      assert (items !! j = Some y ∧ interactive y = true) as [? ?].
      { destruct (list_find _ (drop p items)) as [[k y']|] eqn:Hf.
        - simplify_eq. apply list_find_interactive_sound in Hf as (Hl & ?).
          by rewrite lookup_drop in Hl.
        - by apply first_interactive_sound. }
      split_and!; [done|done|]. intros fuel Hfuel.
      by eapply search_down_from.
    + destruct (list_find _ (drop p items)) as [[k y']|]; congruence.
  - destruct (last_interactive_is_Some items Hex) as [[k0 y0] Hlast].
    destruct (match list_find (λ x, interactive x) (reverse (take (S p) items)) with
              | Some (k, y) => Some ((p - k)%nat, y)
              | None => last_interactive items
              end) as [[j y]|] eqn:Hm.
    + exists j, y.
      assert (items !! j = Some y ∧ interactive y = true) as [? ?].
      { destruct (list_find _ (reverse (take (S p) items))) as [[k y']|] eqn:Hf.
        - simplify_eq.
          pose proof (list_find_lt _ _ _ _ Hf) as Hk.
          rewrite length_reverse, length_take in Hk.
          apply list_find_interactive_sound in Hf as (Hl & ?). split; [|done].
          rewrite reverse_lookup in Hl by (rewrite length_take; lia).
          rewrite length_take in Hl. rewrite lookup_take_lt in Hl by lia.
          rewrite <- Hl. f_equal. lia.
        - by apply last_interactive_sound. }
      split_and!; [done|done|]. intros fuel Hfuel.
      by eapply search_up_from.
    + destruct (list_find _ (reverse (take (S p) items))) as [[k y']|]; congruence.
Qed.

(** The loop does not end on a non-empty list of separators. *)
Lemma search_diverges (items : list IMenuItem) (dir : Z) :
  items ≠ [] ->
  (∀ x, x ∈ items -> interactive x = false) ->
  ∀ fuel i, search fuel items dir i = SearchDiverges.
Proof.
  intros Hne Hsep. induction fuel as [|fuel IH]; intros i; [done|].
  pose proof (clamp_range items i Hne) as Hr.
  set (p := Z.to_nat (clamp items i)).
  assert (Hc : clamp items i = Z.of_nat p) by (subst p; lia).
  destruct (items !! p) as [z|] eqn:Hz; [|apply lookup_ge_None in Hz; lia].
  rewrite (search_step _ _ _ _ p z Hc Hz).
  rewrite (Hsep z) by (by eapply list_elem_of_lookup_2). apply IH.
Qed.

(** ** The position of the active item *)

Lemma indexOf_lookup {A} (eqb : A -> A -> bool) (xs : list A) (x : A) :
  ∀ p : nat, indexOf eqb xs x = Z.of_nat p ->
    ∃ y, xs !! p = Some y ∧ eqb y x = true ∧
         ∀ (q : nat) y', (q < p)%nat -> xs !! q = Some y' -> eqb y' x = false.
Proof.
  induction xs as [|z zs IH]; intros p; cbn [indexOf]; [lia|].
  destruct (eqb z x) eqn:Hz.
  - intros Hp. assert (p = 0%nat) as -> by lia. exists z. split_and!; [done|done|lia].
  - pose proof (indexOf_ge eqb zs x).
    destruct (Z.eqb_spec (indexOf eqb zs x) (-1)); [lia|].
    intros Hp. destruct p as [|p]; [lia|].
    destruct (IH p) as (y & Hy & Hey & Hmin); [lia|].
    exists y. split_and!; [done|done|].
    intros [|q] y' Hq Hl; simplify_eq/=; [done|]. eapply Hmin; [|done]. lia.
Qed.

Lemma indexOf_first {A} (eqb : A -> A -> bool) (xs ys : list A) (x y : A) :
  (∀ z, z ∈ xs -> eqb z x = false) ->
  eqb y x = true ->
  indexOf eqb (xs ++ y :: ys) x = Z.of_nat (length xs).
Proof.
  intros Hxs Hy. induction xs as [|z zs IH]; cbn [indexOf app length].
  - by rewrite Hy.
  - rewrite (Hxs z) by left. rewrite IH by (intros; apply Hxs; by right).
    destruct (Z.eqb_spec (Z.of_nat (length zs)) (-1)); lia.
Qed.

Lemma indexOf_absent {A} (eqb : A -> A -> bool) (xs : list A) (x : A) :
  (∀ z, z ∈ xs -> eqb z x = false) -> indexOf eqb xs x = -1.
Proof.
  intros Hxs. induction xs as [|z zs IH]; cbn [indexOf]; [done|].
  rewrite (Hxs z) by left. rewrite IH by (intros; apply Hxs; by right). done.
Qed.

Lemma currentPos_lt (m : Menu) (p : nat) :
  currentPos m = Some p -> (p < length (get_items m))%nat.
Proof.
  unfold currentPos. cbv zeta.
  destruct (Z.eqb_spec (indexOf_item (get_items m) (_activeItem m)) (-1)); [done|].
  intros [= <-]. unfold indexOf_item in *. destruct (_activeItem m) as [a|]; [|done].
  pose proof (indexOf_ge same_item (get_items m) a). lia.
Qed.

Lemma currentPos_active (m : Menu) (p : nat) :
  currentPos m = Some p ->
  ∃ a y, _activeItem m = Some a ∧ get_items m !! p = Some y ∧ oid y = oid a.
Proof.
  unfold currentPos. cbv zeta.
  destruct (Z.eqb_spec (indexOf_item (get_items m) (_activeItem m)) (-1)); [done|].
  intros [= <-]. unfold indexOf_item in *. destruct (_activeItem m) as [a|]; [|done].
  pose proof (indexOf_ge same_item (get_items m) a).
  destruct (indexOf_lookup same_item (get_items m) a
              (Z.to_nat (indexOf same_item (get_items m) a))) as (y & Hy & Heq & _); [lia|].
  exists a, y. split_and!; [done|done|]. by apply Nat.eqb_eq.
Qed.

Lemma currentPos_no_active (m : Menu) : _activeItem m = None -> currentPos m = None.
Proof. intros Ha. unfold currentPos, indexOf_item. by rewrite Ha. Qed.

Ltac clamp_cases :=
  unfold clamp;
  repeat match goal with
         | |- context [?a <? ?b] => destruct (Z.ltb_spec a b)
         | |- context [?a >? ?b] => destruct (Z.gtb_spec a b)
         end;
  try lia.

Lemma indexOf_item_range (m : Menu) :
  -1 ≤ indexOf_item (get_items m) (_activeItem m) < Z.of_nat (length (get_items m)).
Proof.
  unfold indexOf_item. destruct (_activeItem m); [apply indexOf_ge | lia].
Qed.

Lemma clamp_startIndex_down (m : Menu) :
  get_items m ≠ [] ->
  clamp (get_items m) (startIndex m 40) =
    Z.of_nat (match currentPos m with
              | Some p => if decide (S p < length (get_items m))%nat then S p else 0
              | None => 0
              end)%nat.
Proof.
  intros Hne. assert (0 < length (get_items m))%nat
    by (destruct (get_items m); [done | simpl; lia]).
  unfold startIndex, currentPos. cbv zeta.
  pose proof (indexOf_item_range m) as Hr.
  change (40 =? 38) with false. cbv iota.
  destruct (Z.eqb_spec (indexOf_item (get_items m) (_activeItem m)) (-1)) as [Heq|Hneq].
  - rewrite Heq. destruct (bool_decide _); cbn [andb]; clamp_cases.
  - rewrite andb_false_r. case_decide; clamp_cases.
Qed.

Lemma clamp_startIndex_up (m : Menu) :
  get_items m ≠ [] ->
  clamp (get_items m) (startIndex m 38) =
    Z.of_nat (match currentPos m with
              | Some (S p) => p
              | _ => length (get_items m) - 1
              end)%nat.
Proof.
  intros Hne. assert (0 < length (get_items m))%nat
    by (destruct (get_items m); [done | simpl; lia]).
  unfold startIndex, currentPos. cbv zeta.
  pose proof (indexOf_item_range m) as Hr.
  change (38 =? 38) with true. cbv iota.
  destruct (Z.eqb_spec (indexOf_item (get_items m) (_activeItem m)) (-1)) as [Heq|Hneq].
  - rewrite Heq. destruct (bool_decide _); cbn [andb]; clamp_cases.
  - rewrite andb_false_r.
    destruct (Z.to_nat (indexOf_item (get_items m) (_activeItem m))) as [|q] eqn:Hq;
      clamp_cases.
Qed.

Lemma arrow_down_search (m : Menu) :
  (∃ x, x ∈ get_items m ∧ interactive x = true) ->
  ∃ (j : nat) (y : IMenuItem),
    next_interactive (get_items m) (currentPos m) = Some (j, y) ∧
    get_items m !! j = Some y ∧ interactive y = true ∧
    ∀ fuel, (2 * length (get_items m) ≤ fuel)%nat ->
            search fuel (get_items m) 1 (startIndex m 40) = Found (Z.of_nat j) y.
Proof.
  intros Hex.
  assert (Hne : get_items m ≠ []).
  { destruct Hex as (x & Hin & _). intros Heq. rewrite Heq in Hin. by apply elem_of_nil in Hin. }
  destruct (first_interactive_is_Some _ Hex) as [[k0 y0] Hfirst].
  pose proof (clamp_startIndex_down m Hne) as Hc.
  assert (Hnext : ∃ j y, next_interactive (get_items m) (currentPos m) = Some (j, y) ∧
            match list_find (λ x, interactive x)
                    (drop (match currentPos m with
                           | Some p => if decide (S p < length (get_items m))%nat
                                       then S p else 0
                           | None => 0
                           end)%nat (get_items m)) with
            | Some (k, y) => Some ((match currentPos m with
                           | Some p => if decide (S p < length (get_items m))%nat
                                       then S p else 0
                           | None => 0
                           end + k)%nat, y)
            | None => first_interactive (get_items m)
            end = Some (j, y)).
  { unfold next_interactive. destruct (currentPos m) as [p|].
    - case_decide as Hlt.
      + destruct (list_find _ (drop (S p) (get_items m))) as [[k y]|]; eauto.
      + rewrite drop_ge by lia. rewrite drop_0.
        cbn [list_find]. fold (first_interactive (get_items m)).
        rewrite Hfirst. eauto.
    - rewrite drop_0. fold (first_interactive (get_items m)). rewrite Hfirst. eauto. }
  destruct Hnext as (j & y & Hn & Hm). exists j, y.
  assert (get_items m !! j = Some y ∧ interactive y = true) as [? ?].
  { destruct (list_find _ (drop _ (get_items m))) as [[k y']|] eqn:Hf.
    - simplify_eq. apply list_find_interactive_sound in Hf as (Hl & ?).
      by rewrite lookup_drop in Hl.
    - by apply first_interactive_sound. }
  split_and!; [done|done|done|]. intros fuel Hfuel.
  by eapply search_down_from.
Qed.

Lemma arrow_up_search (m : Menu) :
  (∃ x, x ∈ get_items m ∧ interactive x = true) ->
  ∃ (j : nat) (y : IMenuItem),
    prev_interactive (get_items m) (currentPos m) = Some (j, y) ∧
    get_items m !! j = Some y ∧ interactive y = true ∧
    ∀ fuel, (2 * length (get_items m) ≤ fuel)%nat ->
            search fuel (get_items m) (-1) (startIndex m 38) = Found (Z.of_nat j) y.
Proof.
  intros Hex.
  assert (Hne : get_items m ≠ []).
  { destruct Hex as (x & Hin & _). intros Heq. rewrite Heq in Hin. by apply elem_of_nil in Hin. }
  assert (0 < length (get_items m))%nat
    by (destruct (get_items m); [done | simpl; lia]).
  destruct (last_interactive_is_Some _ Hex) as [[k0 y0] Hlast].
  pose proof (clamp_startIndex_up m Hne) as Hc.
  set (p' := match currentPos m with
             | Some (S p) => p
             | _ => (length (get_items m) - 1)%nat
             end) in *.
  assert (Hnext : ∃ j y, prev_interactive (get_items m) (currentPos m) = Some (j, y) ∧
            match list_find (λ x, interactive x) (reverse (take (S p') (get_items m))) with
            | Some (k, y) => Some ((p' - k)%nat, y)
            | None => last_interactive (get_items m)
            end = Some (j, y)).
  { assert (Hall : match list_find (λ x, interactive x)
                           (reverse (take (S (length (get_items m) - 1)) (get_items m))) with
                   | Some (k, y) => Some ((length (get_items m) - 1 - k)%nat, y)
                   | None => last_interactive (get_items m)
                   end = Some (k0, y0)).
    { replace (S (length (get_items m) - 1)) with (length (get_items m)) by lia.
      rewrite firstn_all. unfold last_interactive in Hlast.
      destruct (list_find _ (reverse (get_items m))) as [[k y]|]; simplify_eq/=. done. }
    unfold prev_interactive. subst p'. destruct (currentPos m) as [[|p]|].
    - exists k0, y0. split; [by rewrite take_0 | exact Hall].
    - destruct (list_find _ (reverse (take (S p) (get_items m)))) as [[k y]|].
      + exists (S p - 1 - k)%nat, y. split; [done|]. do 2 f_equal. lia.
      + rewrite Hlast. eauto.
    - exists k0, y0. split; [done | exact Hall]. }
  destruct Hnext as (j & y & Hn & Hm). exists j, y.
  pose proof (clamp_range _ (startIndex m 38) Hne) as Hr. rewrite Hc in Hr.
  assert (get_items m !! j = Some y ∧ interactive y = true) as [? ?].
  { destruct (list_find _ (reverse (take (S p') (get_items m)))) as [[k y']|] eqn:Hf.
    - simplify_eq.
      pose proof (list_find_lt _ _ _ _ Hf) as Hk.
      rewrite length_reverse, length_take in Hk.
      apply list_find_interactive_sound in Hf as (Hl & ?). split; [|done].
      rewrite reverse_lookup in Hl by (rewrite length_take; lia).
      rewrite length_take in Hl. rewrite lookup_take_lt in Hl by lia.
      rewrite <- Hl. f_equal. lia.
    - by apply last_interactive_sound. }
  split_and!; [done|done|done|]. intros fuel Hfuel.
  by eapply search_up_from.
Qed.

(** ** Focus *)

Lemma set_className_fields (item : IMenuItem) (c : string) (m : Menu) :
  let m' := fst (set_className item c m) in
  _settings m' = _settings m ∧ keydownListener m' = keydownListener m ∧
  isOpen m' = isOpen m ∧ _activeItem m' = _activeItem m ∧
  _itemElements m' = _itemElements m ∧ log m' = log m ∧
  (∀ o, is_Some (element m' !! o) ↔ is_Some (element m !! o)).
Proof.
  cbn zeta. unfold set_className.
  destruct (element m !! oid item) as [a|] eqn:Ha; simpl; split_and!; try done.
  intros o. destruct (decide (o = oid item)) as [->|Hne].
  - rewrite lookup_insert_eq, Ha. split; eauto.
  - by rewrite lookup_insert_ne.
Qed.

Lemma set_className_outcome (item : IMenuItem) (c : string) (m : Menu) :
  snd (set_className item c m) =
    if bool_decide (is_Some (element m !! oid item)) then Done else TypeError.
Proof.
  unfold set_className. case_bool_decide as Hs.
  - destruct Hs as [a ->]. done.
  - destruct (element m !! oid item) as [a|] eqn:Ha; [|done].
    exfalso. apply Hs. eauto.
Qed.

Lemma set_className_throws (item : IMenuItem) (c : string) (m : Menu) :
  element m !! oid item = None -> set_className item c m = (m, TypeError).
Proof. intros Ha. unfold set_className. by rewrite Ha. Qed.

Lemma set_className_Some (item : IMenuItem) (c : string) (m : Menu) (a : Anchor) :
  element m !! oid item = Some a ->
  set_className item c m = (set_element (insert (oid item) (with_className c a)) m, Done).
Proof. intros Ha. unfold set_className. by rewrite Ha. Qed.

Lemma seq_Done (a b : M) (m m' : Menu) :
  a m = (m', Done) -> (a >> b) m = b m'.
Proof. intros Ha. unfold seq. by rewrite Ha. Qed.

Lemma seq_TypeError (a b : M) (m m' : Menu) :
  a m = (m', TypeError) -> (a >> b) m = (m', TypeError).
Proof. intros Ha. unfold seq. by rewrite Ha. Qed.

Lemma focus_tail_Some (y : IMenuItem) (m : Menu) (a : Anchor) :
  element m !! oid y = Some a ->
  (lift (set_activeItem (Some y)) >>
   set_className y "am5exporting-item-active" >> element_focus y) m =
  (effect (ElementFocus (oid y))
     (set_element (insert (oid y) (with_className "am5exporting-item-active" a))
        (set_activeItem (Some y) m)), Done).
Proof.
  intros Ha. rewrite (seq_Done _ _ m (set_activeItem (Some y) m)) by done.
  rewrite (seq_Done _ _ _ _ (set_className_Some y _ (set_activeItem (Some y) m) a Ha)).
  unfold element_focus. cbn [element set_element]. by rewrite lookup_insert_eq.
Qed.

Lemma focus_tail_None (y : IMenuItem) (m : Menu) :
  element m !! oid y = None ->
  (lift (set_activeItem (Some y)) >>
   set_className y "am5exporting-item-active" >> element_focus y) m =
  (set_activeItem (Some y) m, TypeError).
Proof.
  intros Ha. rewrite (seq_Done _ _ m (set_activeItem (Some y) m)) by done.
  by rewrite (seq_TypeError _ _ _ _ (set_className_throws y _ (set_activeItem (Some y) m) Ha)).
Qed.

Lemma is_Some_insert_present (el : gmap ref Anchor) (o o' : ref) (a a' : Anchor) :
  el !! o = Some a -> is_Some (<[o := a']> el !! o') ↔ is_Some (el !! o').
Proof.
  intros Ha. destruct (decide (o' = o)) as [->|Hne].
  - rewrite lookup_insert_eq, Ha. split; eauto.
  - by rewrite lookup_insert_ne.
Qed.

(** What [_handleItemFocus] does to the active item. *)
Lemma handleItemFocus_spec (y : IMenuItem) (m : Menu) :
  let r := _handleItemFocus y m in
  let m' := fst r in
  (_settings m' = _settings m ∧ keydownListener m' = keydownListener m ∧
   isOpen m' = isOpen m ∧ _itemElements m' = _itemElements m ∧
   (∀ o, is_Some (element m' !! o) ↔ is_Some (element m !! o))) ∧
  snd r ≠ Diverges ∧
  (is_active y m = true -> r = (m, Done)) ∧
  (is_active y m = false ->
   match _activeItem m with
   | Some a =>
       if bool_decide (has_element m a)
       then _activeItem m' = Some y ∧
            snd r = (if bool_decide (has_element m y) then Done else TypeError)
       else r = (m, TypeError)
   | None =>
       _activeItem m' = Some y ∧
       snd r = (if bool_decide (has_element m y) then Done else TypeError)
   end).
Proof.
  cbn zeta. unfold _handleItemFocus.
  destruct (is_active y m) eqn:Hact; cbn [negb].
  { split_and!; try done. }
  destruct (_activeItem m) as [a|] eqn:Hactive.
  - unfold has_element.
    destruct (element m !! oid a) as [el|] eqn:Hel.
    + rewrite (seq_Done _ _ _ _ (set_className_Some a _ m el Hel)).
      rewrite (bool_decide_eq_true_2 (is_Some (Some el))) by eauto.
      set (m1 := set_element _ m).
      assert (Hdom : ∀ o, is_Some (element m1 !! o) ↔ is_Some (element m !! o)).
      { intros o. subst m1. cbn [element set_element].
        by eapply is_Some_insert_present. }
      destruct (element m1 !! oid y) as [ely|] eqn:Hely.
      * rewrite (focus_tail_Some y m1 ely Hely). cbn.
        rewrite bool_decide_eq_true_2 by (apply Hdom; eauto).
        split_and!; try done.
        intros o. rewrite <- Hdom. by eapply is_Some_insert_present.
      * rewrite (focus_tail_None y m1 Hely). cbn.
        rewrite bool_decide_eq_false_2
          by (rewrite <- Hdom, Hely; by intros [? ?]).
        split_and!; try done.
    + rewrite (seq_TypeError _ _ _ _ (set_className_throws a _ m Hel)).
      rewrite (bool_decide_eq_false_2 (is_Some None)) by (by intros [? ?]).
      split_and!; try done.
  - rewrite (seq_Done ret _ m m) by done.
    unfold has_element.
    destruct (element m !! oid y) as [ely|] eqn:Hely.
    + rewrite (focus_tail_Some y m ely Hely). cbn.
      split_and!; try done.
      intros o. by eapply is_Some_insert_present.
    + rewrite (focus_tail_None y m Hely). cbn.
      split_and!; try done.
Qed.

(** ** The arrow keys *)

Lemma keydown_arrow_unfold (fuel : nat) (iconFocused : bool) (keyCode : Z) (m : Menu) :
  keydownListener m = true ->
  iconFocused || isOpen m = true ->
  keyCode = 38 ∨ keyCode = 40 ->
  keydown fuel iconFocused keyCode m =
    match search fuel (get_items m) (if keyCode =? 38 then -1 else 1)
                 (startIndex m keyCode) with
    | Found _ newItem => _handleItemFocus newItem m
    | SearchTypeError => throw m
    | SearchDiverges => (m, Diverges)
    end.
Proof.
  intros Hl Hg Hk. unfold keydown. rewrite Hl, Hg. cbn [andb].
  by destruct Hk as [-> | ->].
Qed.

Lemma keydown_arrow (iconFocused : bool) (keyCode : Z) (m : Menu) :
  keydownListener m = true ->
  iconFocused || isOpen m = true ->
  keyCode = 38 ∨ keyCode = 40 ->
  (∃ x, x ∈ get_items m ∧ interactive x = true) ->
  ∃ (j : nat) (y : IMenuItem),
    (if keyCode =? 40 then next_interactive else prev_interactive)
      (get_items m) (currentPos m) = Some (j, y) ∧
    get_items m !! j = Some y ∧ interactive y = true ∧
    ∀ fuel, (2 * length (get_items m) ≤ fuel)%nat ->
            keydown fuel iconFocused keyCode m = _handleItemFocus y m.
Proof.
  intros Hl Hg Hk Hex. destruct Hk as [-> | ->].
  - destruct (arrow_up_search m Hex) as (j & y & Hp & Hj & Hy & Hs).
    exists j, y. split_and!; try done. intros fuel Hfuel.
    rewrite keydown_arrow_unfold by auto. change (38 =? 38) with true. cbv iota.
    by rewrite Hs.
  - destruct (arrow_down_search m Hex) as (j & y & Hp & Hj & Hy & Hs).
    exists j, y. split_and!; try done. intros fuel Hfuel.
    rewrite keydown_arrow_unfold by auto. change (40 =? 38) with false. cbv iota.
    by rewrite Hs.
Qed.

(** C7. With the listener running on an Up or Down key and a non-empty item
    list: if the list has an interactive item, the search loop ends, from
    every start index, within twice the length of the list in runs of its
    body, and so does the listener; if the list has separators only, the
    loop never ends, whatever the start index, and neither does the
    listener. *)
Theorem arrow_search_terminates (m : Menu) (iconFocused : bool) (keyCode : Z) :
  keydownListener m = true ->
  iconFocused || isOpen m = true ->
  keyCode = 38 ∨ keyCode = 40 ->
  get_items m ≠ [] ->
  let items := get_items m in
  let dir := if keyCode =? 38 then -1 else 1 in
  ((∃ x, x ∈ items ∧ interactive x = true) ->
   (∀ i, ∃ (j : nat) (y : IMenuItem),
      items !! j = Some y ∧ interactive y = true ∧
      ∀ fuel, (2 * length items ≤ fuel)%nat ->
              search fuel items dir i = Found (Z.of_nat j) y) ∧
   (∀ fuel, (2 * length items ≤ fuel)%nat ->
            snd (keydown fuel iconFocused keyCode m) ≠ Diverges)) ∧
  ((∀ x, x ∈ items -> interactive x = false) ->
   ∀ fuel, (∀ i, search fuel items dir i = SearchDiverges) ∧
           keydown fuel iconFocused keyCode m = (m, Diverges)).
Proof.
  intros Hl Hg Hk Hne. cbn zeta. split.
  - intros Hex. split.
    + intros i. apply search_terminates; [|done].
      destruct Hk as [-> | ->]; [by right | by left].
    + intros fuel Hfuel.
      destruct (keydown_arrow iconFocused keyCode m Hl Hg Hk Hex)
        as (j & y & _ & _ & _ & Hkey).
      rewrite (Hkey fuel Hfuel).
      by destruct (handleItemFocus_spec y m) as (_ & Hnd & _).
  - intros Hsep fuel. split.
    + intros i. by apply search_diverges.
    + rewrite keydown_arrow_unfold by auto.
      by rewrite search_diverges.
Qed.

(** ** Interactive items by rank *)

Lemma interactiveItems_app (xs ys : list IMenuItem) :
  interactiveItems (xs ++ ys) = interactiveItems xs ++ interactiveItems ys.
Proof. apply List.filter_app. Qed.

Lemma interactiveItems_split (p : nat) (xs : list IMenuItem) :
  interactiveItems xs = interactiveItems (take p xs) ++ interactiveItems (drop p xs).
Proof. by rewrite <- interactiveItems_app, take_drop. Qed.

Lemma elem_of_interactiveItems (xs : list IMenuItem) (x : IMenuItem) :
  x ∈ interactiveItems xs ↔ x ∈ xs ∧ interactive x = true.
Proof.
  unfold interactiveItems. rewrite !list_elem_of_In. apply List.filter_In.
Qed.

Lemma list_find_interactive_None (xs : list IMenuItem) :
  list_find (λ x, interactive x) xs = None -> interactiveItems xs = [].
Proof.
  induction xs as [|z zs IH]; [done|].
  rewrite list_find_cons_interactive. unfold interactiveItems. cbn [List.filter].
  destruct (interactive z); [done|].
  destruct (list_find _ zs); [done|]. intros _. by apply IH.
Qed.

Lemma list_find_interactive_Some (xs : list IMenuItem) (k : nat) (y : IMenuItem) :
  list_find (λ x, interactive x) xs = Some (k, y) ->
  interactiveItems (take k xs) = [] ∧
  interactiveItems xs = y :: interactiveItems (drop (S k) xs).
Proof.
  revert k. induction xs as [|z zs IH]; intros k; [done|].
  rewrite list_find_cons_interactive. unfold interactiveItems in *.
  destruct (interactive z) eqn:Hz.
  - intros [= <- <-]. cbn [take drop List.filter]. rewrite Hz. by rewrite drop_0.
  - destruct (list_find _ zs) as [[k' y']|]; [|done].
    intros [= <- <-]. destruct (IH k' eq_refl) as [H1 H2].
    cbn [take drop List.filter]. rewrite Hz. done.
Qed.

Lemma interactiveItems_rank (xs : list IMenuItem) (t : nat) (y : IMenuItem) :
  interactiveItems xs !! t = Some y ->
  ∃ p, xs !! p = Some y ∧ interactive y = true ∧
       length (interactiveItems (take p xs)) = t.
Proof.
  revert t. induction xs as [|z zs IH]; intros t; [done|].
  unfold interactiveItems in *. cbn [List.filter].
  destruct (interactive z) eqn:Hz.
  - destruct t as [|t]; cbn [lookup list_lookup].
    + intros [= <-]. exists 0%nat. by split_and!.
    + intros Ht. destruct (IH t Ht) as (p & Hp & Hy & Hr).
      exists (S p). split_and!; [done|done|].
      cbn [take List.filter]. rewrite Hz. cbn [length]. by rewrite Hr.
  - intros Ht. destruct (IH t Ht) as (p & Hp & Hy & Hr).
    exists (S p). split_and!; [done|done|].
    cbn [take List.filter]. by rewrite Hz.
Qed.

Lemma interactiveItems_at_rank (xs : list IMenuItem) (p : nat) (x : IMenuItem) :
  xs !! p = Some x -> interactive x = true ->
  interactiveItems xs !! length (interactiveItems (take p xs)) = Some x.
Proof.
  intros Hp Hx. rewrite (interactiveItems_split p xs).
  rewrite lookup_app_r by lia. rewrite Nat.sub_diag.
  rewrite (drop_S _ _ _ Hp). unfold interactiveItems. cbn [List.filter].
  by rewrite Hx.
Qed.

(** The first interactive item has rank 0. *)
Lemma first_interactive_rank (xs : list IMenuItem) (j : nat) (y : IMenuItem) :
  first_interactive xs = Some (j, y) ->
  interactiveItems xs !! 0%nat = Some y ∧ length (interactiveItems (take j xs)) = 0%nat.
Proof.
  intros Hf. apply list_find_interactive_Some in Hf as [H1 H2].
  rewrite H1, H2. done.
Qed.

(** The next interactive item has the next rank, circularly. *)
Lemma next_interactive_rank (xs : list IMenuItem) (p : nat) (x : IMenuItem) :
  xs !! p = Some x -> interactive x = true ->
  ∃ j y, next_interactive xs (Some p) = Some (j, y) ∧
         interactiveItems xs !!
           ((length (interactiveItems (take p xs)) + 1) mod length (interactiveItems xs))%nat
           = Some y ∧
         length (interactiveItems (take j xs)) =
           ((length (interactiveItems (take p xs)) + 1) mod length (interactiveItems xs))%nat.
Proof.
  intros Hp Hx. set (t := length (interactiveItems (take p xs))).
  assert (Hsplit : interactiveItems xs =
            interactiveItems (take p xs) ++ x :: interactiveItems (drop (S p) xs)).
  { rewrite (interactiveItems_split p xs). f_equal.
    rewrite (drop_S _ _ _ Hp). unfold interactiveItems. cbn [List.filter]. by rewrite Hx. }
  unfold next_interactive.
  destruct (list_find _ (drop (S p) xs)) as [[k y]|] eqn:Hf.
  - destruct (list_find_interactive_Some _ _ _ Hf) as [H1 H2].
    exists (S p + k)%nat, y.
    assert (Hlen : (t + 1 < length (interactiveItems xs))%nat).
    { rewrite Hsplit, length_app. cbn [length]. rewrite H2. cbn [length]. subst t. lia. }
    rewrite Nat.mod_small by done.
    split_and!; [done| |].
    + rewrite Hsplit. rewrite lookup_app_r by (subst t; lia).
      replace (t + 1 - length (interactiveItems (take p xs)))%nat with 1%nat by (subst t; lia).
      cbn [lookup list_lookup]. by rewrite H2.
    + rewrite <- (take_take_drop xs (S p) k).
      rewrite interactiveItems_app, H1, app_nil_r.
      rewrite (take_S_r _ _ _ Hp), interactiveItems_app. unfold interactiveItems at 2.
      cbn [List.filter]. rewrite Hx. rewrite length_app. cbn [length]. subst t. lia.
  - pose proof (list_find_interactive_None _ Hf) as Hnil.
    assert (Hlen : length (interactiveItems xs) = (t + 1)%nat).
    { rewrite Hsplit, length_app, Hnil. cbn [length]. subst t. lia. }
    rewrite Hlen, Nat.Div0.mod_same.
    assert (is_Some (first_interactive xs)) as [[j y] Hfirst].
    { apply first_interactive_is_Some. exists x. split; [|done].
      by eapply list_elem_of_lookup_2. }
    exists j, y. destruct (first_interactive_rank _ _ _ Hfirst) as [H1 H2].
    by split_and!.
Qed.

Lemma list_find_reverse_None (xs : list IMenuItem) :
  list_find (λ x, interactive x) (reverse xs) = None -> interactiveItems xs = [].
Proof.
  induction xs as [|z zs IH] using rev_ind; [done|].
  rewrite reverse_app, reverse_singleton. cbn [app].
  rewrite list_find_cons_interactive, interactiveItems_app.
  unfold interactiveItems at 2. cbn [List.filter].
  destruct (interactive z); [done|].
  destruct (list_find _ (reverse zs)); [done|]. intros _.
  by rewrite IH.
Qed.

Lemma list_find_reverse_Some (xs : list IMenuItem) (k : nat) (y : IMenuItem) :
  list_find (λ x, interactive x) (reverse xs) = Some (k, y) ->
  ∃ l1 l2, xs = l1 ++ y :: l2 ∧ length l2 = k ∧
           interactiveItems l2 = [] ∧ interactive y = true.
Proof.
  revert k. induction xs as [|z zs IH] using rev_ind; intros k; [done|].
  rewrite reverse_app, reverse_singleton. cbn [app].
  rewrite list_find_cons_interactive.
  destruct (interactive z) eqn:Hz.
  - intros [= <- <-]. exists zs, []. by split_and!.
  - destruct (list_find _ (reverse zs)) as [[k' y']|]; [|done].
    intros [= <- <-]. destruct (IH k' eq_refl) as (l1 & l2 & -> & Hlen & Hnil & Hy).
    exists l1, (l2 ++ [z]). split_and!; [|idtac|idtac|done].
    + by rewrite <- app_assoc.
    + rewrite length_app. cbn [length]. lia.
    + rewrite interactiveItems_app, Hnil. unfold interactiveItems. cbn [List.filter].
      by rewrite Hz.
Qed.

Lemma interactiveItems_middle (l1 l2 : list IMenuItem) (y : IMenuItem) :
  interactive y = true -> interactiveItems l2 = [] ->
  interactiveItems (l1 ++ y :: l2) = interactiveItems l1 ++ [y].
Proof.
  intros Hy Hnil. rewrite interactiveItems_app. f_equal.
  unfold interactiveItems in *. cbn [List.filter]. by rewrite Hy, Hnil.
Qed.

(** The last interactive item has the last rank. *)
Lemma last_interactive_rank (xs : list IMenuItem) (j : nat) (y : IMenuItem) :
  last_interactive xs = Some (j, y) ->
  interactiveItems xs !! (length (interactiveItems xs) - 1)%nat = Some y ∧
  length (interactiveItems (take j xs)) = (length (interactiveItems xs) - 1)%nat.
Proof.
  unfold last_interactive. intros Hf.
  destruct (list_find _ (reverse xs)) as [[k y']|] eqn:Hl; simplify_eq/=.
  destruct (list_find_reverse_Some _ _ _ Hl) as (l1 & l2 & -> & Hlen & Hnil & Hy).
  subst k. clear Hl.
  rewrite interactiveItems_middle by done.
  rewrite !length_app. cbn [length].
  replace (length l1 + S (length l2) - 1 - length l2)%nat with (length l1) by lia.
  rewrite take_app_length.
  replace (length (interactiveItems l1) + 1 - 1)%nat
    with (length (interactiveItems l1)) by lia.
  split; [|done]. by rewrite list_lookup_middle.
Qed.

(** The previous interactive item has the previous rank, circularly. *)
Lemma prev_interactive_rank (xs : list IMenuItem) (p : nat) (x : IMenuItem) :
  xs !! p = Some x -> interactive x = true ->
  ∃ j y, prev_interactive xs (Some p) = Some (j, y) ∧
         interactiveItems xs !!
           ((length (interactiveItems (take p xs)) + length (interactiveItems xs) - 1)
              mod length (interactiveItems xs))%nat = Some y ∧
         length (interactiveItems (take j xs)) =
           ((length (interactiveItems (take p xs)) + length (interactiveItems xs) - 1)
              mod length (interactiveItems xs))%nat.
Proof.
  intros Hp Hx. set (t := length (interactiveItems (take p xs))).
  pose proof (lookup_lt_Some _ _ _ Hp) as Hlt.
  assert (Hsplit : interactiveItems xs =
            interactiveItems (take p xs) ++ x :: interactiveItems (drop (S p) xs)).
  { rewrite (interactiveItems_split p xs). f_equal.
    rewrite (drop_S _ _ _ Hp). unfold interactiveItems. cbn [List.filter]. by rewrite Hx. }
  assert (Hlen : (t < length (interactiveItems xs))%nat).
  { rewrite Hsplit, length_app. cbn [length]. subst t. lia. }
  unfold prev_interactive.
  destruct (list_find _ (reverse (take p xs))) as [[k y]|] eqn:Hf.
  - destruct (list_find_reverse_Some _ _ _ Hf) as (l1 & l2 & Htake & Hl2 & Hnil & Hy).
    assert (Hp' : p = (length l1 + S k)%nat).
    { rewrite <- Hl2. replace p with (length (take p xs)) at 1
        by (rewrite length_take; lia).
      rewrite Htake, length_app. done. }
    assert (Ht : t = (length (interactiveItems l1) + 1)%nat).
    { subst t. rewrite Htake, interactiveItems_middle by done.
      rewrite length_app. done. }
    exists (p - 1 - k)%nat, y.
    replace ((t + length (interactiveItems xs) - 1)
               mod length (interactiveItems xs))%nat
      with (length (interactiveItems l1)).
    2:{ replace (t + length (interactiveItems xs) - 1)%nat
          with (length (interactiveItems l1) + 1 * length (interactiveItems xs))%nat by lia.
        rewrite Nat.Div0.mod_add. rewrite Nat.mod_small; lia. }
    split_and!; [done| |].
    + rewrite Hsplit, Htake, interactiveItems_middle by done.
      rewrite <- app_assoc. cbn [app]. by rewrite list_lookup_middle.
    + replace (p - 1 - k)%nat with (length l1) by lia.
      assert (take (length l1) xs = l1) as ->; [|done].
      replace (take (length l1) xs) with (take (length l1) (take p xs))
        by (rewrite take_take; f_equal; lia).
      rewrite Htake. by rewrite take_app_length.
  - pose proof (list_find_reverse_None _ Hf) as Hnil.
    assert (Ht : t = 0%nat) by (subst t; by rewrite Hnil).
    assert (is_Some (last_interactive xs)) as [[j y] Hlast].
    { apply last_interactive_is_Some. exists x. split; [|done].
      by eapply list_elem_of_lookup_2. }
    exists j, y. destruct (last_interactive_rank _ _ _ Hlast) as [H1 H2].
    replace ((t + length (interactiveItems xs) - 1)
               mod length (interactiveItems xs))%nat
      with (length (interactiveItems xs) - 1)%nat.
    2:{ rewrite Ht. cbn [Nat.add]. rewrite Nat.mod_small; lia. }
    by split_and!.
Qed.


(** ** Runs of the Down key *)

Lemma same_frame_refl (m : Menu) : same_frame m m.
Proof. by split_and!. Qed.

Lemma same_frame_trans (m1 m2 m3 : Menu) :
  same_frame m1 m2 -> same_frame m2 m3 -> same_frame m1 m3.
Proof.
  intros (A1 & A2 & A3 & A4 & A5) (B1 & B2 & B3 & B4 & B5).
  split_and!; try congruence. intros o. by rewrite B5, A5.
Qed.

Lemma same_frame_items (m m' : Menu) : same_frame m m' -> get_items m' = get_items m.
Proof. intros (A1 & _). unfold get_items. by rewrite A1. Qed.

Lemma same_frame_has_element (m m' : Menu) (x : IMenuItem) :
  same_frame m m' -> has_element m' x ↔ has_element m x.
Proof. intros (_ & _ & _ & _ & A5). apply A5. Qed.

Lemma handleItemFocus_frame (y : IMenuItem) (m : Menu) :
  same_frame m (fst (_handleItemFocus y m)).
Proof. by destruct (handleItemFocus_spec y m) as (Hf & _). Qed.

Lemma indexOf_unique (items : list IMenuItem) (p : nat) (y : IMenuItem) :
  objects_ok items -> NoDup (interactiveItems items) ->
  items !! p = Some y -> interactive y = true ->
  indexOf same_item items y = Z.of_nat p.
Proof.
  intros Hok Hnd Hp Hy.
  rewrite <- (take_drop_middle _ _ _ Hp).
  replace p with (length (take p items)) at 3
    by (rewrite length_take; apply lookup_lt_Some in Hp; lia).
  apply indexOf_first; [|apply Nat.eqb_refl].
  intros z Hz. destruct (same_item z y) eqn:Hs; [|done]. exfalso.
  apply Nat.eqb_eq in Hs.
  assert (z = y) as ->.
  { apply Hok; [|by eapply list_elem_of_lookup_2|done].
    rewrite <- (take_drop p items). apply elem_of_app. by left. }
  rewrite (interactiveItems_split p items) in Hnd.
  apply NoDup_app in Hnd as (_ & Hdisj & _).
  apply (Hdisj y).
  - by apply elem_of_interactiveItems.
  - apply elem_of_interactiveItems. split; [|done].
    rewrite (drop_S _ _ _ Hp). left.
Qed.

Lemma currentPos_of_active (m : Menu) (p : nat) (y : IMenuItem) :
  objects_ok (get_items m) -> NoDup (interactiveItems (get_items m)) ->
  _activeItem m = Some y -> get_items m !! p = Some y -> interactive y = true ->
  currentPos m = Some p.
Proof.
  intros Hok Hnd Ha Hp Hy. unfold currentPos, indexOf_item. rewrite Ha. cbv zeta.
  rewrite (indexOf_unique _ p y) by done.
  destruct (Z.eqb_spec (Z.of_nat p) (-1)); [lia|]. by rewrite Nat2Z.id.
Qed.

(** Down from no active item: the first interactive item becomes active. *)
Lemma down_first (m : Menu) (iconFocused : bool) (fuel : nat) :
  keydownListener m = true -> iconFocused || isOpen m = true ->
  (∃ x, x ∈ get_items m ∧ interactive x = true) ->
  (2 * length (get_items m) ≤ fuel)%nat ->
  _activeItem m = None ->
  let m' := fst (keydown fuel iconFocused 40 m) in
  ∃ y, interactiveItems (get_items m) !! 0%nat = Some y ∧
       _activeItem m' = Some y ∧ same_frame m m'.
Proof.
  intros Hl Hg Hex Hfuel Ha. cbn zeta.
  destruct (keydown_arrow iconFocused 40 m Hl Hg (or_intror eq_refl) Hex)
    as (j & y & Hnext & Hj & Hy & Hkey).
  change (40 =? 40) with true in Hnext. cbv iota in Hnext.
  rewrite (currentPos_no_active m Ha) in Hnext. cbn [next_interactive] in Hnext.
  destruct (first_interactive_rank _ _ _ Hnext) as [Hr _].
  exists y. rewrite (Hkey fuel Hfuel). split_and!; [done| |apply handleItemFocus_frame].
  destruct (handleItemFocus_spec y m) as (_ & _ & _ & Hcase).
  unfold is_active in Hcase. rewrite Ha in Hcase. by destruct (Hcase eq_refl).
Qed.

(** Down from an active item that has an element: the interactive item of
    the next rank becomes active. *)
Lemma down_step (m : Menu) (iconFocused : bool) (fuel t : nat) (y : IMenuItem) :
  keydownListener m = true -> iconFocused || isOpen m = true ->
  objects_ok (get_items m) -> NoDup (interactiveItems (get_items m)) ->
  (2 * length (get_items m) ≤ fuel)%nat ->
  _activeItem m = Some y ->
  interactiveItems (get_items m) !! t = Some y ->
  has_element m y ->
  let m' := fst (keydown fuel iconFocused 40 m) in
  ∃ y', interactiveItems (get_items m) !!
          ((t + 1) mod length (interactiveItems (get_items m)))%nat = Some y' ∧
        _activeItem m' = Some y' ∧ same_frame m m'.
Proof.
  intros Hl Hg Hok Hnd Hfuel Ha Ht Hel. cbn zeta.
  destruct (interactiveItems_rank _ _ _ Ht) as (p & Hp & Hy & Hrank).
  assert (Hex : ∃ x, x ∈ get_items m ∧ interactive x = true).
  { exists y. split; [by eapply list_elem_of_lookup_2 | done]. }
  destruct (keydown_arrow iconFocused 40 m Hl Hg (or_intror eq_refl) Hex)
    as (j & y' & Hnext & Hj & Hy' & Hkey).
  change (40 =? 40) with true in Hnext. cbv iota in Hnext.
  rewrite (currentPos_of_active m p y Hok Hnd Ha Hp Hy) in Hnext.
  destruct (next_interactive_rank _ _ _ Hp Hy) as (j' & y'' & Hnext' & Hr & _).
  rewrite Hnext in Hnext'. simplify_eq.
  exists y''. rewrite (Hkey fuel Hfuel).
  split_and!; [done| |apply handleItemFocus_frame].
  destruct (handleItemFocus_spec y'' m) as (_ & _ & Hsame & Hcase).
  destruct (is_active y'' m) eqn:Hact.
  - rewrite (Hsame eq_refl). cbn [fst]. rewrite Ha. f_equal.
    unfold is_active in Hact. rewrite Ha in Hact. apply Nat.eqb_eq in Hact.
    symmetry. apply Hok; [by eapply list_elem_of_lookup_2 .. | done].
  - specialize (Hcase eq_refl). rewrite Ha in Hcase.
    rewrite bool_decide_eq_true_2 in Hcase by done. by destruct Hcase.
Qed.

Lemma press_snoc (fuel : nat) (iconFocused : bool) (keys : list Z) (k : Z) (m : Menu) :
  press fuel iconFocused (keys ++ [k]) m =
    fst (keydown fuel iconFocused k (press fuel iconFocused keys m)).
Proof. unfold press. by rewrite foldl_app. Qed.

Lemma replicate_snoc {A} (n : nat) (x : A) :
  replicate (S n) x = replicate n x ++ [x].
Proof. induction n as [|n IH]; [done|]. cbn [replicate app] in *. by rewrite <- IH. Qed.

(** After [n] presses of Down from no active item the interactive item of
    rank [n - 1], circularly, is active, as long as the items that were
    active on the way have elements. *)
Lemma downs_rank (m : Menu) (iconFocused : bool) (fuel : nat) :
  keydownListener m = true -> iconFocused || isOpen m = true ->
  objects_ok (get_items m) -> NoDup (interactiveItems (get_items m)) ->
  (∃ x, x ∈ get_items m ∧ interactive x = true) ->
  (2 * length (get_items m) ≤ fuel)%nat ->
  _activeItem m = None ->
  ∀ n,
    (∀ t y, (t < n)%nat ->
            interactiveItems (get_items m) !!
              (t mod length (interactiveItems (get_items m)))%nat = Some y ->
            has_element m y) ->
    let m' := press fuel iconFocused (replicate (S n) 40) m in
    ∃ y, interactiveItems (get_items m) !!
           (n mod length (interactiveItems (get_items m)))%nat = Some y ∧
         _activeItem m' = Some y ∧ same_frame m m'.
Proof.
  intros Hl Hg Hok Hnd Hex Hfuel Ha.
  assert (Hlen : (0 < length (interactiveItems (get_items m)))%nat).
  { destruct Hex as (x & Hx & Hi).
    assert (Hin : x ∈ interactiveItems (get_items m)) by (by apply elem_of_interactiveItems).
    destruct (interactiveItems (get_items m)); [by apply elem_of_nil in Hin | simpl; lia]. }
  induction n as [|n IH]; intros Hels; cbn zeta.
  - change (replicate 1 40) with ([] ++ [40]). rewrite press_snoc.
    change (press fuel iconFocused [] m) with m.
    rewrite Nat.Div0.mod_0_l. by apply down_first.
  - rewrite replicate_snoc, press_snoc.
    destruct IH as (y & Hy & Hact & Hframe).
    { intros t y' Ht. apply Hels. lia. }
    set (mn := press fuel iconFocused (replicate (S n) 40) m) in *.
    pose proof (same_frame_items _ _ Hframe) as Hitems.
    destruct Hframe as (F1 & F2 & F3 & F4 & F5).
    destruct (down_step mn iconFocused fuel
                (n mod length (interactiveItems (get_items m)))%nat y)
      as (y' & Hy' & Hact' & Hframe'); rewrite ?Hitems, ?F2, ?F3; try done.
    { apply F5. apply (Hels n y); [lia | done]. }
    exists y'. split_and!; [|done|].
    + rewrite Hitems in Hy'. rewrite Nat.Div0.add_mod_idemp_l in Hy'.
      by replace (S n) with (n + 1)%nat by lia.
    + eapply same_frame_trans; [|exact Hframe']. by split_and!.
Qed.

(** Up from no active item: the last interactive item becomes active. *)
Lemma up_first (m : Menu) (iconFocused : bool) (fuel : nat) :
  keydownListener m = true -> iconFocused || isOpen m = true ->
  (∃ x, x ∈ get_items m ∧ interactive x = true) ->
  (2 * length (get_items m) ≤ fuel)%nat ->
  _activeItem m = None ->
  let m' := fst (keydown fuel iconFocused 38 m) in
  ∃ y, interactiveItems (get_items m) !!
         (length (interactiveItems (get_items m)) - 1)%nat = Some y ∧
       _activeItem m' = Some y ∧ same_frame m m'.
Proof.
  intros Hl Hg Hex Hfuel Ha. cbn zeta.
  destruct (keydown_arrow iconFocused 38 m Hl Hg (or_introl eq_refl) Hex)
    as (j & y & Hprev & Hj & Hy & Hkey).
  change (38 =? 40) with false in Hprev. cbv iota in Hprev.
  rewrite (currentPos_no_active m Ha) in Hprev. cbn [prev_interactive] in Hprev.
  destruct (last_interactive_rank _ _ _ Hprev) as [Hr _].
  exists y. rewrite (Hkey fuel Hfuel). split_and!; [done| |apply handleItemFocus_frame].
  destruct (handleItemFocus_spec y m) as (_ & _ & _ & Hcase).
  unfold is_active in Hcase. rewrite Ha in Hcase. by destruct (Hcase eq_refl).
Qed.

(** Up from an active item that has an element: the interactive item of
    the previous rank becomes active. *)
Lemma up_step (m : Menu) (iconFocused : bool) (fuel t : nat) (y : IMenuItem) :
  keydownListener m = true -> iconFocused || isOpen m = true ->
  objects_ok (get_items m) -> NoDup (interactiveItems (get_items m)) ->
  (2 * length (get_items m) ≤ fuel)%nat ->
  _activeItem m = Some y ->
  interactiveItems (get_items m) !! t = Some y ->
  has_element m y ->
  let m' := fst (keydown fuel iconFocused 38 m) in
  ∃ y', interactiveItems (get_items m) !!
          ((t + length (interactiveItems (get_items m)) - 1)
             mod length (interactiveItems (get_items m)))%nat = Some y' ∧
        _activeItem m' = Some y' ∧ same_frame m m'.
Proof.
  intros Hl Hg Hok Hnd Hfuel Ha Ht Hel. cbn zeta.
  destruct (interactiveItems_rank _ _ _ Ht) as (p & Hp & Hy & Hrank).
  assert (Hex : ∃ x, x ∈ get_items m ∧ interactive x = true).
  { exists y. split; [by eapply list_elem_of_lookup_2 | done]. }
  destruct (keydown_arrow iconFocused 38 m Hl Hg (or_introl eq_refl) Hex)
    as (j & y' & Hprev & Hj & Hy' & Hkey).
  change (38 =? 40) with false in Hprev. cbv iota in Hprev.
  rewrite (currentPos_of_active m p y Hok Hnd Ha Hp Hy) in Hprev.
  destruct (prev_interactive_rank _ _ _ Hp Hy) as (j' & y'' & Hprev' & Hr & _).
  rewrite Hprev in Hprev'. simplify_eq.
  exists y''. rewrite (Hkey fuel Hfuel).
  split_and!; [done| |apply handleItemFocus_frame].
  destruct (handleItemFocus_spec y'' m) as (_ & _ & Hsame & Hcase).
  destruct (is_active y'' m) eqn:Hact.
  - rewrite (Hsame eq_refl). cbn [fst]. rewrite Ha. f_equal.
    unfold is_active in Hact. rewrite Ha in Hact. apply Nat.eqb_eq in Hact.
    symmetry. apply Hok; [by eapply list_elem_of_lookup_2 .. | done].
  - specialize (Hcase eq_refl). rewrite Ha in Hcase.
    rewrite bool_decide_eq_true_2 in Hcase by done. by destruct Hcase.
Qed.

Lemma startIndex_top (m : Menu) (keyCode : Z) :
  valign (_settings m) = Some "top" -> _activeItem m = None ->
  startIndex m keyCode =
    Z.of_nat (length (get_items m)) + (if keyCode =? 38 then -1 else 1).
Proof.
  intros Hv Ha. unfold startIndex, indexOf_item. rewrite Ha, Hv. cbv zeta.
  by rewrite bool_decide_eq_true_2.
Qed.

(** Navigation over rendered items.  The item objects of the list are
    distinct and the list has an interactive item.  From an active item
    that has a rendered element, Down makes the next interactive item the
    active one and Up the previous one, in the circular order of the
    interactive items.  From no active item, Down makes the first
    interactive item active and Up the last; in a top-aligned menu the
    search then starts one step from the position just past the end of the
    list.  When every interactive item has a rendered element, presses of
    Down from no active item go through all the interactive items in order
    and around again.  The active item is never a separator. *)
Theorem arrow_keys_cycle (m : Menu) (iconFocused : bool) (fuel : nat) :
  keydownListener m = true ->
  iconFocused || isOpen m = true ->
  objects_ok (get_items m) ->
  NoDup (interactiveItems (get_items m)) ->
  (∃ x, x ∈ get_items m ∧ interactive x = true) ->
  (2 * length (get_items m) ≤ fuel)%nat ->
  let inter := interactiveItems (get_items m) in
  let down := fst (keydown fuel iconFocused 40 m) in
  let up := fst (keydown fuel iconFocused 38 m) in
  (∀ t y, _activeItem m = Some y -> inter !! t = Some y -> has_element m y ->
     _activeItem down = inter !! ((t + 1) mod length inter)%nat ∧
     _activeItem up = inter !! ((t + length inter - 1) mod length inter)%nat) ∧
  (_activeItem m = None ->
     (valign (_settings m) = Some "top" ->
      startIndex m 40 = Z.of_nat (length (get_items m)) + 1 ∧
      startIndex m 38 = Z.of_nat (length (get_items m)) + -1) ∧
     _activeItem down = inter !! 0%nat ∧
     _activeItem up = inter !! (length inter - 1)%nat ∧
     ((∀ y, y ∈ inter -> has_element m y) ->
      ∀ n, _activeItem (press fuel iconFocused (replicate (S n) 40) m) =
           inter !! (n mod length inter)%nat)) ∧
  (∀ y, y ∈ inter -> interactive y = true).
Proof.
  intros Hl Hg Hok Hnd Hex Hfuel. cbn zeta. split_and!.
  - intros t y Ha Ht Hel. split.
    + destruct (down_step m iconFocused fuel t y) as (y' & -> & -> & _); done.
    + destruct (up_step m iconFocused fuel t y) as (y' & -> & -> & _); done.
  - intros Ha. split_and!.
    + intros Hv. split; by rewrite startIndex_top.
    + destruct (down_first m iconFocused fuel) as (y' & -> & -> & _); done.
    + destruct (up_first m iconFocused fuel) as (y' & -> & -> & _); done.
    + intros Hels n.
      destruct (downs_rank m iconFocused fuel Hl Hg Hok Hnd Hex Hfuel Ha n)
        as (y' & -> & -> & _); [|done].
      intros t y _ Hy. apply Hels. by eapply list_elem_of_lookup_2.
  - intros y Hy. by apply elem_of_interactiveItems in Hy as [_ ?].
Qed.


(** ** Items that are not rendered *)

Lemma createItems_fields (m : Menu) (e : Exporting) :
  exporting (_settings m) = Some e ->
  let m' := createItems m in
  let kept := List.filter (λ x, negb (skipped e x)) (get_items m) in
  map li_item (_itemElements m') = kept ∧
  (∀ o, element m' !! o =
        match last (List.filter (λ x, Nat.eqb (oid x) o) kept) with
        | Some x => Some (renderAnchor (_root m) x)
        | None => element m !! o
        end) ∧
  _settings m' = _settings m ∧ _activeItem m' = _activeItem m ∧
  isOpen m' = isOpen m ∧ keydownListener m' = keydownListener m.
Proof.
  intros He. cbn zeta. rewrite (createItems_unfold m e He).
  destruct (createItems_loop_spec e (get_items m) (set_itemElements (λ _, []) m))
    as (H1 & H2 & H3 & H4 & H5 & H6 & H7 & _).
  split_and!; try done.
  rewrite H1. cbn [_itemElements set_itemElements app]. rewrite map_map.
  rewrite (map_ext _ id) by done. by rewrite map_id.
Qed.

Lemma createItems_rendered_has_element (m : Menu) (e : Exporting) (x : IMenuItem) :
  exporting (_settings m) = Some e ->
  x ∈ get_items m -> skipped e x = false ->
  has_element (createItems m) x.
Proof.
  intros He Hx Hs. destruct (createItems_fields m e He) as (_ & Hel & _).
  unfold has_element. rewrite Hel.
  destruct (last _) as [z|] eqn:Hlast; [eauto|].
  apply last_None in Hlast. exfalso.
  assert (Hin : In x (List.filter (λ z, Nat.eqb (oid z) (oid x))
                        (List.filter (λ z, negb (skipped e z)) (get_items m)))).
  { apply List.filter_In. split; [|apply Nat.eqb_refl].
    apply List.filter_In. split; [by apply list_elem_of_In | by rewrite Hs]. }
  by rewrite Hlast in Hin.
Qed.

Lemma createItems_skipped_no_element (m : Menu) (e : Exporting) (x : IMenuItem) :
  exporting (_settings m) = Some e ->
  objects_ok (get_items m) ->
  x ∈ get_items m -> skipped e x = true -> ¬ has_element m x ->
  ¬ has_element (createItems m) x ∧ x ∉ map li_item (_itemElements (createItems m)).
Proof.
  intros He Hok Hx Hs Hno. destruct (createItems_fields m e He) as (Hli & Hel & _).
  split.
  - unfold has_element. rewrite Hel.
    destruct (List.filter (λ z, Nat.eqb (oid z) (oid x)) _) as [|z zs] eqn:Hf; [done|].
    exfalso.
    assert (Hin : In z (List.filter (λ z, Nat.eqb (oid z) (oid x))
                          (List.filter (λ z, negb (skipped e z)) (get_items m))))
      by (rewrite Hf; by left).
    apply List.filter_In in Hin as [Hin Hoid].
    apply List.filter_In in Hin as [Hin Hsk].
    apply Nat.eqb_eq in Hoid.
    assert (z = x) as -> by (apply Hok; [by apply list_elem_of_In | done | done]).
    by rewrite Hs in Hsk.
  - rewrite Hli. intros Hin. apply list_elem_of_In, List.filter_In in Hin as [_ Hsk].
    by rewrite Hs in Hsk.
Qed.

(** C10. The arrow keys search the configured item list, whatever was
    rendered.  In a menu just built for an exporter, with distinct item
    objects and an interactive item that the exporter does not support,
    some such item, which [createItems] did not render and which has no
    element, becomes the active item after a number of presses of Down. *)
Theorem unrendered_item_becomes_active (m0 : Menu) (e : Exporting) (iconFocused : bool) :
  exporting (_settings m0) = Some e ->
  keydownListener m0 = true ->
  iconFocused || isOpen m0 = true ->
  _activeItem m0 = None ->
  objects_ok (get_items m0) ->
  NoDup (interactiveItems (get_items m0)) ->
  (∀ x, x ∈ get_items m0 -> skipped e x = true -> ¬ has_element m0 x) ->
  (∃ x, x ∈ get_items m0 ∧ interactive x = true ∧ skipped e x = true) ->
  let m := createItems m0 in
  (∀ keyCode, keyCode = 38 ∨ keyCode = 40 ->
     ∃ j y, (if keyCode =? 40 then next_interactive else prev_interactive)
              (get_items m0) (currentPos m) = Some (j, y) ∧
            ∀ fuel, (2 * length (get_items m0) ≤ fuel)%nat ->
                    keydown fuel iconFocused keyCode m = _handleItemFocus y m) ∧
  ∃ n u, u ∈ get_items m0 ∧ interactive u = true ∧ skipped e u = true ∧
         (u ∉ map li_item (_itemElements m)) ∧ ¬ has_element m u ∧
         ∀ fuel, (2 * length (get_items m0) ≤ fuel)%nat ->
                 _activeItem (press fuel iconFocused (replicate n 40) m) = Some u.
Proof.
  intros He Hl Hg Ha Hok Hnd Hnone Hex. cbn zeta.
  destruct (createItems_fields m0 e He) as (_ & _ & Hset & Hact & Hopen & Hlis).
  assert (Hitems : get_items (createItems m0) = get_items m0)
    by (unfold get_items; by rewrite Hset).
  assert (Hex' : ∃ x, x ∈ get_items (createItems m0) ∧ interactive x = true).
  { destruct Hex as (x & ? & ? & _). exists x. by rewrite Hitems. }
  split.
  - intros keyCode Hk.
    destruct (keydown_arrow iconFocused keyCode (createItems m0)) as (j & y & Hn & _ & _ & Hkey);
      rewrite ?Hlis, ?Hopen; try done.
    rewrite Hitems in Hn, Hkey. eauto.
  - assert (is_Some (list_find (λ x, interactive x && skipped e x) (get_items m0)))
      as [[p u] Hfind].
    { destruct Hex as (x & Hx & Hi & Hs). eapply list_find_elem_of; [exact Hx|].
      by rewrite Hi, Hs. }
    apply list_find_Some in Hfind as (Hp & Hu & Hmin).
    apply andb_prop_elim in Hu as [Hui Hus].
    apply Is_true_true in Hui, Hus.
    assert (Huin : u ∈ get_items m0) by (by eapply list_elem_of_lookup_2).
    destruct (createItems_skipped_no_element m0 e u He Hok Huin Hus (Hnone u Huin Hus))
      as [Hnoel Hnoli].
    set (T := length (interactiveItems (take p (get_items m0)))).
    pose proof (interactiveItems_at_rank _ _ _ Hp Hui) as HT. fold T in HT.
    pose proof (lookup_lt_Some _ _ _ HT) as HTlt.
    exists (S T), u. split_and!; try done.
    intros fuel Hfuel.
    pose proof (downs_rank (createItems m0) iconFocused fuel) as Hd.
    rewrite Hitems, Hlis, Hopen, Hact in Hd.
    assert (Hex0 : ∃ x, x ∈ get_items m0 ∧ interactive x = true)
      by (exists u; done).
    specialize (Hd Hl Hg Hok Hnd Hex0 Hfuel Ha T). cbn zeta in Hd.
    destruct Hd as (y & Hy & Hy' & _).
    + intros t y Ht. rewrite Nat.mod_small by lia.
      rewrite (interactiveItems_split p (get_items m0)).
      rewrite lookup_app_l by done. intros Hy.
      apply list_elem_of_lookup_2, elem_of_interactiveItems in Hy as [Hy Hyi].
      apply list_elem_of_lookup_1 in Hy as [q Hq].
      pose proof (lookup_lt_Some _ _ _ Hq) as Hqlt. rewrite length_take in Hqlt.
      rewrite lookup_take_lt in Hq by lia.
      apply createItems_rendered_has_element with (e := e);
        [done|by eapply list_elem_of_lookup_2|].
      destruct (skipped e y) eqn:Hsy; [|done]. exfalso.
      apply (Hmin q y Hq); [lia|]. by rewrite Hyi, Hsy.
    + rewrite Nat.mod_small in Hy by done. congruence.
Qed.


(** ** The theorems at the example menus *)

Lemma defaultItems_well_typed (r : Root) : Forall well_typed (defaultItems r).
Proof. repeat constructor; done. Qed.

Lemma createItems_renders_witness :
  map (λ li, oid (li_item li)) (_itemElements (createItems exampleNewMenu))
    = [0; 1; 4; 6; 10]%nat ∧
  formatLabels (createItems exampleNewMenu) = ["PNG"; "CSV"].
Proof.
  destruct (createItems_renders exampleNewMenu
              exampleExporting eq_refl (defaultItems_well_typed exampleRoot)) as [H1 H2].
  split.
  - rewrite <- (map_map li_item oid), H1. vm_compute. reflexivity.
  - exact (H2 exampleRoot true).
Defined.

Lemma handleClick_exports_witness :
  let png := mkItem 1%nat TFormat (Some "png") (Some "image") (Some "PNG") (Some "Image")
                    None None in
  let print := mkItem 11%nat TFormat (Some "print") (Some "print") (Some "Print") None
                      None None in
  log (fst (_handleClick png exampleMenu)) =
    log exampleMenu ++ [UtilsBlur; Dispatch "menuclosed"] ++ [ExportingDownload (Some "png")] ∧
  log (fst (_handleClick print exampleMenu)) =
    log exampleMenu ++ [UtilsBlur; Dispatch "menuclosed"] ++ [ExportingPrint].
Proof.
  cbn zeta. split.
  - exact (proj1 (proj2 (handleClick_exports exampleMenu exampleExporting
             (mkItem 1%nat TFormat (Some "png") (Some "image") (Some "PNG") (Some "Image")
                     None None) eq_refl))).
  - exact (proj1 (proj2 (handleClick_exports exampleMenu exampleExporting
             (mkItem 11%nat TFormat (Some "print") (Some "print") (Some "Print") None
                     None None) eq_refl))).
Defined.

Lemma exampleMenu_interactive :
  ∃ x, x ∈ get_items exampleMenu ∧ interactive x = true.
Proof.
  exists (mkItem 1%nat TFormat (Some "png") (Some "image") (Some "PNG") (Some "Image")
                 None None).
  split; [|done]. change (get_items exampleMenu) with (defaultItems exampleRoot).
  unfold defaultItems. set_solver.
Qed.

Lemma separatorMenu_separators :
  ∀ x, x ∈ get_items separatorMenu -> interactive x = false.
Proof.
  intros x Hx. change (get_items separatorMenu)
    with [mkItem 0%nat TSeparator None None None None None None] in Hx.
  apply list_elem_of_singleton in Hx as ->. done.
Qed.

Lemma arrow_search_terminates_witness :
  (∀ fuel, (24 ≤ fuel)%nat -> snd (keydown fuel false 40 exampleMenu) ≠ Diverges) ∧
  (∀ fuel, keydown fuel false 38 separatorMenu = (separatorMenu, Diverges)).
Proof.
  split.
  - exact (proj2 (proj1 (arrow_search_terminates exampleMenu false 40
                           eq_refl eq_refl (or_intror eq_refl)
                           (λ H, eq_ind (get_items exampleMenu)
                                   (λ l, match l with [] => False | _ => True end)
                                   I [] H))
                    exampleMenu_interactive)).
  - intros fuel.
    exact (proj2 (proj2 (arrow_search_terminates separatorMenu false 38
                           eq_refl eq_refl (or_introl eq_refl)
                           (λ H, eq_ind (get_items separatorMenu)
                                   (λ l, match l with [] => False | _ => True end)
                                   I [] H))
                    separatorMenu_separators fuel)).
Defined.

Lemma objects_ok_NoDup (xs : list IMenuItem) : NoDup (map oid xs) -> objects_ok xs.
Proof.
  intros Hnd x y Hx Hy Hoid.
  apply list_elem_of_lookup_1 in Hx as [i Hi], Hy as [j Hj].
  assert (i = j) as ->; [|congruence].
  eapply NoDup_lookup; [exact Hnd| |].
  - change (map oid xs) with (oid <$> xs). rewrite list_lookup_fmap, Hi. done.
  - change (map oid xs) with (oid <$> xs). rewrite list_lookup_fmap, Hj. simpl.
    by rewrite Hoid.
Qed.

Lemma interactiveItems_NoDup (xs : list IMenuItem) :
  NoDup (map oid xs) -> NoDup (interactiveItems xs).
Proof.
  induction xs as [|x xs IH]; [constructor|].
  cbn [map]. intros Hnd. apply NoDup_cons in Hnd as [Hx Hnd].
  unfold interactiveItems in *. cbn [List.filter].
  destruct (interactive x); [|by apply IH].
  apply NoDup_cons. split; [|by apply IH].
  intros Hin. apply list_elem_of_In, List.filter_In in Hin as [Hin _].
  apply Hx. apply list_elem_of_In, List.in_map. done.
Qed.

Lemma defaultItems_oids (r : Root) : NoDup (map oid (defaultItems r)).
Proof.
  cbn. repeat (apply NoDup_cons_2; [set_solver|]). apply NoDup_nil_2.
Qed.

Lemma fullMenu_items : get_items fullMenu = defaultItems exampleRoot.
Proof. reflexivity. Qed.

Lemma fullMenu_elements :
  ∀ y, y ∈ interactiveItems (get_items fullMenu) -> has_element fullMenu y.
Proof.
  intros y Hy. rewrite fullMenu_items in Hy. cbn in Hy.
  repeat (apply elem_of_cons in Hy as [->|Hy]; [vm_compute; eauto|]).
  apply elem_of_nil in Hy. destruct Hy.
Qed.

Lemma arrow_keys_cycle_witness :
  oid <$> _activeItem (fst (keydown 24 false 38 fullMenu)) = Some 11%nat ∧
  oid <$> _activeItem (press 24 false (replicate 9 40) fullMenu) = Some 11%nat ∧
  oid <$> _activeItem (press 24 false (replicate 10 40) fullMenu) = Some 1%nat.
Proof.
  destruct (arrow_keys_cycle fullMenu false 24 eq_refl eq_refl
              (objects_ok_NoDup _ (defaultItems_oids exampleRoot))
              (interactiveItems_NoDup _ (defaultItems_oids exampleRoot))
              (ex_intro _ (mkItem 1%nat TFormat (Some "png") (Some "image") (Some "PNG")
                                  (Some "Image") None None)
                 (conj (list_elem_of_further _ _ _ (list_elem_of_here _ _)) eq_refl))
              (le_n 24)) as (_ & Hnone & _).
  destruct (Hnone eq_refl) as (_ & _ & Hu & Hc).
  specialize (Hc fullMenu_elements).
  split_and!.
  - rewrite Hu. vm_compute. reflexivity.
  - rewrite (Hc 8%nat). vm_compute. reflexivity.
  - rewrite (Hc 9%nat). vm_compute. reflexivity.
Defined.

(** C6, at the inputs where the code departs from it.  In the menu built
    from the default items for an exporter of PNG and CSV, two presses of
    Down make the JPG item active, which has no element; the next press
    throws a TypeError and leaves it active, and so does every press after
    it, and Up as well, while the next interactive item of the list is the
    PDF item.  In a
    menu whose list holds the PNG item object twice, with every item
    rendered, Down goes from the second occurrence back to the JPG item,
    and the PDF item after it is never reached. *)
Theorem arrow_down_stuck :
  (oid <$> _activeItem (press 24 false [40; 40] exampleMenu) = Some 2%nat ∧
   element (press 24 false [40; 40] exampleMenu) !! 2%nat = None ∧
   keydown 24 false 40 (press 24 false [40; 40] exampleMenu)
     = (press 24 false [40; 40] exampleMenu, TypeError) ∧
   keydown 24 false 38 (press 24 false [40; 40] exampleMenu)
     = (press 24 false [40; 40] exampleMenu, TypeError) ∧
   (∀ n, press 24 false (replicate n 40) (press 24 false [40; 40] exampleMenu)
         = press 24 false [40; 40] exampleMenu) ∧
   oid <$> interactiveItems (get_items exampleMenu) !! 2%nat = Some 3%nat) ∧
  (map oid (interactiveItems (get_items duplicateMenu)) = [1; 2; 1; 3]%nat ∧
   (∀ x, x ∈ get_items duplicateMenu -> has_element duplicateMenu x) ∧
   oid <$> _activeItem (press 24 false (replicate 3 40) duplicateMenu) = Some 1%nat ∧
   oid <$> _activeItem (press 24 false (replicate 4 40) duplicateMenu) = Some 2%nat ∧
   oid <$> _activeItem (press 24 false (replicate 5 40) duplicateMenu) = Some 1%nat ∧
   oid <$> _activeItem (press 24 false (replicate 6 40) duplicateMenu) = Some 2%nat).
Proof.
  assert (Hstuck : keydown 24 false 40 (press 24 false [40; 40] exampleMenu)
                   = (press 24 false [40; 40] exampleMenu, TypeError))
    by (vm_compute; reflexivity).
  split; split_and!.
  - vm_compute. reflexivity.
  - vm_compute. reflexivity.
  - exact Hstuck.
  - vm_compute. reflexivity.
  - revert Hstuck. generalize (press 24 false [40; 40] exampleMenu).
    intros m Hstuck n. induction n as [|n IH]; [reflexivity|].
    rewrite replicate_snoc, press_snoc, IH, Hstuck. reflexivity.
  - vm_compute. reflexivity.
  - vm_compute. reflexivity.
  - intros x Hx. change (get_items duplicateMenu) with
      [mkItem 1%nat TFormat (Some "png") (Some "image") (Some "PNG") None None None;
       mkItem 2%nat TFormat (Some "jpg") (Some "image") (Some "JPG") None None None;
       mkItem 1%nat TFormat (Some "png") (Some "image") (Some "PNG") None None None;
       mkItem 3%nat TFormat (Some "pdf") (Some "image") (Some "PDF") None None None] in Hx.
    repeat (apply elem_of_cons in Hx as [->|Hx]; [vm_compute; eauto|]).
    apply elem_of_nil in Hx. destruct Hx.
  - vm_compute. reflexivity.
  - vm_compute. reflexivity.
  - vm_compute. reflexivity.
  - vm_compute. reflexivity.
Qed.

Lemma exampleNewMenu_no_elements :
  ∀ x, x ∈ get_items exampleNewMenu -> skipped exampleExporting x = true ->
       ¬ has_element exampleNewMenu x.
Proof.
  intros x _ _ [a Ha].
  change (element exampleNewMenu) with (∅ : gmap ref Anchor) in Ha.
  by rewrite lookup_empty in Ha.
Qed.

Lemma unrendered_item_becomes_active_witness :
  ∃ n u, u ∈ get_items exampleNewMenu ∧ interactive u = true ∧
         skipped exampleExporting u = true ∧
         (u ∉ map li_item (_itemElements (createItems exampleNewMenu))) ∧
         ¬ has_element (createItems exampleNewMenu) u ∧
         ∀ fuel, (2 * length (get_items exampleNewMenu) ≤ fuel)%nat ->
                 _activeItem (press fuel true (replicate n 40) (createItems exampleNewMenu))
                   = Some u.
Proof.
  exact (proj2 (unrendered_item_becomes_active exampleNewMenu exampleExporting true
                  eq_refl eq_refl eq_refl eq_refl
                  (objects_ok_NoDup _ (defaultItems_oids exampleRoot))
                  (interactiveItems_NoDup _ (defaultItems_oids exampleRoot))
                  exampleNewMenu_no_elements
                  (ex_intro _ (mkItem 2%nat TFormat (Some "jpg") (Some "image") (Some "JPG")
                                      (Some "Image") None None)
                     (conj (list_elem_of_further _ _ _
                              (list_elem_of_further _ _ _ (list_elem_of_here _ _)))
                           (conj eq_refl eq_refl))))).
Defined.

End ExportingMenuFacts.

(* ===================================================================== *)
(** * The menu under events *)
(* ===================================================================== *)

Module ExportingMenuEvents.

Import ExportingMenu.

Open Scope Z_scope.

(** ** The steps of the handlers *)

Lemma handleClick_fst (x : IMenuItem) (m : Menu) :
  fst (_handleClick x m) =
    let m1 := if default false (autoClose (_settings m)) then close m else m in
    match exporting (_settings m) with
    | Some _ => effect (exportCall x) m1
    | None => m1
    end.
Proof.
  unfold _handleClick, seq, lift, ret, exporting_call, exportCall.
  destruct (default false (autoClose (_settings m))), (is_print (format x));
    cbn; destruct (exporting (_settings m)); reflexivity.
Qed.

Section Steps.

Variable R : Menu -> Menu -> Prop.
Hypothesis R_refl : ∀ m, R m m.
Hypothesis R_trans : ∀ m1 m2 m3, R m1 m2 -> R m2 m3 -> R m1 m3.
Hypothesis R_open : ∀ m, R m (open m).
Hypothesis R_close : ∀ m, R m (close m).
Hypothesis R_createItems : ∀ m, R m (createItems m).
Hypothesis R_applyClassNames : ∀ m, R m (_applyClassNames m).
Hypothesis R_focus : ∀ m x, R m (fst (_handleItemFocus x m)).
Hypothesis R_blur : ∀ m x, R m (fst (_handleItemBlur x m)).
Hypothesis R_css : ∀ m, R m (loadDefaultCSS m).
Hypothesis R_cssDispose : ∀ m, R m (effect CssDispose m).
Hypothesis R_pointerover : ∀ m, R m (pointerover m).
Hypothesis R_pointerout : ∀ m, R m (pointerout m).

Lemma step_toggle (m : Menu) : R m (toggle m).
Proof. unfold toggle. destruct (isOpen m); auto. Qed.

Lemma step_beforeChanged (dirty : list string) (m : Menu) : R m (_beforeChanged dirty m).
Proof.
  unfold _beforeChanged. cbv zeta.
  set (m1 := if (length (_itemElements m) =? 0)%nat then createItems m else m).
  assert (H1 : R m m1) by (subst m1; destruct (_ =? _)%nat; auto).
  set (m2 := if bool_decide ("useDefaultCSS" ∈ dirty) then _ else m1).
  assert (H2 : R m1 m2).
  { subst m2. destruct (bool_decide ("useDefaultCSS" ∈ dirty)); [|auto].
    destruct (default false (useDefaultCSS (_settings m1))); [auto|].
    destruct (_cssDisposer m1); auto. }
  set (m3 := if bool_decide ("exporting" ∈ dirty) then _ else m2).
  assert (H3 : R m2 m3).
  { subst m3. destruct (bool_decide ("exporting" ∈ dirty)); [|auto].
    destruct (exporting (_settings m2)); auto. }
  assert (H4 : R m3 (if bool_decide ("align" ∈ dirty) || bool_decide ("valign" ∈ dirty)
                     then _applyClassNames m3 else m3)).
  { destruct (_ || _); auto. }
  eauto.
Qed.

(** An event that does not act is made of the steps above, a change of
    the settings apart. *)
Lemma quiet_steps (fuel : nat) (ev : Event) (m : Menu) :
  acts ev = false ->
  (∀ s, ev = SetAll s -> R m (set_settings (λ _, s) m)) ->
  R m (handle fuel ev m).
Proof.
  destruct ev as [iconFocused keyCode| | | | |x|x|x|focusInside| | | | |s|dirty];
    cbn [acts handle]; intros Hq Hset; try discriminate.
  - unfold keydown. destruct (keydownListener m && (iconFocused || isOpen m)); [|apply R_refl].
    destruct (keyCode =? 27); [apply R_close|]. rewrite Hq.
    destruct ((keyCode =? 38) || (keyCode =? 40)); [|apply R_refl].
    destruct (search _ _ _ _); [apply R_focus | apply R_refl | apply R_refl].
  - apply step_toggle.
  - apply R_pointerover.
  - apply R_pointerout.
  - unfold documentClick. destruct (negb _); auto.
  - unfold anchorFocus. destruct (element m !! oid x) as [a|]; [|apply R_refl].
    destruct (a_focusBlur a); [apply R_focus | apply R_refl].
  - unfold anchorBlur. destruct (element m !! oid x) as [a|]; [|apply R_refl].
    destruct (a_focusBlur a); [apply R_blur | apply R_refl].
  - unfold blurTimeout. destruct (negb _); auto.
  - apply R_open.
  - apply R_close.
  - apply step_toggle.
  - apply R_createItems.
  - by apply Hset.
  - apply step_beforeChanged.
Qed.

Hypothesis R_export : ∀ m x, R m (effect (exportCall x) m).
Hypothesis R_callback : ∀ m cb t, R m (effect (CallbackCall cb t) m).

Lemma step_handleClick (x : IMenuItem) (m : Menu) : R m (fst (_handleClick x m)).
Proof.
  rewrite handleClick_fst. cbv zeta.
  set (m1 := if default false (autoClose (_settings m)) then close m else m).
  assert (H1 : R m m1) by (subst m1; destruct (default false _); auto).
  destruct (exporting (_settings m)); eauto.
Qed.

(** Every event is made of the steps. *)
Lemma handle_steps (fuel : nat) (ev : Event) (m : Menu) :
  (∀ s, ev = SetAll s -> R m (set_settings (λ _, s) m)) ->
  R m (handle fuel ev m).
Proof.
  intros Hset. destruct (acts ev) eqn:Hacts; [|by apply quiet_steps].
  destruct ev as [iconFocused keyCode| | | | |x|x|x|focusInside| | | | |s|dirty];
    cbn [acts handle] in *; try discriminate.
  - unfold keydown. destruct (keydownListener m && (iconFocused || isOpen m)); [|apply R_refl].
    destruct (keyCode =? 27); [apply R_close|]. rewrite Hacts.
    destruct (_activeItem m); [apply step_handleClick | apply step_toggle].
  - unfold anchorClick. destruct (element m !! oid x) as [a|]; [|apply R_refl].
    destruct (a_click a); [apply R_refl | apply R_callback | apply step_handleClick].
Qed.

Lemma handleAll_steps (fuel : nat) (evs : list Event) (m : Menu) :
  (∀ m s, SetAll s ∈ evs -> R m (set_settings (λ _, s) m)) ->
  R m (handleAll fuel evs m).
Proof.
  unfold handleAll. revert m. induction evs as [|ev evs IH]; intros m Hset; cbn [foldl].
  - apply R_refl.
  - eapply R_trans.
    + apply handle_steps. intros s Hev. apply Hset. rewrite Hev. apply list_elem_of_here.
    + apply IH. intros m' s Hin. apply Hset. by apply list_elem_of_further.
Qed.

End Steps.

(** ** What the steps leave alone *)

Lemma renderAnchor_className (r : Root) (x : IMenuItem) :
  a_className (renderAnchor r x) = EmptyString.
Proof.
  unfold renderAnchor. cbv zeta.
  destruct (callback x); [done|]. by destruct (truthy (format x)).
Qed.

Lemma createItems_loop_classNames (e : Exporting) (xs : list IMenuItem) (m : Menu) :
  let m' := createItems_loop e m xs in
  _menuClassName m' = _menuClassName m ∧ _iconClassName m' = _iconClassName m ∧
  _listClassName m' = _listClassName m.
Proof.
  revert m. induction xs as [|x xs IH]; intros m; cbn zeta; [done|].
  unfold createItems_loop. cbn [foldl].
  destruct (skipped e x); [apply IH|].
  change (renderItem (_root m) x) with (renderLi x, renderAnchor (_root m) x).
  cbv iota beta.
  match goal with |- context [foldl ?f ?a xs] => apply (IH a) end.
Qed.

(** [createItems] writes [_itemElements] and the elements of the items, and
    nothing else. *)
Lemma createItems_frame (m : Menu) :
  let m' := createItems m in
  _root m' = _root m ∧ _settings m' = _settings m ∧
  keydownListener m' = keydownListener m ∧
  _menuClassName m' = _menuClassName m ∧ _iconClassName m' = _iconClassName m ∧
  _listClassName m' = _listClassName m ∧
  _activeItem m' = _activeItem m ∧ isOpen m' = isOpen m ∧ _isOver m' = _isOver m ∧
  log m' = log m.
Proof.
  cbn zeta. unfold createItems. destruct (exporting (_settings m)) as [e|]; [|done].
  destruct (ExportingMenuFacts.createItems_loop_spec e (get_items (set_itemElements (λ _, []) m))
              (set_itemElements (λ _, []) m)) as (_ & _ & H3 & H4 & H5 & H6 & H7 & H8 & H9).
  destruct (createItems_loop_classNames e (get_items (set_itemElements (λ _, []) m))
              (set_itemElements (λ _, []) m)) as (C1 & C2 & C3).
  cbn zeta in *. split_and!; done.
Qed.

Lemma handleItemFocus_log (x : IMenuItem) (m : Menu) :
  let m' := fst (_handleItemFocus x m) in
  (log m' = log m ∨ log m' = log m ++ [ElementFocus (oid x)]) ∧
  isOpen m' = isOpen m ∧ _menuClassName m' = _menuClassName m ∧
  _isOver m' = _isOver m ∧ _root m' = _root m ∧ _settings m' = _settings m.
Proof.
  cbn zeta. unfold _handleItemFocus, seq, lift, ret, set_className, element_focus.
  repeat (case_match; simplify_eq; cbn in *); split_and!; auto.
Qed.

Lemma handleItemBlur_log (x : IMenuItem) (m : Menu) :
  let m' := fst (_handleItemBlur x m) in
  (log m' = log m ∨ log m' = log m ++ [SetTimeout (oid x) 10]) ∧
  isOpen m' = isOpen m ∧ _menuClassName m' = _menuClassName m ∧
  _isOver m' = _isOver m ∧ _root m' = _root m ∧ _settings m' = _settings m.
Proof.
  cbn zeta. unfold _handleItemBlur, seq, lift, ret, set_className.
  repeat (case_match; simplify_eq; cbn in *); split_and!; auto.
Qed.

Lemma pointerover_fields (m : Menu) :
  let m' := pointerover m in
  element m' = element m ∧ _activeItem m' = _activeItem m ∧ isOpen m' = isOpen m ∧
  _menuClassName m' = _menuClassName m ∧ _settings m' = _settings m ∧
  _isOver m' = true ∧
  log m' = log m ++ (if default false (inactivateRoot (_settings m))
                     then [InteractionsEnabled false] else []).
Proof.
  cbn zeta. unfold pointerover. cbv zeta. cbn [_settings set_isOver].
  destruct (default false _); cbn; split_and!; try done. by rewrite app_nil_r.
Qed.

Lemma pointerout_fields (m : Menu) :
  let m' := pointerout m in
  element m' = element m ∧ _activeItem m' = _activeItem m ∧ isOpen m' = isOpen m ∧
  _menuClassName m' = _menuClassName m ∧ _settings m' = _settings m ∧
  _isOver m' = false ∧
  log m' = log m ++ (if default false (inactivateRoot (_settings m))
                     then [InteractionsEnabled true] else []).
Proof.
  cbn zeta. unfold pointerout. cbv zeta. cbn [_settings set_isOver].
  destruct (default false _); cbn; split_and!; try done. by rewrite app_nil_r.
Qed.

(** ** The highlighted anchor *)

Lemma highlight_tail (x : IMenuItem) (m : Menu) :
  (∀ o a, element m !! o = Some a -> a_className a ≠ "am5exporting-item-active") ->
  highlight_ok (fst ((lift (set_activeItem (Some x)) >>
                      set_className x "am5exporting-item-active" >>
                      element_focus x) m)).
Proof.
  intros Hno. destruct (element m !! oid x) as [ex|] eqn:Hex.
  - rewrite (ExportingMenuFacts.focus_tail_Some x m ex Hex). cbn [fst].
    intros o a. cbn. destruct (decide (o = oid x)) as [->|Hne].
    + done.
    + rewrite lookup_insert_ne by done. intros Hl Hc. by destruct (Hno o a Hl).
  - rewrite (ExportingMenuFacts.focus_tail_None x m Hex). cbn [fst].
    intros o a Hl Hc. by destruct (Hno o a Hl).
Qed.

Lemma highlight_focus (m : Menu) (x : IMenuItem) :
  highlight_ok m -> highlight_ok (fst (_handleItemFocus x m)).
Proof.
  intros H. unfold _handleItemFocus.
  destruct (is_active x m) eqn:Hact; cbn [negb]; [done|].
  destruct (_activeItem m) as [a|] eqn:Ha.
  - destruct (element m !! oid a) as [ea|] eqn:Hea.
    + rewrite (ExportingMenuFacts.seq_Done _ _ _ _
                 (ExportingMenuFacts.set_className_Some a _ m ea Hea)).
      apply highlight_tail. intros o an. cbn.
      destruct (decide (o = oid a)) as [->|Hne].
      * rewrite lookup_insert_eq. intros [= <-]. done.
      * rewrite lookup_insert_ne by done. intros Hl Hc.
        specialize (H o an Hl Hc). rewrite Ha in H. cbn in H. congruence.
    + by rewrite (ExportingMenuFacts.seq_TypeError _ _ _ _
                    (ExportingMenuFacts.set_className_throws a _ m Hea)).
  - rewrite (ExportingMenuFacts.seq_Done ret _ m m) by done.
    apply highlight_tail. intros o an Hl Hc.
    specialize (H o an Hl Hc). rewrite Ha in H. done.
Qed.

Lemma highlight_blur (m : Menu) (x : IMenuItem) :
  highlight_ok m -> highlight_ok (fst (_handleItemBlur x m)).
Proof.
  intros H. unfold _handleItemBlur.
  destruct (element m !! oid x) as [ex|] eqn:Hex.
  2:{ by rewrite (ExportingMenuFacts.seq_TypeError _ _ _ _
                    (ExportingMenuFacts.set_className_throws x _ m Hex)). }
  rewrite (ExportingMenuFacts.seq_Done _ _ _ _
             (ExportingMenuFacts.set_className_Some x _ m ex Hex)).
  set (m1 := set_element _ m).
  assert (H1 : ∀ o a, element m1 !! o = Some a ->
                      a_className a = "am5exporting-item-active" ->
                      o ≠ oid x ∧ oid <$> _activeItem m = Some o).
  { intros o a. subst m1. cbn. destruct (decide (o = oid x)) as [->|Hne].
    - rewrite lookup_insert_eq. intros [= <-]. done.
    - rewrite lookup_insert_ne by done. intros Hl Hc. split; [done|]. by apply (H o a). }
  unfold seq, lift, ret. change (is_active x m1) with (is_active x m).
  destruct (is_active x m) eqn:Hact; cbn [fst]; intros o a Hl Hc.
  - cbn in Hl. destruct (H1 o a Hl Hc) as [Hne Ho]. exfalso.
    unfold is_active in Hact. destruct (_activeItem m) as [b|]; [|done].
    apply Nat.eqb_eq in Hact. cbn in Ho. congruence.
  - cbn in Hl. by destruct (H1 o a Hl Hc).
Qed.

Lemma highlight_createItems (m : Menu) :
  highlight_ok m -> highlight_ok (createItems m).
Proof.
  intros H. destruct (exporting (_settings m)) as [e|] eqn:He.
  2:{ by rewrite ExportingMenuFacts.createItems_no_exporting. }
  destruct (ExportingMenuFacts.createItems_fields m e He) as (_ & Hel & _ & Hact & _).
  cbn zeta in *. intros o a. rewrite Hel, Hact.
  destruct (last _) as [x|].
  - intros [= <-]. by rewrite renderAnchor_className.
  - apply H.
Qed.

(** At every moment of a menu's life at most one anchor carries the class
    of the active item, and it is the anchor of the item that the menu
    holds as active: this holds after construction and after every run of
    events, whatever they are and whether or not a listener threw. *)
Theorem highlight_invariant (r : Root) (s : Settings) (keyboardevents : bool)
    (fuel : nat) (evs : list Event) :
  highlight_ok (handleAll fuel evs (new_ r s keyboardevents)).
Proof.
  apply (handleAll_steps (λ m m', highlight_ok m -> highlight_ok m')); try by auto.
  - intros m. apply highlight_createItems.
  - intros m x. apply highlight_focus.
  - intros m x. apply highlight_blur.
  - intros m H o a. destruct (pointerover_fields m) as (-> & -> & _). apply H.
  - intros m H o a. destruct (pointerout_fields m) as (-> & -> & _). apply H.
Qed.

(** ** The open state *)

Lemma announcedOpen_snoc (l : list Effect) (e : Effect) :
  announcedOpen (l ++ [e]) =
    match e with
    | Dispatch t =>
        if String.eqb t "menuopened" then true
        else if String.eqb t "menuclosed" then false else announcedOpen l
    | _ => announcedOpen l
    end.
Proof. unfold announcedOpen. by rewrite foldl_app. Qed.

(** The events that the menu dispatches tell its open state: at every
    moment [isOpen] holds exactly when the last "menuopened" or
    "menuclosed" that was dispatched is a "menuopened". *)
Theorem open_state_announced (r : Root) (s : Settings) (keyboardevents : bool)
    (fuel : nat) (evs : list Event) :
  let m := handleAll fuel evs (new_ r s keyboardevents) in
  isOpen m = announcedOpen (log m).
Proof.
  cbn zeta.
  apply (handleAll_steps (λ m m', isOpen m = announcedOpen (log m) ->
                                 isOpen m' = announcedOpen (log m'))); try by auto.
  - intros m _. cbn. by rewrite announcedOpen_snoc.
  - intros m _. cbn. by rewrite announcedOpen_snoc.
  - intros m. destruct (createItems_frame m) as (_&_&_&_&_&_&_& -> & _ & ->). done.
  - intros m x H. destruct (handleItemFocus_log x m) as ([-> | ->] & -> & _); [done|].
    by rewrite announcedOpen_snoc.
  - intros m x H. destruct (handleItemBlur_log x m) as ([-> | ->] & -> & _); [done|].
    by rewrite announcedOpen_snoc.
  - intros m H. cbn. by rewrite announcedOpen_snoc.
  - intros m H. cbn. by rewrite announcedOpen_snoc.
  - intros m H. destruct (pointerover_fields m) as (_ & _ & -> & _ & _ & _ & ->).
    destruct (default false _); [|by rewrite app_nil_r]. by rewrite announcedOpen_snoc.
  - intros m H. destruct (pointerout_fields m) as (_ & _ & -> & _ & _ & _ & ->).
    destruct (default false _); [|by rewrite app_nil_r]. by rewrite announcedOpen_snoc.
  - intros m x H. cbn. rewrite announcedOpen_snoc. unfold exportCall.
    by destruct (is_print _).
  - intros m cb t H. cbn. by rewrite announcedOpen_snoc.
Qed.

(** The class name of the menu element shows the open state: at every
    moment it is the class name that [_applyClassNames] builds for some
    alignment and for the value that [isOpen] has, ending in
    "am5exporting-menu-open" exactly when the menu is open. *)
Theorem open_state_className (r : Root) (s : Settings) (keyboardevents : bool)
    (fuel : nat) (evs : list Event) :
  let m := handleAll fuel evs (new_ r s keyboardevents) in
  ∃ align valign, _menuClassName m = menuClassName align valign (isOpen m).
Proof.
  cbn zeta.
  apply (handleAll_steps (λ m m',
           (∃ align valign, _menuClassName m = menuClassName align valign (isOpen m)) ->
           ∃ align valign, _menuClassName m' = menuClassName align valign (isOpen m')));
    try by auto.
  - intros m _. by eexists _, _.
  - intros m _. by eexists _, _.
  - intros m. by destruct (createItems_frame m) as (_&_&_& -> &_&_&_& -> & _).
  - intros m _. by eexists _, _.
  - intros m x. by destruct (handleItemFocus_log x m) as (_ & -> & -> & _).
  - intros m x. by destruct (handleItemBlur_log x m) as (_ & -> & -> & _).
  - intros m. by destruct (pointerover_fields m) as (_ & _ & -> & -> & _).
  - intros m. by destruct (pointerout_fields m) as (_ & _ & -> & -> & _).
  - by eexists _, _.
Qed.

(** ** The pointer *)

Lemma interactionsEnabled_snoc (l : list Effect) (e : Effect) :
  interactionsEnabled (l ++ [e]) =
    match e with InteractionsEnabled v => v | _ => interactionsEnabled l end.
Proof. unfold interactionsEnabled. by rewrite foldl_app. Qed.

(** The chart is inactive exactly while the pointer is over the menu.
    When [inactivateRoot] is not configured off and is not changed
    afterwards, then after construction and after every sequence of events
    the interactions of the renderer are disabled exactly when the pointer
    is over the menu element: the pointer listeners are the only ones to
    write the flag, and they write it together with [_isOver]. *)
Theorem interactions_follow_pointer (r : Root) (s : Settings) (keyboardevents : bool)
    (fuel : nat) (evs : list Event) :
  inactivateRoot s ≠ Some false ->
  (∀ s', SetAll s' ∉ evs) ->
  let m := handleAll fuel evs (new_ r s keyboardevents) in
  interactionsEnabled (log m) = negb (_isOver m).
Proof.
  intros Hs Hno. cbn zeta.
  enough (H : default false (inactivateRoot
                (_settings (handleAll fuel evs (new_ r s keyboardevents)))) = true ∧
              interactionsEnabled (log (handleAll fuel evs (new_ r s keyboardevents))) =
                negb (_isOver (handleAll fuel evs (new_ r s keyboardevents))))
    by apply H.
  apply (handleAll_steps (λ m m',
           default false (inactivateRoot (_settings m)) = true ∧
           interactionsEnabled (log m) = negb (_isOver m) ->
           default false (inactivateRoot (_settings m')) = true ∧
           interactionsEnabled (log m') = negb (_isOver m'))); try by auto.
  - intros m [H1 H2]. cbn. by rewrite interactionsEnabled_snoc.
  - intros m [H1 H2]. cbn. by rewrite !interactionsEnabled_snoc.
  - intros m. by destruct (createItems_frame m) as (_& -> &_&_&_&_&_&_& -> & ->).
  - intros m x [H1 H2].
    destruct (handleItemFocus_log x m) as ([-> | ->] & _ & _ & -> & _ & ->); [done|].
    by rewrite interactionsEnabled_snoc.
  - intros m x [H1 H2].
    destruct (handleItemBlur_log x m) as ([-> | ->] & _ & _ & -> & _ & ->); [done|].
    by rewrite interactionsEnabled_snoc.
  - intros m [H1 H2]. cbn. by rewrite interactionsEnabled_snoc.
  - intros m [H1 H2]. cbn. by rewrite interactionsEnabled_snoc.
  - intros m [H1 H2]. destruct (pointerover_fields m) as (_&_&_&_& -> & -> & ->).
    rewrite H1. by rewrite interactionsEnabled_snoc.
  - intros m [H1 H2]. destruct (pointerout_fields m) as (_&_&_&_& -> & -> & ->).
    rewrite H1. by rewrite interactionsEnabled_snoc.
  - intros m x [H1 H2]. cbn. rewrite interactionsEnabled_snoc. unfold exportCall.
    by destruct (is_print _).
  - intros m cb t [H1 H2]. cbn. by rewrite interactionsEnabled_snoc.
  - intros m s' Hin. by destruct (Hno s').
  - cbn. split; [|done]. by destruct (inactivateRoot s) as [[|]|].
Qed.

(** ** What acts *)

Lemma actions_snoc (l : list Effect) (e : Effect) :
  actions (l ++ [e]) =
    actions l ++ match e with
                 | ExportingPrint | ExportingDownload _ | CallbackCall _ _ => [e]
                 | _ => []
                 end.
Proof. unfold actions. rewrite List.filter_app. by destruct e. Qed.

Lemma actions_exportCall (l : list Effect) (x : IMenuItem) :
  actions (l ++ [exportCall x]) = actions l ++ [exportCall x].
Proof. rewrite actions_snoc. unfold exportCall. by destruct (is_print _). Qed.

Lemma quiet_actions (fuel : nat) (ev : Event) (m : Menu) :
  acts ev = false -> actions (log (handle fuel ev m)) = actions (log m).
Proof.
  intros Hq.
  apply (quiet_steps (λ m m', actions (log m') = actions (log m))); try by auto.
  - intros m1 m2 m3 H1 H2. congruence.
  - intros m0. cbn. by rewrite actions_snoc, app_nil_r.
  - intros m0. cbn. by rewrite !actions_snoc, !app_nil_r.
  - intros m0. by destruct (createItems_frame m0) as (_&_&_&_&_&_&_&_&_& ->).
  - intros m0 x. destruct (handleItemFocus_log x m0) as ([-> | ->] & _); [done|].
    by rewrite actions_snoc, app_nil_r.
  - intros m0 x. destruct (handleItemBlur_log x m0) as ([-> | ->] & _); [done|].
    by rewrite actions_snoc, app_nil_r.
  - intros m0. cbn. by rewrite actions_snoc, app_nil_r.
  - intros m0. cbn. by rewrite actions_snoc, app_nil_r.
  - intros m0. destruct (pointerover_fields m0) as (_&_&_&_&_&_& ->).
    destruct (default false _); by rewrite ?actions_snoc, !app_nil_r.
  - intros m0. destruct (pointerout_fields m0) as (_&_&_&_&_&_& ->).
    destruct (default false _); by rewrite ?actions_snoc, !app_nil_r.
Qed.

(** Only Enter and a click on an anchor act.  No other event calls the
    exporter or a callback.  Enter, when the listener runs and an item is
    active, makes the exporter call for the active item if there is an
    exporter, and never calls a callback, whatever the item; a click on an
    anchor calls the callback the anchor was given, or makes the exporter
    call for the item the anchor was rendered for. *)
Theorem only_enter_and_click_act (fuel : nat) (ev : Event) (m : Menu) :
  actions (log (handle fuel ev m)) =
    actions (log m) ++
    match ev with
    | KeyDown iconFocused keyCode =>
        if keydownListener m && (iconFocused || isOpen m) && (keyCode =? 13)
        then match _activeItem m, exporting (_settings m) with
             | Some a, Some _ => [exportCall a]
             | _, _ => []
             end
        else []
    | AnchorClick x =>
        match a_click <$> element m !! oid x with
        | Some (ClickCallback cb target) => [CallbackCall cb target]
        | Some (ClickHandle item) =>
            match exporting (_settings m) with
            | Some _ => [exportCall item]
            | None => []
            end
        | _ => []
        end
    | _ => []
    end.
Proof.
  assert (Hclick : ∀ x, actions (log (fst (_handleClick x m))) =
            actions (log m) ++ match exporting (_settings m) with
                               | Some _ => [exportCall x]
                               | None => []
                               end).
  { intros x. rewrite handleClick_fst. cbv zeta.
    assert (Hc : actions (log (if default false (autoClose (_settings m))
                               then close m else m)) = actions (log m)).
    { destruct (default false _); [|done]. cbn. by rewrite !actions_snoc, !app_nil_r. }
    destruct (exporting (_settings m)).
    - cbn [log effect]. by rewrite actions_exportCall, Hc.
    - by rewrite Hc, app_nil_r. }
  destruct (acts ev) eqn:Hacts.
  - destruct ev as [iconFocused keyCode| | | | |x|x|x|focusInside| | | | |s|dirty];
      cbn [acts handle] in *; try discriminate.
    + unfold keydown. rewrite Hacts.
      destruct (keydownListener m && (iconFocused || isOpen m)); cbn [andb fst];
        [|by rewrite app_nil_r].
      apply Z.eqb_eq in Hacts as ->. change (13 =? 27) with false. cbv iota.
      destruct (_activeItem m) as [a|].
      * rewrite Hclick. by destruct (exporting (_settings m)).
      * rewrite app_nil_r. unfold lift, toggle. cbn [fst].
        destruct (isOpen m); cbn; by rewrite !actions_snoc, !app_nil_r.
    + unfold anchorClick. destruct (element m !! oid x) as [a|]; cbn [fmap option_fmap option_map];
        [|by rewrite app_nil_r].
      destruct (a_click a).
      * by rewrite app_nil_r.
      * cbn. by rewrite actions_snoc.
      * apply Hclick.
  - rewrite quiet_actions by done.
    destruct ev; cbn [acts] in *; try discriminate; rewrite ?app_nil_r; try done.
    by rewrite Hacts, andb_false_r, app_nil_r.
Qed.

(** ** Building the list again *)

Lemma menu_eq (m m' : Menu) :
  _root m = _root m' -> _settings m = _settings m' ->
  keydownListener m = keydownListener m' ->
  _menuClassName m = _menuClassName m' -> _iconClassName m = _iconClassName m' ->
  _listClassName m = _listClassName m' -> _itemElements m = _itemElements m' ->
  element m = element m' -> _activeItem m = _activeItem m' ->
  isOpen m = isOpen m' -> _isOver m = _isOver m' -> log m = log m' -> m = m'.
Proof. destruct m, m'. cbn. intros. by subst. Qed.

Lemma createItems_itemElements (m : Menu) (e : Exporting) :
  exporting (_settings m) = Some e ->
  _itemElements (createItems m) =
    map renderLi (List.filter (λ x, negb (skipped e x)) (get_items m)).
Proof.
  intros He. rewrite (ExportingMenuFacts.createItems_unfold m e He).
  destruct (ExportingMenuFacts.createItems_loop_spec e (get_items m)
              (set_itemElements (λ _, []) m)) as (-> & _).
  done.
Qed.

Lemma createItems_twice (m : Menu) : createItems (createItems m) = createItems m.
Proof.
  destruct (createItems_frame m) as (F1&F2&F3&F4&F5&F6&F7&F8&F9&F10). cbn zeta in *.
  destruct (exporting (_settings m)) as [e|] eqn:He.
  2:{ rewrite (ExportingMenuFacts.createItems_no_exporting m He).
      exact (ExportingMenuFacts.createItems_no_exporting m He). }
  assert (He' : exporting (_settings (createItems m)) = Some e) by (by rewrite F2).
  assert (Hitems : get_items (createItems m) = get_items m)
    by (unfold get_items; by rewrite F2).
  destruct (createItems_frame (createItems m)) as (G1&G2&G3&G4&G5&G6&G7&G8&G9&G10).
  cbn zeta in *.
  apply menu_eq; try done.
  - by rewrite (createItems_itemElements _ e He'), (createItems_itemElements _ e He), Hitems.
  - apply map_eq. intros o.
    destruct (ExportingMenuFacts.createItems_fields _ e He') as (_ & -> & _).
    destruct (ExportingMenuFacts.createItems_fields _ e He) as (_ & Hel & _).
    cbn zeta in *. rewrite Hitems, F1. rewrite !Hel.
    by destruct (last _).
Qed.

(** [createItems] builds the list anew: calling it again changes nothing,
    so the entries are never doubled.  It writes the rendered entries and
    the elements of the rendered items only: the settings, the active
    item, the open state, the class names and the log stay as they are, and
    an item that had an element keeps one, also when it is no longer
    rendered. *)
Theorem createItems_idempotent (m : Menu) :
  createItems (createItems m) = createItems m ∧
  _settings (createItems m) = _settings m ∧
  _activeItem (createItems m) = _activeItem m ∧
  isOpen (createItems m) = isOpen m ∧
  log (createItems m) = log m ∧
  _menuClassName (createItems m) = _menuClassName m ∧
  (∀ x, has_element m x -> has_element (createItems m) x).
Proof.
  destruct (createItems_frame m) as (F1&F2&F3&F4&F5&F6&F7&F8&F9&F10). cbn zeta in *.
  split_and!; try done.
  - apply createItems_twice.
  - intros x [a Ha]. unfold has_element.
    destruct (exporting (_settings m)) as [e|] eqn:He.
    2:{ rewrite ExportingMenuFacts.createItems_no_exporting by done. eauto. }
    destruct (ExportingMenuFacts.createItems_fields _ e He) as (_ & -> & _).
    destruct (last _); eauto.
Qed.

(** ** The listeners of a rendered item *)

Lemma createItems_element (m : Menu) (e : Exporting) (x : IMenuItem) :
  exporting (_settings m) = Some e ->
  objects_ok (get_items m) ->
  x ∈ get_items m -> skipped e x = false ->
  element (createItems m) !! oid x = Some (renderAnchor (_root m) x).
Proof.
  intros He Hok Hx Hs.
  destruct (ExportingMenuFacts.createItems_fields m e He) as (_ & -> & _).
  destruct (last _) as [z|] eqn:Hlast.
  - apply last_Some in Hlast as [l' Hl'].
    assert (Hin : In z (List.filter (λ z, Nat.eqb (oid z) (oid x))
                          (List.filter (λ z, negb (skipped e z)) (get_items m)))).
    { rewrite Hl'. apply List.in_or_app. right. by left. }
    apply List.filter_In in Hin as [Hin Hoid].
    apply List.filter_In in Hin as [Hin _].
    apply Nat.eqb_eq in Hoid.
    by rewrite (Hok z x (proj2 (list_elem_of_In _ _) Hin) Hx Hoid).
  - apply last_None in Hlast. exfalso.
    assert (Hin : In x (List.filter (λ z, Nat.eqb (oid z) (oid x))
                          (List.filter (λ z, negb (skipped e z)) (get_items m)))).
    { apply List.filter_In. split; [|apply Nat.eqb_refl].
      apply List.filter_In. split; [by apply list_elem_of_In | by rewrite Hs]. }
    by rewrite Hlast in Hin.
Qed.

(** The listeners that [createItems] gives a rendered item, in a list of
    distinct item objects.  A click on an item that has a callback calls
    the callback, on the callback target or else on the menu, and does
    nothing else: it neither exports nor closes the menu, also when the
    item has a format.  A click on an item without a callback that has a
    format runs [_handleClick] for that item, and its focus and blur run
    [_handleItemFocus] and [_handleItemBlur].  An item that has neither
    gets no listener and no tab index. *)
Theorem createItems_listeners (m : Menu) (e : Exporting) (x : IMenuItem) :
  exporting (_settings m) = Some e ->
  objects_ok (get_items m) ->
  x ∈ get_items m -> skipped e x = false ->
  let m' := createItems m in
  anchorClick x m' =
    match callback x with
    | Some cb => (effect (CallbackCall cb (callbackTarget x)) m', Done)
    | None => if truthy (format x) then _handleClick x m' else (m', Done)
    end ∧
  anchorFocus x m' =
    match callback x with
    | Some _ => (m', Done)
    | None => if truthy (format x) then _handleItemFocus x m' else (m', Done)
    end ∧
  anchorBlur x m' =
    match callback x with
    | Some _ => (m', Done)
    | None => if truthy (format x) then _handleItemBlur x m' else (m', Done)
    end ∧
  a_tabindex <$> element m' !! oid x =
    Some (match callback x with
          | Some _ => Some (tabindex (_root m))
          | None => if truthy (format x) then Some (tabindex (_root m)) else None
          end).
Proof.
  intros He Hok Hx Hs. cbn zeta.
  pose proof (createItems_element m e x He Hok Hx Hs) as Hel.
  unfold anchorClick, anchorFocus, anchorBlur. rewrite Hel.
  unfold renderAnchor. cbv zeta.
  destruct (callback x) as [cb|]; [done|].
  by destruct (truthy (format x)).
Qed.

(** A rebuild takes the highlight from the active item.  When
    [createItems] renders the active item again, in a list of distinct item
    objects, the item stays the active item, but its new anchor is not
    highlighted, and a focus on it changes nothing, as it is the active
    item already. *)
Theorem createItems_drops_highlight (m : Menu) (e : Exporting) (x : IMenuItem) :
  exporting (_settings m) = Some e ->
  objects_ok (get_items m) ->
  x ∈ get_items m -> skipped e x = false ->
  _activeItem m = Some x ->
  let m' := createItems m in
  _activeItem m' = Some x ∧
  a_className <$> element m' !! oid x = Some EmptyString ∧
  _handleItemFocus x m' = (m', Done).
Proof.
  intros He Hok Hx Hs Hact. cbn zeta.
  destruct (createItems_frame m) as (_&_&_&_&_&_& Ha &_).
  rewrite (createItems_element m e x He Hok Hx Hs), Ha, Hact.
  split_and!; [done| |].
  - cbn. by rewrite renderAnchor_className.
  - unfold _handleItemFocus, is_active, same_item. rewrite Ha, Hact.
    by rewrite Nat.eqb_refl.
Qed.

(** ** Focus and blur *)

(** Focus and blur undo each other.  When no item is active and a rendered
    item is not highlighted, its focus makes it the active item and
    highlights its anchor, and its blur afterwards takes both back: the
    elements and the active item are as before, and the log has gained the
    call of [focus] and the deferred close check. *)
Theorem focus_blur_round_trip (m : Menu) (x : IMenuItem) (a : Anchor) :
  element m !! oid x = Some a ->
  a_className a = EmptyString ->
  _activeItem m = None ->
  let m1 := fst (_handleItemFocus x m) in
  let m2 := fst (_handleItemBlur x m1) in
  snd (_handleItemFocus x m) = Done ∧ snd (_handleItemBlur x m1) = Done ∧
  _activeItem m1 = Some x ∧
  a_className <$> element m1 !! oid x = Some "am5exporting-item-active" ∧
  element m2 = element m ∧ _activeItem m2 = None ∧
  log m2 = log m ++ [ElementFocus (oid x); SetTimeout (oid x) 10] ∧
  isOpen m2 = isOpen m.
Proof.
  intros Ha Hc Hact. cbn zeta.
  assert (H1 : _handleItemFocus x m =
    (effect (ElementFocus (oid x))
       (set_element (insert (oid x) (with_className "am5exporting-item-active" a))
          (set_activeItem (Some x) m)), Done)).
  { unfold _handleItemFocus, is_active. rewrite Hact. cbn [negb].
    rewrite (ExportingMenuFacts.seq_Done ret _ m m) by done.
    by apply ExportingMenuFacts.focus_tail_Some. }
  rewrite H1. cbn [fst snd].
  set (m1 := effect _ _).
  assert (H2 : _handleItemBlur x m1 =
    (effect (SetTimeout (oid x) 10)
       (set_activeItem None
          (set_element (insert (oid x) (with_className EmptyString
                           (with_className "am5exporting-item-active" a))) m1)), Done)).
  { unfold _handleItemBlur.
    rewrite (ExportingMenuFacts.seq_Done _ _ _ _
               (ExportingMenuFacts.set_className_Some x _ m1
                  (with_className "am5exporting-item-active" a)
                  ltac:(subst m1; cbn; by rewrite lookup_insert_eq))).
    unfold seq, lift, ret, is_active, same_item. subst m1. cbn. by rewrite Nat.eqb_refl. }
  rewrite H2. cbn [fst snd]. subst m1. cbn.
  split_and!; try done.
  - by rewrite lookup_insert_eq.
  - rewrite insert_insert_eq. apply insert_id. rewrite Ha. f_equal.
    destruct a. cbn in *. by subst.
  - by rewrite <- app_assoc.
Qed.

(** ** The arrow keys on an empty list *)

(** With an empty item list an arrow key throws.  When the listener runs on
    Up or Down and the configured item list is empty, the search reads the
    type of an entry that is not there: the listener ends in a TypeError,
    and the menu is as it was. *)
Theorem arrow_keys_empty_list (m : Menu) (fuel : nat) (iconFocused : bool) (keyCode : Z) :
  keydownListener m = true ->
  iconFocused || isOpen m = true ->
  keyCode = 38 ∨ keyCode = 40 ->
  get_items m = [] ->
  fuel ≠ 0%nat ->
  keydown fuel iconFocused keyCode m = (m, TypeError).
Proof.
  intros Hl Hg Hk Hitems Hfuel.
  rewrite ExportingMenuFacts.keydown_arrow_unfold by done. rewrite Hitems.
  destruct fuel as [|fuel]; [done|]. cbn [search].
  assert (Hat : ∀ i, at_index ([] : list IMenuItem) i = None).
  { intros i. unfold at_index. by destruct (i <? 0). }
  by rewrite Hat.
Qed.

(** ** Change handling *)

(** When the framework handles a change, the list is built if there is an
    exporter and either nothing is rendered yet or the exporter was
    changed; it is then the list [createItems] builds.  In every other
    case the rendered entries and the elements stay as they are: a change
    of the items alone does not render the list again, and without an
    exporter nothing is ever rendered. *)
Theorem beforeChanged_renders (dirty : list string) (m : Menu) :
  let m' := _beforeChanged dirty m in
  let built := bool_decide (_itemElements m = [] ∨ "exporting" ∈ dirty) in
  _itemElements m' =
    _itemElements (if built then createItems m else m) ∧
  element m' = element (if built then createItems m else m) ∧
  (exporting (_settings m) = None -> _itemElements m' = _itemElements m) ∧
  _settings m' = _settings m ∧ _activeItem m' = _activeItem m ∧ isOpen m' = isOpen m.
Proof.
  cbn zeta. unfold _beforeChanged. cbv zeta.
  set (m1 := if (length (_itemElements m) =? 0)%nat then createItems m else m).
  set (m2 := if bool_decide ("useDefaultCSS" ∈ dirty) then _ else m1).
  set (m3 := if bool_decide ("exporting" ∈ dirty) then _ else m2).
  set (m4 := if _ || _ then _applyClassNames m3 else m3).
  assert (H43 : _itemElements m4 = _itemElements m3 ∧ element m4 = element m3 ∧
                _settings m4 = _settings m3 ∧ _activeItem m4 = _activeItem m3 ∧
                isOpen m4 = isOpen m3).
  { subst m4. by destruct (_ || _). }
  assert (H21 : _itemElements m2 = _itemElements m1 ∧ element m2 = element m1 ∧
                _settings m2 = _settings m1 ∧ _root m2 = _root m1 ∧
                _activeItem m2 = _activeItem m1 ∧ isOpen m2 = isOpen m1).
  { subst m2. destruct (bool_decide ("useDefaultCSS" ∈ dirty)); [|done].
    destruct (default false _); [done|]. by destruct (_cssDisposer m1). }
  destruct H43 as (-> & -> & -> & -> & ->).
  destruct H21 as (I21 & E21 & S21 & R21 & A21 & O21).
  assert (Hsame : ∀ e ma mb, exporting (_settings mb) = Some e ->
                    _settings ma = _settings mb -> _root ma = _root mb ->
                    element ma = element mb ->
                    _itemElements (createItems ma) = _itemElements (createItems mb) ∧
                    element (createItems ma) = element (createItems mb)).
  { intros e ma mb Hexp Hs Hr He.
    assert (Hexp' : exporting (_settings ma) = Some e) by (by rewrite Hs).
    split.
    - rewrite (createItems_itemElements _ e Hexp'), (createItems_itemElements _ e Hexp).
      unfold get_items. by rewrite Hs.
    - apply map_eq. intros o.
      destruct (ExportingMenuFacts.createItems_fields _ e Hexp') as (_ & -> & _).
      destruct (ExportingMenuFacts.createItems_fields _ e Hexp) as (_ & -> & _).
      unfold get_items. by rewrite Hs, Hr, He. }
  assert (Hc1 : (length (_itemElements m) =? 0)%nat = bool_decide (_itemElements m = [])).
  { by destruct (_itemElements m). }
  assert (Hbuilt : bool_decide (_itemElements m = [] ∨ "exporting" ∈ dirty) =
                   bool_decide (_itemElements m = []) || bool_decide ("exporting" ∈ dirty)).
  { by rewrite bool_decide_or. }
  rewrite Hbuilt. clear Hbuilt.
  destruct (createItems_frame m) as (F1&F2&_&_&_&_&F7&F8&_). cbn zeta in *.
  assert (H1 : _itemElements m1 = _itemElements (if bool_decide (_itemElements m = [])
                                                 then createItems m else m) ∧
               element m1 = element (if bool_decide (_itemElements m = [])
                                     then createItems m else m) ∧
               _settings m1 = _settings m ∧ _root m1 = _root m ∧
               _activeItem m1 = _activeItem m ∧ isOpen m1 = isOpen m).
  { subst m1. rewrite Hc1. by destruct (bool_decide (_itemElements m = [])). }
  destruct H1 as (I1 & E1 & S1 & R1 & A1 & O1).
  destruct (exporting (_settings m)) as [e|] eqn:He.
  - assert (He2 : exporting (_settings m2) = Some e) by (by rewrite S21, S1).
    destruct (createItems_frame m2) as (_&G2&_&_&_&_&G7&G8&_). cbn zeta in *.
    assert (H3 : _itemElements m3 =
                 _itemElements (if bool_decide (_itemElements m = []) ||
                                   bool_decide ("exporting" ∈ dirty)
                                then createItems m else m) ∧
                 element m3 =
                 element (if bool_decide (_itemElements m = []) ||
                             bool_decide ("exporting" ∈ dirty)
                          then createItems m else m) ∧
                 _settings m3 = _settings m ∧ _activeItem m3 = _activeItem m ∧
                 isOpen m3 = isOpen m).
    { subst m3. destruct (bool_decide ("exporting" ∈ dirty)).
      - rewrite He2, orb_true_r, G2, G7, G8, S21, S1, A21, A1, O21, O1.
        split_and!; try done.
        + destruct (bool_decide (_itemElements m = [])).
          * destruct (Hsame e m2 (createItems m)) as [-> _]; try congruence.
            by rewrite createItems_twice.
          * destruct (Hsame e m2 m) as [-> _]; congruence.
        + destruct (bool_decide (_itemElements m = [])).
          * destruct (Hsame e m2 (createItems m)) as [_ ->]; try congruence.
            by rewrite createItems_twice.
          * destruct (Hsame e m2 m) as [_ ->]; congruence.
      - rewrite orb_false_r, I21, E21, S21, A21, O21. done. }
    destruct H3 as (-> & -> & -> & -> & ->). split_and!; try done.
  - assert (Hm3 : m3 = m2).
    { subst m3. destruct (bool_decide ("exporting" ∈ dirty)); [|done].
      by rewrite S21, S1, He. }
    rewrite Hm3, I21, E21, S21, A21, O21, I1, E1, S1, A1, O1.
    rewrite (ExportingMenuFacts.createItems_no_exporting m He).
    split_and!; try done.
    + by destruct (bool_decide (_itemElements m = [])), (bool_decide ("exporting" ∈ dirty)).
    + by destruct (bool_decide (_itemElements m = [])), (bool_decide ("exporting" ∈ dirty)).
    + intros _. by destruct (bool_decide (_itemElements m = [])).
Qed.

(** ** The theorems at the example menus *)

Lemma createItems_listeners_witness :
  anchorClick customItem (createItems customNewMenu) =
    (effect (CallbackCall 7%nat None) (createItems customNewMenu), Done) ∧
  a_tabindex <$> element (createItems customNewMenu) !! 20%nat = Some (Some "0").
Proof.
  destruct (createItems_listeners customNewMenu exampleExporting customItem eq_refl)
    as (H1 & _ & _ & H4).
  - apply ExportingMenuFacts.objects_ok_NoDup. cbn.
    repeat (apply NoDup_cons_2; [set_solver|]). apply NoDup_nil_2.
  - apply list_elem_of_here.
  - reflexivity.
  - split; [exact H1 | exact H4].
Defined.

Lemma createItems_drops_highlight_witness :
  let png := mkItem 1%nat TFormat (Some "png") (Some "image") (Some "PNG") (Some "Image")
                    None None in
  let m := fst (keydown 24 false 40 exampleMenu) in
  a_className <$> element m !! 1%nat = Some "am5exporting-item-active" ∧
  _activeItem (createItems m) = Some png ∧
  a_className <$> element (createItems m) !! 1%nat = Some EmptyString ∧
  _handleItemFocus png (createItems m) = (createItems m, Done).
Proof.
  cbn zeta. split; [vm_compute; reflexivity|].
  apply (createItems_drops_highlight (fst (keydown 24 false 40 exampleMenu)) exampleExporting
           (mkItem 1%nat TFormat (Some "png") (Some "image") (Some "PNG") (Some "Image")
                   None None)).
  - vm_compute. reflexivity.
  - replace (get_items (fst (keydown 24 false 40 exampleMenu)))
      with (defaultItems exampleRoot) by (vm_compute; reflexivity).
    apply ExportingMenuFacts.objects_ok_NoDup, ExportingMenuFacts.defaultItems_oids.
  - replace (get_items (fst (keydown 24 false 40 exampleMenu)))
      with (defaultItems exampleRoot) by (vm_compute; reflexivity).
    apply list_elem_of_further, list_elem_of_here.
  - reflexivity.
  - vm_compute. reflexivity.
Defined.

Lemma focus_blur_round_trip_witness :
  let png := mkItem 1%nat TFormat (Some "png") (Some "image") (Some "PNG") (Some "Image")
                    None None in
  let m1 := fst (_handleItemFocus png exampleMenu) in
  let m2 := fst (_handleItemBlur png m1) in
  _activeItem m1 = Some png ∧ element m2 = element exampleMenu ∧ _activeItem m2 = None.
Proof.
  cbn zeta.
  destruct (focus_blur_round_trip exampleMenu
              (mkItem 1%nat TFormat (Some "png") (Some "image") (Some "PNG") (Some "Image")
                      None None)
              (renderAnchor exampleRoot
                 (mkItem 1%nat TFormat (Some "png") (Some "image") (Some "PNG") (Some "Image")
                         None None)))
    as (_ & _ & H3 & _ & H5 & H6 & _).
  - vm_compute. reflexivity.
  - reflexivity.
  - reflexivity.
  - split_and!; [exact H3 | exact H5 | exact H6].
Defined.

Lemma interactions_follow_pointer_witness :
  interactionsEnabled
    (log (handleAll 24 [PointerOver; KeyDown false 40; DocumentClick]
            (new_ exampleRoot noSettings true))) = false ∧
  interactionsEnabled
    (log (handleAll 24 [PointerOver; KeyDown false 40; PointerOut; DocumentClick]
            (new_ exampleRoot noSettings true))) = true.
Proof.
  assert (Hs : inactivateRoot noSettings ≠ Some false) by discriminate.
  split.
  - etransitivity.
    + apply (interactions_follow_pointer exampleRoot noSettings true 24
               [PointerOver; KeyDown false 40; DocumentClick] Hs).
      intros s' Hin. repeat (apply elem_of_cons in Hin as [Hin|Hin]; [discriminate|]).
      by apply elem_of_nil in Hin.
    + vm_compute. reflexivity.
  - etransitivity.
    + apply (interactions_follow_pointer exampleRoot noSettings true 24
               [PointerOver; KeyDown false 40; PointerOut; DocumentClick] Hs).
      intros s' Hin. repeat (apply elem_of_cons in Hin as [Hin|Hin]; [discriminate|]).
      by apply elem_of_nil in Hin.
    + vm_compute. reflexivity.
Defined.

Lemma arrow_keys_empty_list_witness :
  keydown 1 false 40 emptyMenu = (emptyMenu, TypeError) ∧
  keydown 1 false 38 emptyMenu = (emptyMenu, TypeError).
Proof.
  split.
  - apply arrow_keys_empty_list; [reflexivity | reflexivity | by right | reflexivity | lia].
  - apply arrow_keys_empty_list; [reflexivity | reflexivity | by left | reflexivity | lia].
Defined.

End ExportingMenuEvents.

(* ===================================================================== *)
(** * Properties of the chart script *)
(* ===================================================================== *)

Module ChartScriptFacts.

Import ChartScript.

Section Facts.

Context {number : Type}.
Context (round : number -> number) (add sub mul : number -> number -> number).
Context (ten five : number).
Context (add_day : number -> number).

Local Abbreviation Globals := (@Globals number).
Local Abbreviation DataPoint := (@DataPoint number).
Local Abbreviation generateData := (generateData round add sub mul ten five add_day).
Local Abbreviation generateDatas_loop := (generateDatas_loop round add sub mul ten five add_day).
Local Abbreviation generateDatas := (generateDatas round add sub mul ten five add_day).

Lemma generateDatas_loop_acc (n : nat) (data : list DataPoint) (g : Globals) :
  generateDatas_loop n data g =
    (data ++ fst (generateDatas_loop n [] g), snd (generateDatas_loop n [] g)).
Proof.
  revert data g. induction n as [|n IH]; intros data g; cbn [generateDatas_loop].
  - by rewrite app_nil_r.
  - rewrite (IH (data ++ _)), (IH ([] ++ _)). cbn [fst snd app].
    by rewrite <- app_assoc.
Qed.

Lemma generateDatas_loop_S (n : nat) (g : Globals) :
  generateDatas_loop (S n) [] g =
    (fst (generateData g) :: fst (generateDatas_loop n [] (snd (generateData g))),
     snd (generateDatas_loop n [] (snd (generateData g)))).
Proof. cbn [generateDatas_loop]. by rewrite generateDatas_loop_acc. Qed.

Lemma generateDatas_loop_add (a b : nat) (g : Globals) :
  generateDatas_loop (a + b) [] g =
    (fst (generateDatas_loop a [] g) ++
       fst (generateDatas_loop b [] (snd (generateDatas_loop a [] g))),
     snd (generateDatas_loop b [] (snd (generateDatas_loop a [] g)))).
Proof.
  revert g. induction a as [|a IH]; intros g.
  - cbn [Nat.add generateDatas_loop fst snd app]. by destruct (generateDatas_loop b [] g).
  - change (S a + b)%nat with (S (a + b)).
    rewrite !generateDatas_loop_S, IH. done.
Qed.

Lemma generateDatas_loop_spec (n : nat) (g : Globals) :
  let r := generateDatas_loop n [] g in
  let step i v := round (add (sub (mul (random g (drawn g + i)%nat) ten) five) v) in
  length (fst r) = n ∧
  date (snd r) = Nat.iter n add_day (date g) ∧
  drawn (snd r) = (drawn g + n)%nat ∧
  random (snd r) = random g ∧
  value (snd r) = default (value g) (dp_value <$> last (fst r)) ∧
  (∀ k x, fst r !! k = Some x -> dp_date x = Nat.iter (S k) add_day (date g)) ∧
  (∀ x, fst r !! 0%nat = Some x -> dp_value x = step 0%nat (value g)) ∧
  (∀ k x y, fst r !! k = Some x -> fst r !! S k = Some y ->
            dp_value y = step (S k) (dp_value x)).
Proof.
  revert g. induction n as [|n IH]; intros g; cbn zeta.
  - cbn. split_and!; try done; lia.
  - rewrite generateDatas_loop_S. cbn [fst snd].
    destruct (IH (snd (generateData g))) as (Hlen & Hdate & Hdrawn & Hrand & Hval & Hd & H0 & Hk).
    cbn zeta in *. split_and!.
    + cbn [length]. by rewrite Hlen.
    + rewrite Hdate. cbn [ChartScript.generateData snd date]. by rewrite Nat.iter_succ_r.
    + rewrite Hdrawn. cbn. lia.
    + rewrite Hrand. done.
    + rewrite Hval. cbn [ChartScript.generateData snd fst value].
      destruct (fst (generateDatas_loop n [] _)) as [|y ys] eqn:Hys; [done|].
      change (last (?x :: y :: ys)) with (last (y :: ys)).
      destruct (last (y :: ys)) eqn:Hl; [done|]. by apply last_None in Hl.
    + intros k x. destruct k as [|k]; cbn [lookup list_lookup].
      * intros [= <-]. done.
      * intros Hx. rewrite (Hd k x Hx). cbn [ChartScript.generateData snd date].
        by rewrite <- Nat.iter_succ_r.
    + intros x. cbn [lookup list_lookup]. intros [= <-]. cbn. by rewrite Nat.add_0_r.
    + intros k x y. destruct k as [|k]; cbn [lookup list_lookup].
      * intros [= <-] Hy. rewrite (H0 y Hy). cbn. by rewrite Nat.add_0_r, Nat.add_1_r.
      * intros Hx Hy. rewrite (Hk k x y Hx Hy).
        cbn [ChartScript.generateData snd random drawn].
        by replace (S (drawn g) + S k)%nat with (drawn g + S (S k))%nat by lia.
Qed.

(** [generateDatas(count)] returns [count] data points, and none for a
    count that is not positive.  The date of the point at index [k] is the
    date of the script advanced by [k + 1] days, so the first point is one
    day after the start date; every value is computed from the value before
    it, the first from the value of the script, each with a random number
    of its own.  The call leaves the date and the value of the last point
    in the variables of the script. *)
Theorem generateDatas_points (count : Z) (g : Globals) :
  let r := generateDatas count g in
  let n := Z.to_nat count in
  let step i v := round (add (sub (mul (random g (drawn g + i)%nat) ten) five) v) in
  length (fst r) = n ∧
  (count ≤ 0 -> r = ([], g))%Z ∧
  (∀ k x, fst r !! k = Some x -> dp_date x = Nat.iter (S k) add_day (date g)) ∧
  (∀ x, fst r !! 0%nat = Some x -> dp_value x = step 0%nat (value g)) ∧
  (∀ k x y, fst r !! k = Some x -> fst r !! S k = Some y ->
            dp_value y = step (S k) (dp_value x)) ∧
  date (snd r) = Nat.iter n add_day (date g) ∧
  value (snd r) = default (value g) (dp_value <$> last (fst r)) ∧
  drawn (snd r) = (drawn g + n)%nat.
Proof.
  cbn zeta. unfold ChartScript.generateDatas.
  destruct (generateDatas_loop_spec (Z.to_nat count) g)
    as (Hlen & Hdate & Hdrawn & Hrand & Hval & Hd & H0 & Hk).
  cbn zeta in *. split_and!; try done.
  intros Hc. by replace (Z.to_nat count) with 0%nat by lia.
Qed.

(** Successive calls continue the series.  The points of
    [generateDatas(a + b)] are the points of [generateDatas(a)] followed by
    the points that [generateDatas(b)] returns when it is called next, and
    the variables of the script end up the same. *)
Theorem generateDatas_continues (a b : Z) (g : Globals) :
  (0 ≤ a)%Z -> (0 ≤ b)%Z ->
  let first := generateDatas a g in
  let second := generateDatas b (snd first) in
  generateDatas (a + b) g = (fst first ++ fst second, snd second).
Proof.
  intros Ha Hb. cbn zeta. unfold ChartScript.generateDatas.
  rewrite Z2Nat.inj_add by done. apply generateDatas_loop_add.
Qed.

End Facts.

Lemma generateDatas_continues_witness :
  let gen := generateDatas (λ x, x) Z.add Z.sub Z.mul 10%Z 5%Z exampleDay in
  gen (1 + 2)%Z exampleGlobals =
    (fst (gen 1%Z exampleGlobals) ++ fst (gen 2%Z (snd (gen 1%Z exampleGlobals))),
     snd (gen 2%Z (snd (gen 1%Z exampleGlobals)))).
Proof.
  cbn zeta.
  apply (generateDatas_continues (λ x, x) Z.add Z.sub Z.mul 10%Z 5%Z exampleDay
           1%Z 2%Z exampleGlobals); lia.
Defined.
End ChartScriptFacts.
